(** * pixel-rogue-like: the gameplay simulation core, embedded in Rocq

    A shallow embedding of the world grid ([TileMap]), the procedural map
    generator, the entity store, the combat system, the spawn controller,
    the wave manager and the projectile manager, followed by the properties
    proved about them.

    Conventions.
    - A JavaScript [number] that the code uses as an integer (tile
      coordinates, indices, counts, ids, hit points) is a [Z]; a [number]
      used as a continuous quantity (positions, health, damage, budget,
      time) is an exact rational [Q].  Floating point rounding, [NaN] and
      the infinities are outside the model, except where the source guards
      against them explicitly and the guard is written out.
    - Typed arrays are lists with the element coercion of the array type
      written at every store ([ToInt16], [ToUint8], [ToUint32]).
    - Objects shared by reference (entities, projectiles) live in a store
      keyed by their reference; the lists of the managers hold references.
    - [Math.random] is an explicit stream of draws with a cursor. *)

From Stdlib Require Import ZArith QArith Qround Lia Lqa.
From stdpp Require Import gmap strings list.

Local Open Scope Z_scope.

(** ** JavaScript number coercions *)

Definition ToUint32 (v : Z) : Z := v mod 2 ^ 32.
Definition ToUint16 (v : Z) : Z := v mod 2 ^ 16.
Definition ToUint8 (v : Z) : Z := v mod 2 ^ 8.
Definition ToInt16 (v : Z) : Z := (v + 2 ^ 15) mod 2 ^ 16 - 2 ^ 15.

(** Reading a typed array inside its range; [0] stands for the [undefined]
    of a read outside it, which every caller below excludes by [inBounds]. *)
Definition readArr (a : list Z) (idx : Z) : Z := default 0 (a !! Z.to_nat idx).

(** Storing into a typed array: a store outside the range is dropped. *)
Definition writeArr (a : list Z) (idx : Z) (v : Z) : list Z :=
  if idx <? 0 then a else <[Z.to_nat idx := v]> a.

(** ** world/TileMap.ts *)

Module BaseType.
Definition Dirt : Z := 1.
Definition Stone : Z := 2.
Definition Floor : Z := 3.
Definition Wall : Z := 4.
Definition Water : Z := 5.
Definition Void : Z := 6.
End BaseType.

Module FlagBits.
Definition Walkable : Z := Z.shiftl 1 0.
Definition Blocked : Z := Z.shiftl 1 1.
Definition LosBlock : Z := Z.shiftl 1 2.
End FlagBits.

Definition SHIFT_FLAGS : Z := 8.
Definition SHIFT_DECOR : Z := 16.
Definition SHIFT_EFFECT : Z := 20.
Definition SHIFT_STATE : Z := 24.

Definition MASK_BASE : Z := 255.
Definition MASK_FLAGS : Z := Z.shiftl 255 SHIFT_FLAGS.
Definition MASK_DECOR : Z := Z.shiftl 15 SHIFT_DECOR.
Definition MASK_EFFECT : Z := Z.shiftl 15 SHIFT_EFFECT.
Definition MASK_STATE : Z := Z.shiftl 15 SHIFT_STATE.

Record TileSnapshot := mkTileSnapshot {
  ts_base : Z;
  ts_flags : Z;
  ts_decor : Z;
  ts_effect : Z;
  ts_state : Z;
  ts_hp : Z;
  ts_durability : Z;
  ts_usage : Z;
  ts_occupants : list nat
}.

Record TileMap := mkTileMap {
  width : Z;
  height : Z;
  virtualPixelScale : Q;
  mask : list Z;          (* Uint32Array *)
  hp : list Z;            (* Int16Array *)
  durability : list Z;    (* Uint8Array *)
  usage : list Z;         (* Uint16Array *)
  overlayTTL : list Z;    (* Uint16Array *)
  occupants : list (list nat);
  dirtyTiles : list Z
}.

Definition set_mask (tm : TileMap) (m : list Z) : TileMap :=
  mkTileMap (width tm) (height tm) (virtualPixelScale tm) m (hp tm)
    (durability tm) (usage tm) (overlayTTL tm) (occupants tm) (dirtyTiles tm).
Definition set_hp (tm : TileMap) (a : list Z) : TileMap :=
  mkTileMap (width tm) (height tm) (virtualPixelScale tm) (mask tm) a
    (durability tm) (usage tm) (overlayTTL tm) (occupants tm) (dirtyTiles tm).
Definition set_durability (tm : TileMap) (a : list Z) : TileMap :=
  mkTileMap (width tm) (height tm) (virtualPixelScale tm) (mask tm) (hp tm)
    a (usage tm) (overlayTTL tm) (occupants tm) (dirtyTiles tm).
Definition set_dirtyTiles (tm : TileMap) (d : list Z) : TileMap :=
  mkTileMap (width tm) (height tm) (virtualPixelScale tm) (mask tm) (hp tm)
    (durability tm) (usage tm) (overlayTTL tm) (occupants tm) d.

(** [new TileMap(w, h, scale)]: every array zero-filled, of length [w * h]. *)
Definition newTileMap (w h : Z) (scale : Q) : TileMap :=
  let count := Z.to_nat (w * h) in
  mkTileMap w h scale (replicate count 0) (replicate count 0)
    (replicate count 0) (replicate count 0) (replicate count 0)
    (replicate count []) [].

Definition index (tm : TileMap) (x y : Z) : Z := y * width tm + x.

Definition inBounds (tm : TileMap) (x y : Z) : bool :=
  (0 <=? x) && (0 <=? y) && (x <? width tm) && (y <? height tm).

Definition encode (base flags decor effect state : Z) : Z :=
  ToUint32
    (Z.lor (Z.lor (Z.lor (Z.lor
       (Z.land base MASK_BASE)
       (Z.land (Z.shiftl flags SHIFT_FLAGS) MASK_FLAGS))
       (Z.land (Z.shiftl decor SHIFT_DECOR) MASK_DECOR))
       (Z.land (Z.shiftl effect SHIFT_EFFECT) MASK_EFFECT))
       (Z.land (Z.shiftl state SHIFT_STATE) MASK_STATE)).

Definition decodeBase (m : Z) : Z := Z.land m MASK_BASE.
Definition decodeFlags (m : Z) : Z := Z.shiftr (Z.land m MASK_FLAGS) SHIFT_FLAGS.
Definition decodeDecor (m : Z) : Z := Z.shiftr (Z.land m MASK_DECOR) SHIFT_DECOR.
Definition decodeEffect (m : Z) : Z := Z.shiftr (Z.land m MASK_EFFECT) SHIFT_EFFECT.
Definition decodeState (m : Z) : Z := Z.shiftr (Z.land m MASK_STATE) SHIFT_STATE.

Definition defaultFlagsForBase (base : Z) : Z :=
  if base =? BaseType.Wall then Z.lor FlagBits.Blocked FlagBits.LosBlock
  else if base =? BaseType.Water then 0
  else FlagBits.Walkable.

Definition markDirty (tm : TileMap) (idx : Z) : TileMap :=
  set_dirtyTiles tm (dirtyTiles tm ++ [idx]).

Definition getTile (tm : TileMap) (x y : Z) : option TileSnapshot :=
  if negb (inBounds tm x y) then None
  else
    let idx := index tm x y in
    let m := readArr (mask tm) idx in
    Some (mkTileSnapshot (decodeBase m) (decodeFlags m) (decodeDecor m)
            (decodeEffect m) (decodeState m) (readArr (hp tm) idx)
            (readArr (durability tm) idx) (readArr (usage tm) idx)
            (default [] (occupants tm !! Z.to_nat idx))).

Definition setTile (tm : TileMap) (x y : Z) (base : Z) : TileMap :=
  if negb (inBounds tm x y) then tm
  else
    let idx := index tm x y in
    let prev := readArr (mask tm) idx in
    let prevBase := decodeBase prev in
    let flags := defaultFlagsForBase base in
    let decor := decodeDecor prev in
    let effect := decodeEffect prev in
    let state := decodeState prev in
    let tm1 := set_mask tm (writeArr (mask tm) idx (encode base flags decor effect state)) in
    if negb (base =? prevBase) then markDirty tm1 idx else tm1.

Definition setWallTile (tm : TileMap) (x y : Z) (hitPoints : Z) (indestructible : bool) : TileMap :=
  if negb (inBounds tm x y) then tm
  else
    let idx := index tm x y in
    let prev := readArr (mask tm) idx in
    let prevBase := decodeBase prev in
    let decor := decodeDecor prev in
    let effect := decodeEffect prev in
    let state := decodeState prev in
    let flags := Z.lor FlagBits.Blocked FlagBits.LosBlock in
    let tm1 := set_mask tm (writeArr (mask tm) idx (encode BaseType.Wall flags decor effect state)) in
    let tm2 := set_hp tm1 (writeArr (hp tm1) idx (ToInt16 (if indestructible then 32767 else hitPoints))) in
    let tm3 := set_durability tm2 (writeArr (durability tm2) idx (ToUint8 (if indestructible then 255 else hitPoints))) in
    if negb (prevBase =? BaseType.Wall) then markDirty tm3 idx else tm3.

(** [damageWallTile(x, y, amount) -> destroyed]. *)
Definition damageWallTile (tm : TileMap) (x y : Z) (amount : Z) : bool * TileMap :=
  if negb (inBounds tm x y) then (false, tm)
  else
    let idx := index tm x y in
    let base := decodeBase (readArr (mask tm) idx) in
    if negb (base =? BaseType.Wall) then (false, tm)
    else if 200 <=? readArr (durability tm) idx then (false, tm)
    else
      let tm1 := set_hp tm (writeArr (hp tm) idx
                   (ToInt16 (Z.max (-32768) (Z.min 32767 (readArr (hp tm) idx - amount))))) in
      if readArr (hp tm1) idx <=? 0 then
        let tm2 := setTile tm1 x y BaseType.Floor in
        let tm3 := set_hp tm2 (writeArr (hp tm2) idx (ToInt16 0)) in
        let tm4 := set_durability tm3 (writeArr (durability tm3) idx (ToUint8 0)) in
        (true, markDirty tm4 idx)
      else (false, tm1).

Definition isWalkable (tm : TileMap) (x y : Z) : bool :=
  if negb (inBounds tm x y) then false
  else
    let flags := decodeFlags (readArr (mask tm) (index tm x y)) in
    negb (Z.land flags FlagBits.Walkable =? 0).

Definition isBlocked (tm : TileMap) (x y : Z) : bool :=
  if negb (inBounds tm x y) then true
  else
    let flags := decodeFlags (readArr (mask tm) (index tm x y)) in
    negb (Z.land flags FlagBits.Blocked =? 0).

Definition setDecorOverlay (tm : TileMap) (x y : Z) (decor : Z) : TileMap :=
  if negb (inBounds tm x y) then tm
  else
    let idx := index tm x y in
    let m := readArr (mask tm) idx in
    set_mask tm (writeArr (mask tm) idx
      (encode (decodeBase m) (decodeFlags m) decor (decodeEffect m) (decodeState m))).

(** The class invariant established by the constructor: every array has one
    slot per tile. *)
Definition tm_wf (tm : TileMap) : Prop :=
  0 <= width tm /\ 0 <= height tm /\
  length (mask tm) = Z.to_nat (width tm * height tm) /\
  length (hp tm) = Z.to_nat (width tm * height tm) /\
  length (durability tm) = Z.to_nat (width tm * height tm).

(** ** Counted loops *)

(** [for (i = lo; i < hi; i++) s = body(i, s)]. *)
Fixpoint iterRange {St : Type} (n : nat) (i : Z) (body : Z -> St -> St) (s : St) : St :=
  match n with
  | O => s
  | S n' => iterRange n' (i + 1) body (body i s)
  end.

Definition forZ {St : Type} (lo hi : Z) (body : Z -> St -> St) (s : St) : St :=
  iterRange (Z.to_nat (hi - lo)) lo body s.

(** The same loop around a body that may not complete. *)
Fixpoint iterRangeOpt {St : Type} (n : nat) (i : Z) (body : Z -> St -> option St) (s : St)
    : option St :=
  match n with
  | O => Some s
  | S n' =>
    match body i s with
    | None => None
    | Some s' => iterRangeOpt n' (i + 1) body s'
    end
  end.

Definition forZOpt {St : Type} (lo hi : Z) (body : Z -> St -> option St) (s : St) : option St :=
  iterRangeOpt (Z.to_nat (hi - lo)) lo body s.

(** ** Numbers used as continuous quantities *)

Definition Qltb (a b : Q) : bool := negb (Qle_bool b a).
Definition Math_max (a b : Q) : Q := if Qle_bool a b then b else a.
Definition Math_min (a b : Q) : Q := if Qle_bool a b then a else b.
(** [Math.floor] and [Math.round] (round half up) on exact rationals. *)
Definition Math_floor (a : Q) : Z := Qfloor a.
Definition Math_round (a : Q) : Z := Qfloor (a + (1 # 2))%Q.

(** ** entities/components *)

(** A reference to an [Entity] object. *)
Definition loc := nat.

Record TransformComponent := mkTransform {
  t_x : Q; t_y : Q; t_width : Q; t_height : Q;
  t_vx : Q; t_vy : Q; t_speed : Q;
  t_directionX : Q; t_directionY : Q
}.

Definition newTransform (x y w h : Q) : TransformComponent :=
  mkTransform x y w h 0 0 0 1 0.

Record HealthComponent := mkHealth {
  h_max : Q;
  h_current : Q;
  h_invulnTimer : Q
}.

Definition newHealth (max invulnFrames : Q) : HealthComponent :=
  let m := Math_max 1 (inject_Z (Math_round max)) in
  mkHealth m m (Math_max 0 invulnFrames).


Definition takeDamage (h : HealthComponent) (amount : Q) : HealthComponent :=
  let dmg := Math_max 0 amount in
  if Qle_bool dmg 0 then h
  else mkHealth (h_max h) (Math_max 0 (h_current h - dmg)%Q) (Math_max 0 (h_invulnTimer h)).

Definition isDead (h : HealthComponent) : bool := Qle_bool (h_current h) 0.

Record CollisionComponent := mkCollision { c_radius : Q }.

Definition newCollision (radius : Q) : CollisionComponent :=
  mkCollision (Math_max 0 radius).

Record AttackComponent := mkAttack {
  a_damage : Q; a_cooldown : Q; a_range : Q; a_timer : Q; a_lockTimer : Q
}.

Definition newAttack (damage cooldownFrames range : Q) : AttackComponent :=
  mkAttack (Math_max 0 damage) (Math_max 0 cooldownFrames) (Math_max 0 range) 0 0.

(** The behaviour configuration of an enemy; an absent optional field is [None].
    The two closures of the source ([targetResolver], [attackHandler]) belong
    to the orchestrating layer and are not part of the record. *)
Record AIBehaviorConfig := mkAIConfig {
  cfg_behavior : string;
  cfg_aggressionRadius : option Q;
  cfg_attackRange : option Q;
  cfg_idealRangeMin : option Q;
  cfg_idealRangeMax : option Q;
  cfg_retreatRange : option Q;
  cfg_attackCooldown : option Q;
  cfg_attackLockDuration : option Q;
  cfg_attackWindup : option Q;
  cfg_recoveryDuration : option Q;
  cfg_moveSpeed : option Q
}.

Record AIComponent := mkAI {
  ai_behavior : string;
  ai_aggressionRadius : Q;
  ai_attackRange : Q;
  ai_idealRangeMin : Q;
  ai_idealRangeMax : Q;
  ai_retreatRange : Q;
  ai_attackCooldown : Q;
  ai_attackLockDuration : Q;
  ai_attackWindup : Q;
  ai_recoveryDuration : Q;
  ai_moveSpeed : Q;
  ai_cooldownTimer : Q;
  ai_lockedTimer : Q
}.

Definition newAI (c : AIBehaviorConfig) : AIComponent :=
  let attackRange := default 12%Q (cfg_attackRange c) in
  mkAI (cfg_behavior c)
    (default 200%Q (cfg_aggressionRadius c))
    attackRange
    (default attackRange (cfg_idealRangeMin c))
    (default (attackRange * 2)%Q (cfg_idealRangeMax c))
    (default attackRange (cfg_retreatRange c))
    (default 45%Q (cfg_attackCooldown c))
    (default 0%Q (cfg_attackLockDuration c))
    (default 0%Q (cfg_attackWindup c))
    (default 0%Q (cfg_recoveryDuration c))
    (default 1%Q (cfg_moveSpeed c))
    0 0.

Record EnemyInfoComponent := mkEnemyInfo { ei_enemyType : string; ei_xpReward : Q }.

Record PickupComponent := mkPickup { pk_kind : string; pk_value : Q }.

Inductive Component :=
| CTransform (c : TransformComponent)
| CHealth (c : HealthComponent)
| CCollision (c : CollisionComponent)
| CAttack (c : AttackComponent)
| CAI (c : AIComponent)
| CEnemyInfo (c : EnemyInfoComponent)
| CPickup (c : PickupComponent).

(** The [name] field every component class fixes. *)
Definition component_name (c : Component) : string :=
  match c with
  | CTransform _ => "Transform"
  | CHealth _ => "Health"
  | CCollision _ => "Collision"
  | CAttack _ => "Attack"
  | CAI _ => "AI"
  | CEnemyInfo _ => "EnemyInfo"
  | CPickup _ => "Pickup"
  end.

(** ** entities/Entity.ts *)

Record EntityFlags := mkFlags {
  collidable : bool; movable : bool; damageable : bool; hostile : bool
}.

Record Entity := mkEntity {
  e_id : Z;
  e_type : string;
  e_active : bool;
  e_flags : EntityFlags;
  e_components : gmap string Component
}.

Definition newEntity (id : Z) (type : string) : Entity :=
  mkEntity id type true (mkFlags true true true false) ∅.

Definition addComponent (e : Entity) (c : Component) : Entity :=
  mkEntity (e_id e) (e_type e) (e_active e) (e_flags e)
    (<[component_name c := c]> (e_components e)).

Definition getComponent (e : Entity) (name : string) : option Component :=
  e_components e !! name.

Definition set_active (e : Entity) (b : bool) : Entity :=
  mkEntity (e_id e) (e_type e) b (e_flags e) (e_components e).

Definition set_hostile (e : Entity) (b : bool) : Entity :=
  mkEntity (e_id e) (e_type e) (e_active e)
    (mkFlags (collidable (e_flags e)) (movable (e_flags e)) (damageable (e_flags e)) b)
    (e_components e).

(** [getComponent<T>(name)] at each component class. *)
Definition getTransform (e : Entity) : option TransformComponent :=
  match getComponent e "Transform" with Some (CTransform c) => Some c | _ => None end.
Definition getHealth (e : Entity) : option HealthComponent :=
  match getComponent e "Health" with Some (CHealth c) => Some c | _ => None end.
Definition getCollision (e : Entity) : option CollisionComponent :=
  match getComponent e "Collision" with Some (CCollision c) => Some c | _ => None end.

(** ** entities/EntityManager.ts *)

Record EntityManager := mkEM {
  entities : list loc;
  enemies : list loc;
  pickups : list loc;
  player : option loc;
  nextId : Z
}.

(** The state shared by the subsystems: the [Entity] objects by reference
    (with the next free reference) and the one [EntityManager]. *)
Record Store := mkStore {
  objs : gmap loc Entity;
  nextLoc : loc;
  em : EntityManager
}.

Definition emptyStore : Store := mkStore ∅ 0%nat (mkEM [] [] [] None 1).

Definition createEntity (s : Store) (type : string) : loc * Store :=
  let m := em s in
  let r := nextLoc s in
  let entity := newEntity (nextId m) type in
  (r, mkStore (<[r := entity]> (objs s)) (S r)
        (mkEM (entities m ++ [r])
              (if String.eqb type "enemy" then enemies m ++ [r] else enemies m)
              (if String.eqb type "pickup" then pickups m ++ [r] else pickups m)
              (if String.eqb type "player" then Some r else player m)
              (nextId m + 1))).

Definition isNot (entity : loc) (e : loc) : bool := negb (Nat.eqb e entity).

Definition removeEntity (s : Store) (entity : loc) : Store :=
  let m := em s in
  mkStore (alter (fun e => set_active e false) entity (objs s)) (nextLoc s)
    (mkEM (List.filter (isNot entity) (entities m))
          (List.filter (isNot entity) (enemies m))
          (List.filter (isNot entity) (pickups m))
          (if decide (player m = Some entity) then None else player m)
          (nextId m)).

(** Mutating one entity object in place. *)
Definition updateEntity (s : Store) (r : loc) (f : Entity -> Entity) : Store :=
  mkStore (alter f r (objs s)) (nextLoc s) (em s).

(** ** entities/CombatSystem.ts *)

Record CombatFlags := mkCombatFlags {
  infinitePlayerHealth : bool;
  oneHitKillEnemies : bool;
  logDamage : bool
}.

Record StatusEffectInstance := mkEffect {
  eff_type : string;
  eff_remaining : Q;
  eff_params : gmap string Q;
  eff_source : option loc
}.

Record StatusState := mkStatusState {
  baseMoveSpeed : option Q;
  st_effects : list StatusEffectInstance
}.

(** One line of the damage log: target type and id, amount, attacker. *)
Record DamageLogEntry := mkLogEntry {
  log_targetType : string; log_targetId : Z; log_dmg : Q;
  log_attacker : option (string * Z)
}.

(** The notification hooks ([onEntityKilled], [onDamageApplied]) are owned by
    the presentation layer and leave the combat state alone; the damage
    modifier is a function of the target, the amount and the source. *)
Record CombatSystem := mkCombat {
  cs_flags : CombatFlags;
  damageLog : list DamageLogEntry;
  maxLogs : nat;
  killCount : Z;
  damageModifier : option (Entity -> Q -> option loc -> Q);
  statuses : gmap Z StatusState
}.

Definition newCombatSystem : CombatSystem :=
  mkCombat (mkCombatFlags false false false) [] 8 0 None ∅.

Definition pushLog (c : CombatSystem) (entry : DamageLogEntry) : CombatSystem :=
  let l := damageLog c ++ [entry] in
  mkCombat (cs_flags c)
    (if (maxLogs c <? length l)%nat then tail l else l)
    (maxLogs c) (killCount c) (damageModifier c) (statuses c).

Definition handleDeath (c : CombatSystem) (s : Store) (target : loc) (ent : Entity)
    : CombatSystem * Store :=
  let kc := if String.eqb (e_type ent) "enemy" then killCount c + 1 else killCount c in
  (mkCombat (cs_flags c) (damageLog c) (maxLogs c) kc (damageModifier c)
     (delete (e_id ent) (statuses c)),
   removeEntity s target).

Definition setHealth (e : Entity) (h : HealthComponent) : Entity :=
  mkEntity (e_id e) (e_type e) (e_active e) (e_flags e)
    (<["Health" := CHealth h]> (e_components e)).

(** [applyDamage(target, amount, source) -> applied]. *)
Definition applyDamage (c : CombatSystem) (s : Store) (target : loc) (amount : Q)
    (source : option loc) : bool * (CombatSystem * Store) :=
  match objs s !! target with
  | None => (false, (c, s))
  | Some ent =>
    match getHealth ent with
    | None => (false, (c, s))
    | Some health =>
      if String.eqb (e_type ent) "player" && infinitePlayerHealth (cs_flags c) then (false, (c, s))
      else if Qltb 0 (h_invulnTimer health) then (false, (c, s))
      else
        let dmg0 := Math_max 0 amount in
        let dmg1 := match damageModifier c with
                    | Some f => Math_max 0 (f ent dmg0 source)
                    | None => dmg0
                    end in
        let dmg := if oneHitKillEnemies (cs_flags c) && String.eqb (e_type ent) "enemy"
                   then h_current health else dmg1 in
        if Qle_bool dmg 0 then (false, (c, s))
        else
          let health' := takeDamage health dmg in
          let s1 := updateEntity s target (fun e => setHealth e health') in
          let c1 := if logDamage (cs_flags c)
                    then pushLog c (mkLogEntry (e_type ent) (e_id ent) dmg
                           (match source with
                            | Some src => (fun se => (e_type se, e_id se)) <$> (objs s !! src)
                            | None => None
                            end))
                    else c in
          if isDead health' then (true, handleDeath c1 s1 target ent)
          else (true, (c1, s1))
    end
  end.

Definition applyStatusEffects (c : CombatSystem) (s : Store) (target : loc)
    (effects : list StatusEffectInstance) : CombatSystem :=
  match objs s !! target with
  | None => c
  | Some ent =>
    if negb (e_active ent) || (length effects =? 0)%nat then c
    else
      let key := e_id ent in
      let state := default (mkStatusState None []) (statuses c !! key) in
      mkCombat (cs_flags c) (damageLog c) (maxLogs c) (killCount c) (damageModifier c)
        (<[key := mkStatusState (baseMoveSpeed state) (st_effects state ++ effects)]> (statuses c))
  end.

(** ** Ambient sources: [Math.random] and the floating point library *)

(** [Math.random()] returns the draw under the cursor and advances it. *)
Record Rand := mkRand { draws : nat -> Q; cursor : nat }.

Definition Math_random (r : Rand) : Q * Rand :=
  (draws r (cursor r), mkRand (draws r) (S (cursor r))).

(** Every draw lies in [0, 1), as [Math.random] promises. *)
Definition rand_ok (r : Rand) : Prop :=
  forall n, (0 <= draws r n)%Q /\ (draws r n < 1)%Q.

(** The transcendental functions of the floating point library, which have
    no exact rational counterpart, are taken as given. *)
Class MathLib := {
  Math_cos : Q -> Q;
  Math_sin : Q -> Q;
  Math_sqrt : Q -> Q;
  Math_PI : Q
}.

(** ** world/ProceduralMapGenerator.ts *)

Record MapGenerationConfig := mkGenConfig {
  seed : option Z;
  obstacleDensity : Q;
  blobCountMin : Z;
  blobCountMax : Z;
  blobRadiusMin : Z;
  blobRadiusMax : Z;
  blobEdgeJitter : Q;
  safeZoneRadius : Z;
  carveLoopCount : Z;
  carveLoopRadius : Q;
  carveThickness : Z;
  requiredConnectedRatio : Q;
  maxAttempts : Z;
  gc_spawn : Z * Z;
  edgeJaggedThicknessMin : Z;
  edgeJaggedThicknessMax : Z;
  edgeJaggedStep : Z
}.

(** [Partial<MapGenerationConfig>]. *)
Record PartialConfig := mkPartial {
  o_seed : option Z;
  o_obstacleDensity : option Q;
  o_blobCountMin : option Z;
  o_blobCountMax : option Z;
  o_blobRadiusMin : option Z;
  o_blobRadiusMax : option Z;
  o_blobEdgeJitter : option Q;
  o_safeZoneRadius : option Z;
  o_carveLoopCount : option Z;
  o_carveLoopRadius : option Q;
  o_carveThickness : option Z;
  o_requiredConnectedRatio : option Q;
  o_maxAttempts : option Z;
  o_spawn : option (Z * Z);
  o_edgeJaggedThicknessMin : option Z;
  o_edgeJaggedThicknessMax : option Z;
  o_edgeJaggedStep : option Z
}.

Definition noOverrides : PartialConfig :=
  mkPartial None None None None None None None None None None None None None None None None None.

Record MapObstacleBounds := mkBounds { b_x : Z; b_y : Z; b_w : Z; b_h : Z }.

Record MapGenerationResult := mkResult {
  r_seed : Z;
  r_safeZoneRadius : Z;
  r_spawn : Z * Z;
  obstacleBounds : list MapObstacleBounds;
  walkableTiles : list (Z * Z);
  obstacleTiles : list (Z * Z);
  spawnableTiles : list (Z * Z);
  collisionGrid : list Z;
  reachableRatio : Q;
  walkableRatio : Q
}.

Definition DEFAULT_GEN_CONFIG : MapGenerationConfig :=
  mkGenConfig None (18 # 100) 5 11 10 32 (32 # 100) 14 2 26 2 (55 # 100) 8 (0, 0) 2 6 1.

(** [{...DEFAULT_CONFIG, ...baseConfig, ...overrides, spawn}]. *)
Definition pick {A : Type} (over base : option A) (dflt : A) : A :=
  default (default dflt base) over.

Definition buildConfig (tileMap : TileMap) (base overrides : PartialConfig) : MapGenerationConfig :=
  let d := DEFAULT_GEN_CONFIG in
  mkGenConfig
    (match o_seed overrides with Some v => Some v | None => o_seed base end)
    (pick (o_obstacleDensity overrides) (o_obstacleDensity base) (obstacleDensity d))
    (pick (o_blobCountMin overrides) (o_blobCountMin base) (blobCountMin d))
    (pick (o_blobCountMax overrides) (o_blobCountMax base) (blobCountMax d))
    (pick (o_blobRadiusMin overrides) (o_blobRadiusMin base) (blobRadiusMin d))
    (pick (o_blobRadiusMax overrides) (o_blobRadiusMax base) (blobRadiusMax d))
    (pick (o_blobEdgeJitter overrides) (o_blobEdgeJitter base) (blobEdgeJitter d))
    (pick (o_safeZoneRadius overrides) (o_safeZoneRadius base) (safeZoneRadius d))
    (pick (o_carveLoopCount overrides) (o_carveLoopCount base) (carveLoopCount d))
    (pick (o_carveLoopRadius overrides) (o_carveLoopRadius base) (carveLoopRadius d))
    (pick (o_carveThickness overrides) (o_carveThickness base) (carveThickness d))
    (pick (o_requiredConnectedRatio overrides) (o_requiredConnectedRatio base)
       (requiredConnectedRatio d))
    (pick (o_maxAttempts overrides) (o_maxAttempts base) (maxAttempts d))
    (pick (o_spawn overrides) (o_spawn base)
       (Math_floor (inject_Z (width tileMap) / 2), Math_floor (inject_Z (height tileMap) / 2)))
    (pick (o_edgeJaggedThicknessMin overrides) (o_edgeJaggedThicknessMin base)
       (edgeJaggedThicknessMin d))
    (pick (o_edgeJaggedThicknessMax overrides) (o_edgeJaggedThicknessMax base)
       (edgeJaggedThicknessMax d))
    (pick (o_edgeJaggedStep overrides) (o_edgeJaggedStep base) (edgeJaggedStep d)).

(** [SeededRng]: the state is the 32-bit word of Xorshift32. *)
Module SeededRng.

Definition create (seed : Z) : Z :=
  if ToUint32 seed =? 0 then 1 else ToUint32 seed.

Definition next (state : Z) : Q * Z :=
  let x := state in
  let x := Z.lxor x (ToUint32 (Z.shiftl x 13)) in
  let x := Z.lxor x (Z.shiftr x 17) in
  let x := Z.lxor x (ToUint32 (Z.shiftl x 5)) in
  let st := ToUint32 x in
  ((inject_Z st / 4294967295)%Q, st).

Definition int (state : Z) (min max : Z) : Z * Z :=
  let '(u, st) := next state in
  (Math_floor (u * inject_Z (max - min + 1)) + min, st).

Definition float (state : Z) (min max : Q) : Q * Z :=
  let '(u, st) := next state in
  ((min + (max - min) * u)%Q, st).

End SeededRng.

Definition clampInt (value min max : Z) : Z := Z.min max (Z.max min value).

Definition paintBase (tileMap : TileMap) : TileMap :=
  forZ 0 (height tileMap) (fun y tm =>
    forZ 0 (width tileMap) (fun x tm => setTile tm x y BaseType.Floor) tm) tileMap.

(** The state of one side-pair walk of [applyJaggedBorders]: the grid, the
    generator, and the two running thicknesses. *)
Definition applyJaggedBorders (tileMap : TileMap) (rng : Z) (config : MapGenerationConfig)
    : TileMap * Z :=
  let minT := Z.max 1 (edgeJaggedThicknessMin config) in
  let maxT := Z.max minT (edgeJaggedThicknessMax config) in
  let step := Z.max 1 (edgeJaggedStep config) in
  let '(topT, rng) := SeededRng.int rng minT maxT in
  let '(bottomT, rng) := SeededRng.int rng minT maxT in
  let '(tm1, rng1, _, _) :=
    forZ 0 (width tileMap) (fun x '(tm, rng, topT, bottomT) =>
      let '(d1, rng) := SeededRng.int rng (- step) step in
      let topT := clampInt (topT + d1) minT maxT in
      let '(d2, rng) := SeededRng.int rng (- step) step in
      let bottomT := clampInt (bottomT + d2) minT maxT in
      let tm := forZ 0 topT (fun y tm => setWallTile tm x y 999 true) tm in
      let tm := forZ (height tileMap - bottomT) (height tileMap)
                  (fun y tm => setWallTile tm x y 999 true) tm in
      (tm, rng, topT, bottomT)) (tileMap, rng, topT, bottomT) in
  let '(leftT, rng2) := SeededRng.int rng1 minT maxT in
  let '(rightT, rng3) := SeededRng.int rng2 minT maxT in
  let '(tm2, rng4, _, _) :=
    forZ 0 (height tileMap) (fun y '(tm, rng, leftT, rightT) =>
      let '(d1, rng) := SeededRng.int rng (- step) step in
      let leftT := clampInt (leftT + d1) minT maxT in
      let '(d2, rng) := SeededRng.int rng (- step) step in
      let rightT := clampInt (rightT + d2) minT maxT in
      let tm := forZ 0 leftT (fun x tm => setWallTile tm x y 999 true) tm in
      let tm := forZ (width tileMap - rightT) (width tileMap)
                  (fun x tm => setWallTile tm x y 999 true) tm in
      (tm, rng, leftT, rightT)) (tm1, rng3, leftT, rightT) in
  (tm2, rng4).

Definition clearSafeZone (tileMap : TileMap) (config : MapGenerationConfig) : TileMap :=
  let '(sx, sy) := gc_spawn config in
  let r := safeZoneRadius config in
  let r2 := r * r in
  forZ (Z.max 0 (sy - r)) (Z.min (height tileMap - 1) (sy + r) + 1) (fun y tm =>
    forZ (Z.max 0 (sx - r)) (Z.min (width tileMap - 1) (sx + r) + 1) (fun x tm =>
      let dx := x - sx in
      let dy := y - sy in
      if dx * dx + dy * dy <=? r2 then setTile tm x y BaseType.Floor else tm) tm) tileMap.

Definition reinforceOuterWall (tileMap : TileMap) : TileMap :=
  let w := width tileMap in
  let h := height tileMap in
  let tm1 := forZ 0 w (fun x tm =>
               setWallTile (setWallTile tm x 0 999 true) x (h - 1) 999 true) tileMap in
  forZ 0 h (fun y tm =>
    setWallTile (setWallTile tm 0 y 999 true) (w - 1) y 999 true) tm1.

Definition carveDisk (tileMap : TileMap) (cx cy radius : Z) : TileMap :=
  forZ (cy - radius) (cy + radius + 1) (fun y tm =>
    forZ (cx - radius) (cx + radius + 1) (fun x tm =>
      let dx := x - cx in
      let dy := y - cy in
      if radius * radius <? dx * dx + dy * dy then tm
      else if (x <? 0) || (y <? 0) || (width tm <=? x) || (height tm <=? y) then tm
      else setTile tm x y BaseType.Floor) tm) tileMap.

(** The [while (true)] of [carveLine]; [fuel] bounds its turns. *)
Fixpoint carveLineLoop (fuel : nat) (tileMap : TileMap) (x y x1 y1 dx dy sx sy err thickness : Z)
    : option TileMap :=
  match fuel with
  | O => None
  | S fuel' =>
    let tm := carveDisk tileMap x y thickness in
    if (x =? x1) && (y =? y1) then Some tm
    else
      let e2 := err * 2 in
      let stepX := - dy <? e2 in
      let err1 := if stepX then err - dy else err in
      let x' := if stepX then x + sx else x in
      let stepY := e2 <? dx in
      let err2 := if stepY then err1 + dx else err1 in
      let y' := if stepY then y + sy else y in
      carveLineLoop fuel' tm x' y' x1 y1 dx dy sx sy err2 thickness
  end.

Definition carveLine (fuel : nat) (tileMap : TileMap) (x0 y0 x1 y1 thickness : Z)
    : option TileMap :=
  let dx := Z.abs (x1 - x0) in
  let dy := Z.abs (y1 - y0) in
  let sx := if x0 <? x1 then 1 else -1 in
  let sy := if y0 <? y1 then 1 else -1 in
  carveLineLoop fuel tileMap x0 y0 x1 y1 dx dy sx sy (dx - dy) thickness.

(** The test [countReachable] applies to each neighbour of the tile it took
    off the queue: the queue and the visited marks it leaves. *)
Definition visitNeighbor (tileMap : TileMap) (st : list (Z * Z) * list Z) (n : Z * Z)
    : list (Z * Z) * list Z :=
  let '(q, v) := st in
  if (fst n <? 0) || (snd n <? 0) || (width tileMap <=? fst n) || (height tileMap <=? snd n)
  then (q, v)
  else
    let idx := snd n * width tileMap + fst n in
    if negb (readArr v idx =? 0) then (q, v)
    else if negb (isWalkable tileMap (fst n) (snd n)) then (q, v)
    else (q ++ [n], writeArr v idx (ToUint8 1)).

(** [countReachable]: the breadth-first flood fill; [fuel] bounds the number
    of tiles taken off the queue. *)
Fixpoint floodFill (fuel : nat) (tileMap : TileMap) (queue : list (Z * Z)) (visited : list Z)
    (count : Z) : option Z :=
  match queue with
  | [] => Some count
  | current :: queue' =>
    match fuel with
    | O => None
    | S fuel' =>
      let neighbors := [ (fst current + 1, snd current); (fst current - 1, snd current);
                         (fst current, snd current + 1); (fst current, snd current - 1) ] in
      let '(queue'', visited') :=
        fold_left (visitNeighbor tileMap) neighbors (queue', visited) in
      floodFill fuel' tileMap queue'' visited' (count + 1)
    end
  end.

Definition countReachable (fuel : nat) (tileMap : TileMap) (spawn : Z * Z) : option Z :=
  if negb (isWalkable tileMap (fst spawn) (snd spawn)) then Some 0
  else
    let visited := replicate (Z.to_nat (width tileMap * height tileMap)) 0 in
    floodFill fuel tileMap [spawn]
      (writeArr visited (snd spawn * width tileMap + fst spawn) (ToUint8 1)) 0.

Definition countWalkable (tileMap : TileMap) : Z :=
  forZ 0 (height tileMap) (fun y count =>
    forZ 0 (width tileMap) (fun x count =>
      if isWalkable tileMap x y then count + 1 else count) count) 0.

Definition hasClearNeighbors (tileMap : TileMap) (x y : Z) : bool :=
  forallb (fun n =>
    (0 <=? fst n) && (0 <=? snd n) && (fst n <? width tileMap) && (snd n <? height tileMap)
    && isWalkable tileMap (fst n) (snd n))
    [ (x + 1, y); (x - 1, y); (x, y + 1); (x, y - 1) ].

(** What [extractMetadata] returns: walkable, obstacle and spawnable tiles
    and the collision grid. *)
Record Metadata := mkMetadata {
  md_walkableTiles : list (Z * Z);
  md_obstacleTiles : list (Z * Z);
  md_spawnableTiles : list (Z * Z);
  md_collisionGrid : list Z
}.

Definition extractMetadata (tileMap : TileMap) (config : MapGenerationConfig) : Metadata :=
  let safeR2 := safeZoneRadius config * safeZoneRadius config in
  let sp := gc_spawn config in
  forZ 0 (height tileMap) (fun y md =>
    forZ 0 (width tileMap) (fun x md =>
      let idx := y * width tileMap + x in
      let walkable := isWalkable tileMap x y in
      let grid := writeArr (md_collisionGrid md) idx (ToUint8 (if walkable then 0 else 1)) in
      if walkable then
        let dx := x - fst sp in
        let dy := y - snd sp in
        mkMetadata (md_walkableTiles md ++ [(x, y)]) (md_obstacleTiles md)
          (if (safeR2 + 9 <? dx * dx + dy * dy) && hasClearNeighbors tileMap x y
           then md_spawnableTiles md ++ [(x, y)] else md_spawnableTiles md)
          grid
      else
        mkMetadata (md_walkableTiles md) (md_obstacleTiles md ++ [(x, y)])
          (md_spawnableTiles md) grid) md)
    (mkMetadata [] [] [] (replicate (Z.to_nat (width tileMap * height tileMap)) 0)).

Section Generator.
Context `{MathLib}.

(** [paintBlob]: the grid, the generator and the number of tiles painted. *)
Definition paintBlob (tileMap : TileMap) (cx cy radius : Z) (jitter : Q) (rng : Z)
    : TileMap * Z * Z :=
  let r2 := radius * radius in
  let minX := Z.max 0 (cx - radius - 1) in
  let maxX := Z.min (width tileMap - 1) (cx + radius + 1) in
  let minY := Z.max 0 (cy - radius - 1) in
  let maxY := Z.min (height tileMap - 1) (cy + radius + 1) in
  forZ minY (maxY + 1) (fun y st =>
    forZ minX (maxX + 1) (fun x '(tm, rng, painted) =>
      let dx := x - cx in
      let dy := y - cy in
      let dist2 := dx * dx + dy * dy in
      if r2 <? dist2 then (tm, rng, painted)
      else
        let dist := Math_sqrt (inject_Z dist2) in
        let '(u, rng') := SeededRng.next rng in
        let threshold := (1 + (u - (1 # 2)) * jitter)%Q in
        (* [dist / radius] is NaN for a zero radius, and NaN compares false *)
        let within := if radius =? 0 then false
                      else Qle_bool (dist / inject_Z radius) threshold in
        if within then
          let notWall := match getTile tm x y with
                         | Some before => negb (ts_base before =? BaseType.Wall)
                         | None => true
                         end in
          if notWall then (setWallTile tm x y 3 false, rng', painted + 1)
          else (tm, rng', painted)
        else (tm, rng', painted)) st) (tileMap, rng, 0).

(** The loop of [scatterBlobs]; [fuel] bounds the number of blobs tried. *)
Fixpoint scatterLoop (fuel : nat) (i : Z) (blobTargetCount targetObstacleTiles : Z)
    (tileMap : TileMap) (rng : Z) (config : MapGenerationConfig) (painted : Z)
    (bounds : list MapObstacleBounds) : option (TileMap * Z * list MapObstacleBounds) :=
  if negb ((i <? blobTargetCount) ||
           Qltb (inject_Z painted) (inject_Z targetObstacleTiles * (85 # 100)))
  then Some (tileMap, rng, bounds)
  else
    match fuel with
    | O => None
    | S fuel' =>
      let '(radius, rng) := SeededRng.int rng (blobRadiusMin config) (blobRadiusMax config) in
      let '(cx, rng) := SeededRng.int rng (radius + 2)
                          (Z.max (radius + 2) (width tileMap - radius - 2)) in
      let '(cy, rng) := SeededRng.int rng (radius + 2)
                          (Z.max (radius + 2) (height tileMap - radius - 2)) in
      let '(tm, rng, blobPainted) :=
        paintBlob tileMap cx cy radius (blobEdgeJitter config) rng in
      if 0 <? blobPainted then
        scatterLoop fuel' (i + 1) blobTargetCount targetObstacleTiles tm rng config
          (painted + blobPainted)
          (bounds ++ [mkBounds (Z.max 0 (cx - radius)) (Z.max 0 (cy - radius))
                        (Z.min (width tileMap - 1) (cx + radius) - Z.max 0 (cx - radius) + 1)
                        (Z.min (height tileMap - 1) (cy + radius) - Z.max 0 (cy - radius) + 1)])
      else
        scatterLoop fuel' (i + 1) blobTargetCount targetObstacleTiles tm rng config
          painted bounds
    end.

Definition scatterBlobs (fuel : nat) (tileMap : TileMap) (rng : Z) (config : MapGenerationConfig)
    (bounds : list MapObstacleBounds) : option (TileMap * Z * list MapObstacleBounds) :=
  let totalTiles := width tileMap * height tileMap in
  let targetObstacleTiles := Math_floor (inject_Z totalTiles * obstacleDensity config) in
  let '(blobTargetCount, rng) :=
    SeededRng.int rng (blobCountMin config) (blobCountMax config) in
  scatterLoop fuel 0 blobTargetCount targetObstacleTiles tileMap rng config 0 bounds.

(** One segment of the ring of [carveLoop]: the grid, the generator and the
    end of the previous segment. *)
Definition carveSegment (fuel : nat) (center : Z * Z) (radius : Q) (thickness steps : Z)
    (i : Z) (st : TileMap * Z * Z * Z) : option (TileMap * Z * Z * Z) :=
  let '(tm, rng, prevX, prevY) := st in
  let t := (inject_Z i / inject_Z steps * Math_PI * 2)%Q in
  let '(jitter, rng) := SeededRng.float rng (- radius * (8 # 100)) (radius * (8 # 100)) in
  let r := (radius + jitter)%Q in
  let x := Math_floor (inject_Z (fst center) + Math_cos t * r) in
  let y := Math_floor (inject_Z (snd center) + Math_sin t * r) in
  match carveLine fuel tm prevX prevY x y thickness with
  | None => None
  | Some tm' => Some (tm', rng, x, y)
  end.

Definition carveLoop (fuel : nat) (tileMap : TileMap) (center : Z * Z) (radius : Q)
    (thickness : Z) (rng : Z) : option (TileMap * Z) :=
  let steps := Z.max 24 (Math_floor (radius * (75 # 100))) in
  let prevX := Math_floor (inject_Z (fst center) + Math_cos 0 * radius) in
  let prevY := Math_floor (inject_Z (snd center) + Math_sin 0 * radius) in
  match forZOpt 1 (steps + 1) (carveSegment fuel center radius thickness steps)
          (tileMap, rng, prevX, prevY) with
  | None => None
  | Some (tm, rng, _, _) => Some (tm, rng)
  end.

Definition carveLoops (fuel : nat) (tileMap : TileMap) (rng : Z) (config : MapGenerationConfig)
    : option (TileMap * Z) :=
  forZOpt 0 (carveLoopCount config) (fun i '(tm, rng) =>
    let '(jitter, rng) := SeededRng.float rng (- carveLoopRadius config * (15 # 100))
                            (carveLoopRadius config * (15 # 100)) in
    let radius := Math_max 4 (carveLoopRadius config + jitter + inject_Z i * 2) in
    carveLoop fuel tm (gc_spawn config) radius (carveThickness config) rng) (tileMap, rng).

(** One turn of the attempt loop of [generate]: the six passes on the seed
    of the attempt, then the measures. *)
Record Attempt := mkAttempt {
  at_seed : Z;
  at_tileMap : TileMap;
  at_bounds : list MapObstacleBounds;
  at_reachableRatio : Q;
  at_walkableRatio : Q
}.

Definition runAttempt (fuel : nat) (tileMap : TileMap) (config : MapGenerationConfig)
    (attemptSeed attempt : Z) : option Attempt :=
  let seed := ToUint32 (attemptSeed + attempt * 1013904223) in
  let rng := SeededRng.create (if seed =? 0 then 1 else seed) in
  let tm := paintBase tileMap in
  let '(tm, rng) := applyJaggedBorders tm rng config in
  match scatterBlobs fuel tm rng config [] with
  | None => None
  | Some (tm, rng, bounds) =>
    let tm := clearSafeZone tm config in
    match carveLoops fuel tm rng config with
    | None => None
    | Some (tm, rng) =>
      let tm := reinforceOuterWall tm in
      match countReachable fuel tm (gc_spawn config) with
      | None => None
      | Some reachable =>
        let walkableCount := countWalkable tm in
        let totalTiles := width tm * height tm in
        let reachableRatio := if 0 <? totalTiles
                              then (inject_Z reachable / inject_Z totalTiles)%Q else 0%Q in
        let walkableRatio := if 0 <? totalTiles
                             then (inject_Z walkableCount / inject_Z totalTiles)%Q else 0%Q in
        Some (mkAttempt seed tm bounds reachableRatio walkableRatio)
      end
    end
  end.

Definition resultOf (seed : Z) (config : MapGenerationConfig)
    (bounds : list MapObstacleBounds) (reachable walkable : Q) (md : Metadata)
    : MapGenerationResult :=
  mkResult seed (safeZoneRadius config) (gc_spawn config) bounds
    (md_walkableTiles md) (md_obstacleTiles md) (md_spawnableTiles md) (md_collisionGrid md)
    reachable walkable.

(** The attempt loop: the first accepted attempt, or the grid the last
    attempt left when none is accepted. *)
Fixpoint attemptLoop (n : nat) (attempt : Z) (fuel : nat) (tileMap : TileMap)
    (config : MapGenerationConfig) (attemptSeed : Z)
    : option (option MapGenerationResult * TileMap) :=
  match n with
  | O => Some (None, tileMap)
  | S n' =>
    match runAttempt fuel tileMap config attemptSeed attempt with
    | None => None
    | Some a =>
      if Qle_bool (requiredConnectedRatio config) (at_reachableRatio a) then
        Some (Some (resultOf (at_seed a) config (at_bounds a) (at_reachableRatio a)
                      (at_walkableRatio a) (extractMetadata (at_tileMap a) config)),
              at_tileMap a)
      else attemptLoop n' (attempt + 1) fuel (at_tileMap a) config attemptSeed
    end
  end.

(** The fallback of [generate], run when every attempt was rejected. *)
Definition fallbackPass (fuel : nat) (tileMap : TileMap) (config : MapGenerationConfig)
    (attemptSeed : Z) : option (MapGenerationResult * TileMap) :=
  let seed := ToUint32 attemptSeed in
  let rng := SeededRng.create (if seed =? 0 then 1 else seed) in
  let tm := paintBase tileMap in
  match scatterBlobs fuel tm rng config [] with
  | None => None
  | Some (tm, rng, bounds) =>
    let tm := clearSafeZone tm config in
    match carveLoops fuel tm rng config with
    | None => None
    | Some (tm, rng) =>
      let md := extractMetadata tm config in
      match countReachable fuel tm (gc_spawn config) with
      | None => None
      | Some reachable =>
        Some (resultOf seed config bounds
                (inject_Z reachable / inject_Z (width tm * height tm))%Q
                (inject_Z (countWalkable tm) / inject_Z (width tm * height tm))%Q md,
              tm)
      end
    end
  end.

(** [generate(tileMap, overrides)] of a generator built on [baseConfig]:
    the result and the grid as the call leaves it.  [None] is a run that
    does not finish within [fuel]. *)
Definition generate (fuel : nat) (r : Rand) (baseConfig : PartialConfig) (tileMap : TileMap)
    (overrides : PartialConfig) : option (MapGenerationResult * TileMap) :=
  let config := buildConfig tileMap baseConfig overrides in
  let attemptSeed := match seed config with
                     | Some v => v
                     | None => Math_floor (fst (Math_random r) * 2147483647)
                     end in
  match attemptLoop (Z.to_nat (maxAttempts config)) 0 fuel tileMap config attemptSeed with
  | None => None
  | Some (Some result, tm) => Some (result, tm)
  | Some (None, tm) => fallbackPass fuel tm config attemptSeed
  end.

End Generator.

(** ** entities/SpawnController.ts *)

Inductive SpawnMode := ModeWorld | ModeAroundPlayer | ModeTile.

Record EnemyBaseStats := mkStats { bs_health : Q; bs_damage : Q; bs_speed : Q }.

Record EnemyTypeConfig := mkEnemyType {
  et_type : string;
  baseSize : Q;
  sizeVariance : Q;
  spawnWeight : Q;
  baseStats : EnemyBaseStats;
  xpReward : option Q
}.

Record SpawnControllerConfig := mkSpawnConfig {
  initialSpawnCount : Z;
  spawnIntervalMs : Q;
  intervalSpawnCount : Z;
  maxEnemies : Z;
  spawnRadiusMin : Q;
  spawnRadiusMax : Q;
  spawnMode : SpawnMode;
  useWeightedSpawns : bool;
  useTileMapSpawns : bool;
  allowSizeVariance : bool;
  debugLogBatches : bool
}.

Definition DEFAULT_SPAWN_CONFIG : SpawnControllerConfig :=
  mkSpawnConfig 100 0 5 300 96 168 ModeAroundPlayer true false true false.

Definition DEFAULT_REGISTRY : list EnemyTypeConfig :=
  [ mkEnemyType "SmallChaser" 1 (2 # 10) 60 (mkStats 10 5 (15 # 10)) (Some 5%Q);
    mkEnemyType "MediumChaser" (14 # 10) (15 # 100) 25 (mkStats 20 8 (17 # 10)) (Some 9%Q);
    mkEnemyType "RangedShooter" (12 # 10) (15 # 100) 15 (mkStats 22 7 1) (Some 10%Q);
    mkEnemyType "Tank" (22 # 10) (2 # 10) 6 (mkStats 50 12 (5 # 10)) (Some 20%Q) ].

Definition ENEMY_BEHAVIORS (type : string) : option AIBehaviorConfig :=
  if String.eqb type "SmallChaser" then
    Some (mkAIConfig "slime" (Some 220%Q) (Some 10%Q) None None None (Some 35%Q)
            (Some 12%Q) None None (Some (7 # 10)))
  else if String.eqb type "MediumChaser" then
    Some (mkAIConfig "slime" (Some 240%Q) (Some 14%Q) None None None (Some 45%Q)
            (Some 14%Q) None None (Some (65 # 100)))
  else if String.eqb type "Tank" then
    Some (mkAIConfig "brute" (Some 240%Q) (Some 16%Q) None None None (Some 80%Q)
            (Some 16%Q) (Some 18%Q) (Some 14%Q) (Some (3 # 10)))
  else if String.eqb type "RangedShooter" then
    Some (mkAIConfig "spitter" (Some 260%Q) (Some 250%Q) (Some 50%Q) (Some 100%Q)
            (Some 80%Q) (Some 90%Q) (Some 10%Q) None None (Some (5 # 10)))
  else None.

(** The controller.  [getPlayer] is the closure handed in by the game (it
    reads the manager's player slot); [onEnemySpawn] is the modifier hook,
    which may alter the freshly spawned entity. *)
Record SpawnController := mkSpawnController {
  registry : list EnemyTypeConfig;
  config : SpawnControllerConfig;
  worldWidth : Q;
  worldHeight : Q;
  tileSize : Q;
  getPlayer : option (Store -> option loc);
  onEnemySpawn : option (Entity -> EnemyTypeConfig -> Entity);
  spawnTimerMs : Q;
  initialized : bool;
  weightTotal : Q;
  spawnCounts : gmap string Z
}.

Definition set_spawnCounts (sc : SpawnController) (m : gmap string Z) : SpawnController :=
  mkSpawnController (registry sc) (config sc) (worldWidth sc) (worldHeight sc)
    (tileSize sc) (getPlayer sc) (onEnemySpawn sc) (spawnTimerMs sc)
    (initialized sc) (weightTotal sc) m.

Definition rebuildWeights (reg : list EnemyTypeConfig) : Q :=
  fold_left (fun sum entry => (sum + Math_max 0 (spawnWeight entry))%Q) reg 0%Q.

Definition newSpawnController (reg : list EnemyTypeConfig) (cfg : SpawnControllerConfig)
    (ww wh ts : Q) (gp : option (Store -> option loc))
    (hook : option (Entity -> EnemyTypeConfig -> Entity)) : SpawnController :=
  let cfg' := if useTileMapSpawns cfg
              then mkSpawnConfig (initialSpawnCount cfg) (spawnIntervalMs cfg)
                     (intervalSpawnCount cfg) (maxEnemies cfg) (spawnRadiusMin cfg)
                     (spawnRadiusMax cfg) ModeTile (useWeightedSpawns cfg)
                     (useTileMapSpawns cfg) (allowSizeVariance cfg) (debugLogBatches cfg)
              else cfg in
  mkSpawnController reg cfg' ww wh ts gp hook 0 false (rebuildWeights reg) ∅.

Definition clamp (value min max : Q) : Q := Math_min max (Math_max min value).

Definition MAX_SAFE_INTEGER : Z := 2 ^ 53 - 1.

Definition currentEnemies (s : Store) : Z := Z.of_nat (length (enemies (em s))).

Definition getAvailableSlots (sc : SpawnController) (s : Store) : Z :=
  if maxEnemies (config sc) <=? 0 then MAX_SAFE_INTEGER
  else Z.max 0 (maxEnemies (config sc) - currentEnemies s).

(** The weighted roll of [pickEnemyType]: the first entry whose cumulative
    weight reaches the roll. *)
Fixpoint rollRegistry (reg : list EnemyTypeConfig) (roll cumulative : Q) : option EnemyTypeConfig :=
  match reg with
  | [] => None
  | entry :: rest =>
    let cumulative' := (cumulative + Math_max 0 (spawnWeight entry))%Q in
    if Qle_bool roll cumulative' then Some entry else rollRegistry rest roll cumulative'
  end.

Definition pickEnemyType (sc : SpawnController) (r : Rand) : option EnemyTypeConfig * Rand :=
  if (length (registry sc) =? 0)%nat then (None, r)
  else if negb (useWeightedSpawns (config sc)) || Qle_bool (weightTotal sc) 0 then
    let '(u, r1) := Math_random r in
    let idx := Math_floor (u * inject_Z (Z.of_nat (length (registry sc)))) in
    ((if idx <? 0 then None else registry sc !! Z.to_nat idx), r1)
  else
    let '(u, r1) := Math_random r in
    let roll := (u * weightTotal sc)%Q in
    (match rollRegistry (registry sc) roll 0 with
     | Some entry => Some entry
     | None => last (registry sc)
     end, r1).

Definition pickSizeScale (sc : SpawnController) (type : EnemyTypeConfig) (r : Rand) : Q * Rand :=
  if negb (allowSizeVariance (config sc)) then (baseSize type, r)
  else
    let '(u, r1) := Math_random r in
    let variance := ((u * 2 - 1) * sizeVariance type)%Q in
    (Math_max (1 # 10) (baseSize type + variance), r1).

Definition createAIConfig (enemyType : EnemyTypeConfig) (pixelSize : Q) : AIBehaviorConfig :=
  let base := default (mkAIConfig "slime" (Some 200%Q) (Some (Math_max 8 pixelSize)) None None
                         None (Some 45%Q) None None None None)
                      (ENEMY_BEHAVIORS (et_type enemyType)) in
  let moveSpeed := default (bs_speed (baseStats enemyType)) (cfg_moveSpeed base) in
  mkAIConfig (cfg_behavior base) (cfg_aggressionRadius base)
    (Some (default (Math_max 8 pixelSize) (cfg_attackRange base)))
    (Some (default (default (Math_max 8 pixelSize) (cfg_attackRange base)) (cfg_idealRangeMin base)))
    (Some (default (default (Math_max 8 (pixelSize * 2)) (cfg_attackRange base)) (cfg_idealRangeMax base)))
    (cfg_retreatRange base) (cfg_attackCooldown base) (cfg_attackLockDuration base)
    (cfg_attackWindup base) (cfg_recoveryDuration base) (Some moveSpeed).

Definition tileOf (v size : Q) : Z := Math_floor (v / size).

(** The twenty random tile probes of [pickTilePosition]. *)
Fixpoint probeTiles (n : nat) (sc : SpawnController) (tm : TileMap) (r : Rand)
    : option (Q * Q) * Rand :=
  match n with
  | O => (None, r)
  | S n' =>
    let '(u, r1) := Math_random r in
    let tx := Math_floor (u * inject_Z (width tm)) in
    let '(v, r2) := Math_random r1 in
    let ty := Math_floor (v * inject_Z (height tm)) in
    if isWalkable tm tx ty
    then (Some (inject_Z tx * tileSize sc, inject_Z ty * tileSize sc)%Q, r2)
    else probeTiles n' sc tm r2
  end.

(** [pickRandomWorldPosition] and [pickTilePosition] call each other without
    a bound while the grid keeps answering "unwalkable"; [depth] is the
    remaining call depth, and [None] is the exhausted call stack. *)
Fixpoint pickRandomWorldPosition (depth : nat) (sc : SpawnController) (tm : option TileMap)
    (r : Rand) : option ((Q * Q) * Rand) :=
  match depth with
  | O => None
  | S depth' =>
    let '(u, r1) := Math_random r in
    let x := (u * (worldWidth sc - tileSize sc))%Q in
    let '(v, r2) := Math_random r1 in
    let y := (v * (worldHeight sc - tileSize sc))%Q in
    match tm with
    | Some t =>
      if negb (isWalkable t (tileOf x (tileSize sc)) (tileOf y (tileSize sc))) then
        match probeTiles 20 sc t r2 with
        | (Some pos, r3) => Some (pos, r3)
        | (None, r3) => pickRandomWorldPosition depth' sc tm r3
        end
      else Some ((x, y), r2)
    | None => Some ((x, y), r2)
    end
  end.

Definition pickTilePosition (depth : nat) (sc : SpawnController) (tm : option TileMap)
    (r : Rand) : option ((Q * Q) * Rand) :=
  match tm with
  | None => pickRandomWorldPosition depth sc tm r
  | Some t =>
    match probeTiles 20 sc t r with
    | (Some pos, r1) => Some (pos, r1)
    | (None, r1) => pickRandomWorldPosition depth sc tm r1
    end
  end.

Section SpawnPositions.
Context `{MathLib}.

Definition pickAroundPlayerPosition (depth : nat) (sc : SpawnController)
      (tm : option TileMap) (s : Store) (r : Rand) : option ((Q * Q) * Rand) :=
    let playerRef := match getPlayer sc with Some f => f s | None => None end in
    let transform := match playerRef with
                     | Some p => match objs s !! p with
                                 | Some ent => getTransform ent
                                 | None => None
                                 end
                     | None => None
                     end in
    match transform with
    | None => pickRandomWorldPosition depth sc tm r
    | Some t =>
      let '(u, r1) := Math_random r in
      let angle := (u * Math_PI * 2)%Q in
      let rMin := spawnRadiusMin (config sc) in
      let rMax := Math_max rMin (spawnRadiusMax (config sc)) in
      let '(v, r2) := Math_random r1 in
      let radius := (rMin + v * (rMax - rMin))%Q in
      let x := (t_x t + Math_cos angle * radius)%Q in
      let y := (t_y t + Math_sin angle * radius)%Q in
      let redirect := match tm with
                      | Some g => negb (isWalkable g (tileOf x (tileSize sc)) (tileOf y (tileSize sc)))
                      | None => false
                      end in
      if redirect then pickTilePosition depth sc tm r2
      else Some ((clamp x 0 (worldWidth sc - tileSize sc),
                  clamp y 0 (worldHeight sc - tileSize sc)), r2)
    end.

Definition pickSpawnPosition (depth : nat) (sc : SpawnController) (tm : option TileMap)
      (s : Store) (r : Rand) : option ((Q * Q) * Rand) :=
    match spawnMode (config sc) with
    | ModeAroundPlayer => pickAroundPlayerPosition depth sc tm s r
    | ModeTile => pickTilePosition depth sc tm r
    | ModeWorld => pickRandomWorldPosition depth sc tm r
    end.

  (** [spawnOne(forcedType?)]: the type key of the spawned enemy, or [null]
      ([Some None]) when no type can be picked; [None] when the placement
      exhausts the call stack. *)
Definition spawnOne (depth : nat) (sc : SpawnController) (tm : option TileMap)
      (s : Store) (r : Rand) (forcedType : option EnemyTypeConfig)
      : option (option string * (Store * Rand)) :=
    let '(picked, r0) := match forcedType with
                         | Some t => (Some t, r)
                         | None => pickEnemyType sc r
                         end in
    match picked with
    | None => Some (None, (s, r0))
    | Some enemyType =>
      let '(sizeScale, r1) := pickSizeScale sc enemyType r0 in
      let pixelSize := Math_max 1 (inject_Z (Math_round (sizeScale * tileSize sc))) in
      match pickSpawnPosition depth sc tm s r1 with
      | None => None
      | Some (spawnPos, r2) =>
        let '(enemy, s1) := createEntity s "enemy" in
        let transform := newTransform (fst spawnPos) (snd spawnPos) pixelSize pixelSize in
        let transform := mkTransform (t_x transform) (t_y transform) (t_width transform)
                           (t_height transform) (t_vx transform) (t_vy transform)
                           (bs_speed (baseStats enemyType))
                           (t_directionX transform) (t_directionY transform) in
        let aiConfig := createAIConfig enemyType pixelSize in
        let attackRange := default pixelSize (cfg_attackRange aiConfig) in
        let build (e : Entity) : Entity :=
          let e := addComponent e (CTransform transform) in
          let e := addComponent e (CHealth (newHealth (bs_health (baseStats enemyType)) 0)) in
          let e := addComponent e (CCollision (newCollision (pixelSize * (4 # 10)))) in
          let e := addComponent e (CEnemyInfo (mkEnemyInfo (et_type enemyType)
                                     (default 1%Q (xpReward enemyType)))) in
          let e := addComponent e (CAttack (newAttack (bs_damage (baseStats enemyType))
                                     (default 45%Q (cfg_attackCooldown aiConfig)) attackRange)) in
          let e := addComponent e (CAI (newAI aiConfig)) in
          let e := set_hostile e true in
          match onEnemySpawn sc with
          | Some hook => hook e enemyType
          | None => e
          end in
        Some (Some (et_type enemyType), (updateEntity s1 enemy build, r2))
      end
    end.

Definition bump (counts : gmap string Z) (key : string) : gmap string Z :=
    <[key := default 0 (counts !! key) + 1]> counts.

  (** The loop of [spawnEnemyType]: at most [n] calls of [spawnOne], stopping
      at the first falsy result ([null] or the empty string). *)
Fixpoint spawnTypeLoop (n : nat) (depth : nat) (sc : SpawnController) (tm : option TileMap)
      (s : Store) (r : Rand) (enemyType : EnemyTypeConfig) (spawned : Z)
      : option (Z * (SpawnController * Store * Rand)) :=
    match n with
    | O => Some (spawned, (sc, s, r))
    | S n' =>
      match spawnOne depth sc tm s r (Some enemyType) with
      | None => None
      | Some (result, (s1, r1)) =>
        match result with
        | None => Some (spawned, (sc, s1, r1))
        | Some key =>
          if String.eqb key "" then Some (spawned, (sc, s1, r1))
          else spawnTypeLoop n' depth (set_spawnCounts sc (bump (spawnCounts sc) key))
                 tm s1 r1 enemyType (spawned + 1)
        end
      end
    end.

Definition spawnEnemyType (depth : nat) (sc : SpawnController) (tm : option TileMap)
      (s : Store) (r : Rand) (type : string) (count : Z)
      : option (Z * (SpawnController * Store * Rand)) :=
    match List.find (fun e => String.eqb (et_type e) type) (registry sc) with
    | None => Some (0, (sc, s, r))
    | Some enemyType =>
      let spaceAvailable :=
        if 0 <? maxEnemies (config sc)
        then Z.max 0 (maxEnemies (config sc) - currentEnemies s)
        else count in
      let toSpawn :=
        if 0 <? maxEnemies (config sc) then Z.min count spaceAvailable else count in
      if toSpawn <=? 0 then Some (0, (sc, s, r))
      else spawnTypeLoop (Z.to_nat toSpawn) depth sc tm s r enemyType 0
    end.

Fixpoint spawnBatchLoop (n : nat) (depth : nat) (sc : SpawnController) (tm : option TileMap)
      (s : Store) (r : Rand) : option (SpawnController * Store * Rand) :=
    match n with
    | O => Some (sc, s, r)
    | S n' =>
      match spawnOne depth sc tm s r None with
      | None => None
      | Some (result, (s1, r1)) =>
        match result with
        | None => Some (sc, s1, r1)
        | Some key =>
          if String.eqb key "" then Some (sc, s1, r1)
          else spawnBatchLoop n' depth (set_spawnCounts sc (bump (spawnCounts sc) key)) tm s1 r1
        end
      end
    end.

Definition spawnBatch (depth : nat) (sc : SpawnController) (tm : option TileMap)
      (s : Store) (r : Rand) (count : Z) : option (SpawnController * Store * Rand) :=
    if count <=? 0 then Some (sc, s, r)
    else
      let spaceAvailable := Z.max 0 (maxEnemies (config sc) - currentEnemies s) in
      let toSpawn :=
        if 0 <? maxEnemies (config sc) then Z.min count spaceAvailable else count in
      if toSpawn <=? 0 then Some (sc, s, r)
      else spawnBatchLoop (Z.to_nat toSpawn) depth sc tm s r.

End SpawnPositions.

(** ** entities/waves/WaveTypes.ts and WaveManager.ts *)

(** A cost table is an object used as a map; a spawn mix is read through
    [Object.entries], whose order matters to the roll, so it is the list of
    its entries. *)
Abbreviation WaveEnemyCosts := (gmap string Q).
Abbreviation WaveEnemyMix := (list (string * Q)).

Inductive WaveEventType := BurstSpawn | EliteSpawn | MixedGroup | WeightedBurst.

Record WaveEnemyGroup := mkGroup { g_type : string; g_count : Z }.

Record TimedWaveEvent := mkEvent {
  triggerTime : Q;
  eventType : WaveEventType;
  ev_enemies : option (list WaveEnemyGroup);
  ev_weights : option WaveEnemyMix;
  eliteType : option string;
  eliteCount : option Z;
  totalCount : option Z
}.

Record WaveDefinition := mkWave {
  durationSeconds : Q;
  budgetPerSecond : Q;
  enemyCosts : WaveEnemyCosts;
  continuousSpawnMix : WaveEnemyMix;
  timedEvents : option (list TimedWaveEvent)
}.

(** [triggeredEvents] is a set of event objects; an event object is
    identified by its position in the wave's [timedEvents] array. *)
Record ActiveWaveContext := mkCtx {
  wave : WaveDefinition;
  waveIndex : Z;
  elapsed : Q;
  budget : Q;
  triggeredEvents : gset nat;
  costs : WaveEnemyCosts
}.

Definition set_budget (ctx : ActiveWaveContext) (b : Q) : ActiveWaveContext :=
  mkCtx (wave ctx) (waveIndex ctx) (elapsed ctx) b (triggeredEvents ctx) (costs ctx).

Definition set_triggered (ctx : ActiveWaveContext) (t : gset nat) : ActiveWaveContext :=
  mkCtx (wave ctx) (waveIndex ctx) (elapsed ctx) (budget ctx) t (costs ctx).

(** The manager; its three notification hooks ([onWaveStart],
    [onWaveComplete], [onEventTriggered]) belong to the presentation layer. *)
Record WaveManager := mkWaveManager {
  waves : list WaveDefinition;
  baseEnemyCosts : WaveEnemyCosts;
  intermissionSeconds : Q;
  clearEnemiesOnWaveStart : bool;
  loopLastWave : bool;
  activeWave : option ActiveWaveContext;
  intermissionTimer : Q;
  endlessMode : bool
}.

Definition set_wave_state (wm : WaveManager) (a : option ActiveWaveContext)
    (timer : Q) (endless : bool) : WaveManager :=
  mkWaveManager (waves wm) (baseEnemyCosts wm) (intermissionSeconds wm)
    (clearEnemiesOnWaveStart wm) (loopLastWave wm) a timer endless.

(** What a spawn touches: the controller, the entity store, the random stream. *)
Abbreviation SpawnEnv := (SpawnController * Store * Rand)%type.

(** [getCheapestEnemyCost]: the least positive value of the table; [None]
    is [Number.POSITIVE_INFINITY], the answer for a table without one. *)
Definition cheaper (value : Q) (cheapest : option Q) : option Q :=
  if Qle_bool value 0 then cheapest
  else match cheapest with
       | None => Some value
       | Some c => Some (Math_min c value)
       end.

Definition getCheapestEnemyCost (costs : WaveEnemyCosts) : option Q :=
  map_fold (fun _ value cheapest => cheaper value cheapest) None costs.

(** The roll of [pickFromMix] over the entries of positive weight. *)
Fixpoint rollMix (entries : WaveEnemyMix) (roll : Q) : option string :=
  match entries with
  | [] => None
  | (type, weight) :: rest =>
    let roll' := (roll - weight)%Q in
    if Qle_bool roll' 0 then Some type else rollMix rest roll'
  end.

Definition pickFromMix (mix : WaveEnemyMix) (r : Rand) : option string * Rand :=
  let entries := List.filter (fun e => Qltb 0 (snd e)) mix in
  if (length entries =? 0)%nat then (None, r)
  else
    let total := fold_left (fun sum e => (sum + snd e)%Q) entries 0%Q in
    let '(u, r1) := Math_random r in
    let roll := (u * total)%Q in
    (match rollMix entries roll with
     | Some type => Some type
     | None => fst <$> last entries
     end, r1).

(** A string or [null] tested for truthiness. *)
Definition truthy (o : option string) : option string :=
  match o with
  | Some k => if String.eqb k "" then None else Some k
  | None => None
  end.

Section Waves.
Context `{MathLib}.

(** The loop of [processContinuousSpawns].  [n] counts the attempts left of
    the 64 the source allows; [cheapest] is the positive cheapest cost. *)
Fixpoint continuousLoop (n : nat) (depth : nat) (tm : option TileMap) (cheapest : Q)
    (ctx : ActiveWaveContext) (env : SpawnEnv) : option (ActiveWaveContext * SpawnEnv) :=
  match n with
  | O => Some (ctx, env)
  | S n' =>
    if negb (Qle_bool cheapest (budget ctx)) then Some (ctx, env)
    else
      let '(sc, s, r) := env in
      let '(picked, r1) := pickFromMix (continuousSpawnMix (wave ctx)) r in
      match truthy picked with
      | None => Some (ctx, (sc, s, r1))
      | Some enemyType =>
        match costs ctx !! enemyType with
        | None => continuousLoop n' depth tm cheapest ctx (sc, s, r1)
        | Some cost =>
          match spawnEnemyType depth sc tm s r1 enemyType 1 with
          | None => None
          | Some (spawned, env') =>
            if 0 <? spawned
            then continuousLoop n' depth tm cheapest
                   (set_budget ctx (budget ctx - cost)%Q) env'
            else Some (ctx, env')
          end
        end
      end
  end.

Definition processContinuousSpawns (depth : nat) (tm : option TileMap)
    (ctx : ActiveWaveContext) (env : SpawnEnv) : option (ActiveWaveContext * SpawnEnv) :=
  match getCheapestEnemyCost (costs ctx) with
  | None => Some (ctx, env)
  | Some cheapest =>
    if Qle_bool cheapest 0 then Some (ctx, env)
    else continuousLoop 64 depth tm cheapest ctx env
  end.

Fixpoint spawnGroups (depth : nat) (tm : option TileMap) (groups : list WaveEnemyGroup)
    (env : SpawnEnv) : option SpawnEnv :=
  match groups with
  | [] => Some env
  | group :: rest =>
    if String.eqb (g_type group) "" || (g_count group <=? 0)
    then spawnGroups depth tm rest env
    else
      let '(sc, s, r) := env in
      match spawnEnemyType depth sc tm s r (g_type group) (g_count group) with
      | None => None
      | Some (_, env') => spawnGroups depth tm rest env'
      end
  end.

Fixpoint weightedBurst (n : nat) (depth : nat) (tm : option TileMap) (weights : WaveEnemyMix)
    (env : SpawnEnv) : option SpawnEnv :=
  match n with
  | O => Some env
  | S n' =>
    let '(sc, s, r) := env in
    let '(picked, r1) := pickFromMix weights r in
    match truthy picked with
    | None => Some (sc, s, r1)
    | Some type =>
      match spawnEnemyType depth sc tm s r1 type 1 with
      | None => None
      | Some (_, env') => weightedBurst n' depth tm weights env'
      end
    end
  end.

Definition executeEvent (depth : nat) (tm : option TileMap) (evt : TimedWaveEvent)
    (env : SpawnEnv) : option SpawnEnv :=
  match eventType evt with
  | BurstSpawn | MixedGroup => spawnGroups depth tm (default [] (ev_enemies evt)) env
  | EliteSpawn =>
    match truthy (eliteType evt) with
    | Some type => spawnGroups depth tm [mkGroup type (default 1 (eliteCount evt))] env
    | None => Some env
    end
  | WeightedBurst =>
    weightedBurst (Z.to_nat (default 20 (totalCount evt))) depth tm
      (default [] (ev_weights evt)) env
  end.

(** [processEvents], walking the events with their positions. *)
Fixpoint processEventsFrom (i : nat) (events : list TimedWaveEvent) (depth : nat)
    (tm : option TileMap) (ctx : ActiveWaveContext) (env : SpawnEnv)
    : option (ActiveWaveContext * SpawnEnv) :=
  match events with
  | [] => Some (ctx, env)
  | evt :: rest =>
    if decide (i ∈ triggeredEvents ctx) then processEventsFrom (S i) rest depth tm ctx env
    else if Qltb (elapsed ctx) (triggerTime evt) then processEventsFrom (S i) rest depth tm ctx env
    else
      match executeEvent depth tm evt env with
      | None => None
      | Some env' =>
        processEventsFrom (S i) rest depth tm
          (set_triggered ctx ({[i]} ∪ triggeredEvents ctx)) env'
      end
  end.

Definition processEvents (depth : nat) (tm : option TileMap) (ctx : ActiveWaveContext)
    (env : SpawnEnv) : option (ActiveWaveContext * SpawnEnv) :=
  processEventsFrom 0 (default [] (timedEvents (wave ctx))) depth tm ctx env.

(** [beginWave(index)]; [None] is the TypeError of reading a wave out of an
    empty wave list. *)
Definition beginWave (wm : WaveManager) (s : Store) (index : Z) : option (WaveManager * Store) :=
  let n := Z.of_nat (length (waves wm)) in
  let waveIndex := Z.max 0 (Z.min index (n - 1)) in
  match waves wm !! Z.to_nat waveIndex with
  | None => None
  | Some wave =>
    let costs := enemyCosts wave ∪ baseEnemyCosts wm in
    let ctx := mkCtx wave waveIndex 0 0 ∅ costs in
    let endless := (n - 1 <=? waveIndex) && loopLastWave wm in
    let s' := if clearEnemiesOnWaveStart wm
              then fold_left removeEntity (enemies (em s)) s
              else s in
    Some (set_wave_state wm (Some ctx) 0 endless, s')
  end.

Definition beginNextWave (wm : WaveManager) (s : Store) : option (WaveManager * Store) :=
  match activeWave wm with
  | None => Some (wm, s)
  | Some ctx =>
    let nextIndex := waveIndex ctx + 1 in
    if Z.of_nat (length (waves wm)) <=? nextIndex then
      if negb (loopLastWave wm) then Some (wm, s)
      else
        match beginWave wm s (Z.of_nat (length (waves wm)) - 1) with
        | None => None
        | Some (wm', s') =>
          Some (set_wave_state wm' (activeWave wm') (intermissionTimer wm') true, s')
        end
    else beginWave wm s nextIndex
  end.

Definition finishWave (wm : WaveManager) (s : Store) (ctx : ActiveWaveContext)
    (skipping : bool) : option (WaveManager * Store) :=
  let isFinalWave :=
    (Z.of_nat (length (waves wm)) - 1 <=? waveIndex ctx) && negb (loopLastWave wm) in
  if isFinalWave then Some (set_wave_state wm None 0 false, s)
  else if skipping && Qle_bool (intermissionSeconds wm) 0 then beginNextWave wm s
  else Some (set_wave_state wm (activeWave wm) (intermissionSeconds wm) (endlessMode wm), s).

(** [update(dtSeconds)]. *)
Definition waveUpdate (depth : nat) (tm : option TileMap) (wm : WaveManager)
    (env : SpawnEnv) (dtSeconds : Q) : option (WaveManager * SpawnEnv) :=
  match activeWave wm with
  | None => Some (wm, env)
  | Some ctx0 =>
    let '(sc, s, r) := env in
    if Qltb 0 (intermissionTimer wm) then
      let timer := (intermissionTimer wm - dtSeconds)%Q in
      let wm1 := set_wave_state wm (activeWave wm) timer (endlessMode wm) in
      if Qle_bool timer 0 then
        match beginNextWave wm1 s with
        | None => None
        | Some (wm2, s2) => Some (wm2, (sc, s2, r))
        end
      else Some (wm1, env)
    else
      let ctx1 := mkCtx (wave ctx0) (waveIndex ctx0) (elapsed ctx0 + dtSeconds)%Q
                    (budget ctx0 + budgetPerSecond (wave ctx0) * dtSeconds)%Q
                    (triggeredEvents ctx0) (costs ctx0) in
      match processEvents depth tm ctx1 env with
      | None => None
      | Some (ctx2, env2) =>
        match processContinuousSpawns depth tm ctx2 env2 with
        | None => None
        | Some (ctx3, (sc3, s3, r3)) =>
          let wm3 := set_wave_state wm (Some ctx3) (intermissionTimer wm) (endlessMode wm) in
          if Qle_bool (durationSeconds (wave ctx3)) (elapsed ctx3) then
            match finishWave wm3 s3 ctx3 false with
            | None => None
            | Some (wm4, s4) => Some (wm4, (sc3, s4, r3))
            end
          else Some (wm3, (sc3, s3, r3))
        end
      end
  end.

End Waves.

(** ** entities/projectiles/ProjectileManager.ts *)

Record ProjectileTypeDefinition := mkProjType {
  pt_key : string;
  pt_speed : Q;
  pt_damage : Q;
  pt_lifetime : Q;
  pt_sizeScale : Q;
  pt_collisionRadiusScale : option Q;
  pt_color : option Z
}.

Record ProjectileSystemConfig := mkProjConfig {
  poolSize : Z;
  maxProjectiles : Z;
  enableObjectPooling : bool;
  reuseOldestWhenFull : bool;
  enableFriendlyFire : bool;
  defaultProjectileScale : Q;
  defaultProjectileSpeed : Q;
  maxLifetime : Q
}.

Record ProjectileEffect := mkProjEffect {
  pe_type : string;
  pe_params : gmap string Q
}.

Record ProjectileSpawnOptions := mkSpawnOptions {
  overrideSpeed : option Q;
  overrideDamage : option Q;
  overrideLifetime : option Q;
  opt_sizeScale : option Q;
  opt_pierce : option Z;
  opt_color : option Z;
  opt_effects : option (list ProjectileEffect);
  opt_chain : option Z;
  opt_chainRange : option Q
}.

Record Projectile := mkProjectile {
  p_id : Z;
  p_type : ProjectileTypeDefinition;
  p_source : option loc;
  p_x : Q;
  p_y : Q;
  p_dirX : Q;
  p_dirY : Q;
  p_speed : Q;
  p_damage : Q;
  p_lifetime : Q;
  p_size : Q;
  p_radius : Q;
  p_pierce : Z;
  hitIds : gset Z;
  p_effects : list ProjectileEffect;
  remainingChains : Z;
  chainRange : Q;
  colorOverride : option Z;
  isPlayerProjectile : bool;
  isEnemyProjectile : bool;
  p_active : bool
}.

Definition DEFAULT_TYPES : list ProjectileTypeDefinition :=
  [ mkProjType "playerBullet" 3 11 180 (3 # 10) (Some (45 # 100)) (Some 16777215);
    mkProjType "enemySpit" 3 6 150 (34 # 100) (Some (48 # 100)) (Some 8246268);
    mkProjType "heavyBlob" (25 # 10) 14 240 (42 # 100) (Some (5 # 10)) (Some 16020150) ].

Definition DEFAULT_PROJECTILE_CONFIG : ProjectileSystemConfig :=
  mkProjConfig 256 256 true true false (3 # 10) 6 360.

(** The record every allocation site of the source writes out. *)
Definition blankProjectile : Projectile :=
  mkProjectile 0 (mkProjType "playerBullet" 3 11 180 (3 # 10) (Some (45 # 100)) (Some 16777215))
    None 0 0 0 0 0 0 0 0 0 0 ∅ [] 0 0 None false false false.

(** A reference to a [Projectile] object. *)
Definition ploc := nat.

Record ProjectileManager := mkPM {
  pm_registry : gmap string ProjectileTypeDefinition;
  pm_config : ProjectileSystemConfig;
  pool : list ploc;
  active : list ploc;
  pm_nextId : Z;
  projs : gmap ploc Projectile;     (* the Projectile objects, by reference *)
  pm_nextLoc : ploc
}.

Definition set_lists (pm : ProjectileManager) (pl ac : list ploc) : ProjectileManager :=
  mkPM (pm_registry pm) (pm_config pm) pl ac (pm_nextId pm) (projs pm) (pm_nextLoc pm).

Definition modifyProjectile (pm : ProjectileManager) (p : ploc) (f : Projectile -> Projectile)
    : ProjectileManager :=
  mkPM (pm_registry pm) (pm_config pm) (pool pm) (active pm) (pm_nextId pm)
    (alter f p (projs pm)) (pm_nextLoc pm).

(** Allocating a fresh [Projectile] object. *)
Definition allocProjectile (pm : ProjectileManager) : ploc * ProjectileManager :=
  (pm_nextLoc pm,
   mkPM (pm_registry pm) (pm_config pm) (pool pm) (active pm) (pm_nextId pm)
     (<[pm_nextLoc pm := blankProjectile]> (projs pm)) (S (pm_nextLoc pm))).

(** The state a projectile step reads and writes: the manager, the tile map
    and the combat system it was given (if any), and the entity store. *)
Record Sim := mkSim {
  sim_pm : ProjectileManager;
  sim_tileMap : option TileMap;
  sim_combat : option CombatSystem;
  sim_store : Store
}.

Definition set_pm (w : Sim) (pm : ProjectileManager) : Sim :=
  mkSim pm (sim_tileMap w) (sim_combat w) (sim_store w).

(** Field updates of a projectile. *)
Definition p_set_active (b : bool) (p : Projectile) : Projectile :=
  mkProjectile (p_id p) (p_type p) (p_source p) (p_x p) (p_y p) (p_dirX p) (p_dirY p)
    (p_speed p) (p_damage p) (p_lifetime p) (p_size p) (p_radius p) (p_pierce p)
    (hitIds p) (p_effects p) (remainingChains p) (chainRange p) (colorOverride p)
    (isPlayerProjectile p) (isEnemyProjectile p) b.
Definition p_set_lifetime (v : Q) (p : Projectile) : Projectile :=
  mkProjectile (p_id p) (p_type p) (p_source p) (p_x p) (p_y p) (p_dirX p) (p_dirY p)
    (p_speed p) (p_damage p) v (p_size p) (p_radius p) (p_pierce p)
    (hitIds p) (p_effects p) (remainingChains p) (chainRange p) (colorOverride p)
    (isPlayerProjectile p) (isEnemyProjectile p) (p_active p).
Definition p_set_pos (x y : Q) (p : Projectile) : Projectile :=
  mkProjectile (p_id p) (p_type p) (p_source p) x y (p_dirX p) (p_dirY p)
    (p_speed p) (p_damage p) (p_lifetime p) (p_size p) (p_radius p) (p_pierce p)
    (hitIds p) (p_effects p) (remainingChains p) (chainRange p) (colorOverride p)
    (isPlayerProjectile p) (isEnemyProjectile p) (p_active p).
Definition p_set_pierce (v : Z) (p : Projectile) : Projectile :=
  mkProjectile (p_id p) (p_type p) (p_source p) (p_x p) (p_y p) (p_dirX p) (p_dirY p)
    (p_speed p) (p_damage p) (p_lifetime p) (p_size p) (p_radius p) v
    (hitIds p) (p_effects p) (remainingChains p) (chainRange p) (colorOverride p)
    (isPlayerProjectile p) (isEnemyProjectile p) (p_active p).
Definition p_set_hitIds (h : gset Z) (p : Projectile) : Projectile :=
  mkProjectile (p_id p) (p_type p) (p_source p) (p_x p) (p_y p) (p_dirX p) (p_dirY p)
    (p_speed p) (p_damage p) (p_lifetime p) (p_size p) (p_radius p) (p_pierce p)
    h (p_effects p) (remainingChains p) (chainRange p) (colorOverride p)
    (isPlayerProjectile p) (isEnemyProjectile p) (p_active p).
Definition p_set_chains (v : Z) (p : Projectile) : Projectile :=
  mkProjectile (p_id p) (p_type p) (p_source p) (p_x p) (p_y p) (p_dirX p) (p_dirY p)
    (p_speed p) (p_damage p) (p_lifetime p) (p_size p) (p_radius p) (p_pierce p)
    (hitIds p) (p_effects p) v (chainRange p) (colorOverride p)
    (isPlayerProjectile p) (isEnemyProjectile p) (p_active p).

(** The transient fields cleared on release and on reuse from the pool. *)
Definition p_clear (p : Projectile) : Projectile :=
  mkProjectile (p_id p) (p_type p) (p_source p) (p_x p) (p_y p) (p_dirX p) (p_dirY p)
    (p_speed p) (p_damage p) (p_lifetime p) (p_size p) (p_radius p) (p_pierce p)
    ∅ [] 0 0 None (isPlayerProjectile p) (isEnemyProjectile p) (p_active p).

(** [releaseAtIndex(index)], for an index inside the active list. *)
Definition releaseAtIndex (pm : ProjectileManager) (index : nat) : ProjectileManager :=
  match active pm !! index with
  | None => pm
  | Some removed =>
    let pm1 := set_lists pm (pool pm) (delete index (active pm)) in
    let pm2 := modifyProjectile pm1 removed (fun p => p_clear (p_set_active false p)) in
    if enableObjectPooling (pm_config pm)
    then set_lists pm2 (pool pm2 ++ [removed]) (active pm2)
    else pm2
  end.

Definition acquireProjectile (pm : ProjectileManager) : option ploc * ProjectileManager :=
  match last (pool pm) with
  | Some projectile =>
    let pm1 := set_lists pm (removelast (pool pm)) (active pm) in
    (Some projectile, modifyProjectile pm1 projectile p_clear)
  | None =>
    if negb (enableObjectPooling (pm_config pm)) then
      let '(r, pm1) := allocProjectile pm in (Some r, pm1)
    else if maxProjectiles (pm_config pm) <=? Z.of_nat (length (active pm)) then
      if negb (reuseOldestWhenFull (pm_config pm)) then (None, pm)
      else
        match active pm with
        | oldest :: rest =>
          (* shift, push onto the (empty) pool, pop it again *)
          (Some oldest, modifyProjectile (set_lists pm (pool pm) rest) oldest (p_set_active false))
        | [] => (None, pm)
        end
    else
      let '(r, pm1) := allocProjectile pm in (Some r, pm1)
  end.

Definition getCollisionRadius (entity : Entity) (transform : TransformComponent) : Q :=
  match getCollision entity with
  | Some collision => c_radius collision
  | None => (Math_max (t_width transform) (t_height transform) * (1 # 2))%Q
  end.

(** The circle-against-circle test shared by the two hit checks. *)
Definition overlaps (p : Projectile) (entity : Entity) (transform : TransformComponent) : bool :=
  let radius := getCollisionRadius entity transform in
  let centerX := (t_x transform + t_width transform * (1 # 2))%Q in
  let centerY := (t_y transform + t_height transform * (1 # 2))%Q in
  let dx := (centerX - p_x p)%Q in
  let dy := (centerY - p_y p)%Q in
  let distSq := (dx * dx + dy * dy)%Q in
  let maxDist := (p_radius p + radius)%Q in
  Qle_bool distSq (maxDist * maxDist).

(** The five sample points of [collidesWithWall]. *)
Definition wallSamples (p : Projectile) : list (Q * Q) :=
  [ (p_x p, p_y p);
    (p_x p + p_radius p, p_y p)%Q;
    (p_x p - p_radius p, p_y p)%Q;
    (p_x p, p_y p + p_radius p)%Q;
    (p_x p, p_y p - p_radius p)%Q ].

Fixpoint collidesSamples (tm : TileMap) (playerOwned : bool) (samples : list (Q * Q))
    : bool * TileMap :=
  match samples with
  | [] => (false, tm)
  | s :: rest =>
    let tx := Math_floor (fst s / virtualPixelScale tm) in
    let ty := Math_floor (snd s / virtualPixelScale tm) in
    if (tx <? 0) || (ty <? 0) || (width tm <=? tx) || (height tm <=? ty) then (true, tm)
    else if negb (isBlocked tm tx ty) then collidesSamples tm playerOwned rest
    else
      let tile := getTile tm tx ty in
      let isWall := match tile with
                    | Some t => ts_base t =? BaseType.Wall
                    | None => false
                    end in
      let indestructible := match tile with
                            | Some t => (ts_base t =? BaseType.Wall) && (200 <=? ts_durability t)
                            | None => false
                            end in
      if isWall && playerOwned && negb indestructible then
        let '(destroyed, tm') := damageWallTile tm tx ty 1 in
        if negb destroyed then (true, tm')
        else collidesSamples tm' playerOwned rest
      else (true, tm)
  end.

(** [collidesWithWall(p)]: the answer and the tile map it leaves. *)
Definition collidesWithWall (tileMap : option TileMap) (p : Projectile) : bool * option TileMap :=
  match tileMap with
  | None => (false, None)
  | Some tm =>
    let '(hit, tm') := collidesSamples tm (isPlayerProjectile p) (wallSamples p) in
    (hit, Some tm')
  end.

Definition effectDuration (eff : ProjectileEffect) : Q :=
  if String.eqb (pe_type eff) "freeze" || String.eqb (pe_type eff) "stun"
  then default (1 # 2) (pe_params eff !! "duration")
  else if String.eqb (pe_type eff) "slow"
  then default (default 1%Q (pe_params eff !! "slowDuration")) (pe_params eff !! "duration")
  else default 1%Q (pe_params eff !! "duration").

Definition setTransform (e : Entity) (t : TransformComponent) : Entity :=
  mkEntity (e_id e) (e_type e) (e_active e) (e_flags e)
    (<["Transform" := CTransform t]> (e_components e)).

Definition applyKnockback (s : Store) (target : loc) (projectile : Projectile) : Store :=
  match List.find (fun e => String.eqb (pe_type e) "knockback") (p_effects projectile) with
  | None => s
  | Some knock =>
    match objs s !! target with
    | None => s
    | Some ent =>
      match getTransform ent with
      | None => s
      | Some transform =>
        let strength := default (default 0%Q (pe_params knock !! "strength"))
                          (pe_params knock !! "force") in
        if Qle_bool strength 0 then s
        else
          updateEntity s target (fun e =>
            setTransform e
              (mkTransform (t_x transform) (t_y transform) (t_width transform)
                 (t_height transform)
                 (t_vx transform + p_dirX projectile * strength)%Q
                 (t_vy transform + p_dirY projectile * strength)%Q
                 (t_speed transform) (t_directionX transform) (t_directionY transform)))
      end
    end
  end.

(** [applyEffects(target, projectile)], called with a combat system at hand. *)
Definition applyEffects (c : CombatSystem) (s : Store) (target : loc) (projectile : Projectile)
    : CombatSystem * Store :=
  if (length (p_effects projectile) =? 0)%nat then (c, s)
  else
    let mapped := List.map (fun eff =>
                    mkEffect (pe_type eff) (effectDuration eff) (pe_params eff)
                      (p_source projectile)) (p_effects projectile) in
    let c1 := applyStatusEffects c s target mapped in
    if existsb (fun e => String.eqb (pe_type e) "knockback") (p_effects projectile)
    then (c1, applyKnockback s target projectile)
    else (c1, s).

(** The damage and the carried effects of one hit, when a combat system is
    attached. *)
Definition strike (w : Sim) (target : loc) (projectile : Projectile) : Sim :=
  match sim_combat w with
  | None => w
  | Some c =>
    let '(_, (c1, s1)) := applyDamage c (sim_store w) target (p_damage projectile)
                            (p_source projectile) in
    let '(c2, s2) := applyEffects c1 s1 target projectile in
    mkSim (sim_pm w) (sim_tileMap w) (Some c2) s2
  end.

(** [findNextChainTarget]: the nearest active enemy not yet hit, in range. *)
Fixpoint nearestTarget (es : list loc) (s : Store) (alreadyHit : gset Z) (rangeSq : Q)
    (c : TransformComponent) (best : option (loc * Q)) : option (loc * Q) :=
  match es with
  | [] => best
  | enemy :: rest =>
    let skip := nearestTarget rest s alreadyHit rangeSq c best in
    match objs s !! enemy with
    | None => skip
    | Some ent =>
      if negb (e_active ent) || bool_decide (e_id ent ∈ alreadyHit) then skip
      else
        match getTransform ent with
        | None => skip
        | Some t =>
          let dx := (t_x t - t_x c)%Q in
          let dy := (t_y t - t_y c)%Q in
          let distSq := (dx * dx + dy * dy)%Q in
          if Qltb rangeSq distSq then skip
          else
            match best with
            | Some (_, bestSq) =>
              if Qltb distSq bestSq
              then nearestTarget rest s alreadyHit rangeSq c (Some (enemy, distSq))
              else skip
            | None => nearestTarget rest s alreadyHit rangeSq c (Some (enemy, distSq))
            end
        end
    end
  end.

Definition findNextChainTarget (s : Store) (current : Entity) (alreadyHit : gset Z) (range : Q)
    : option loc :=
  match getTransform current with
  | None => None
  | Some cTransform =>
    fst <$> nearestTarget (enemies (em s)) s alreadyHit (range * range)%Q cTransform None
  end.

Section Projectiles.
Context `{MathLib}.

Definition normalize (x y : Q) : Q * Q * Q :=
  let lenSq := (x * x + y * y)%Q in
  if Qeq_bool lenSq 0 then (0%Q, 0%Q, 0%Q)
  else
    let inv := (1 / Math_sqrt lenSq)%Q in
    ((x * inv)%Q, (y * inv)%Q, lenSq).

Definition Math_hypot (x y : Q) : Q := Math_sqrt (x * x + y * y).

(** [spawn(key, position, direction, source, flags, options)]. *)
Definition spawn (pm : ProjectileManager) (s : Store) (key : string) (position direction : Q * Q)
    (source : option loc) (flagPlayer flagEnemy : bool) (options : ProjectileSpawnOptions)
    : option ploc * ProjectileManager :=
  match pm_registry pm !! key with
  | None => (None, pm)
  | Some type =>
    let '(nx, ny, lenSq) := normalize (fst direction) (snd direction) in
    if Qeq_bool lenSq 0 then (None, pm)
    else
      match acquireProjectile pm with
      | (None, pm1) => (None, pm1)
      | (Some projectile, pm1) =>
        let sourceTransform := match source with
                               | Some src => match objs s !! src with
                                             | Some ent => getTransform ent
                                             | None => None
                                             end
                               | None => None
                               end in
        let shooterSize := match sourceTransform with
                           | Some t => Math_max (t_width t) (t_height t)
                           | None => 1%Q
                           end in
        let sizeScale := default (pt_sizeScale type) (opt_sizeScale options) in
        let effects := default [] (opt_effects options) in
        let chain := Z.max 0 (default 0 (opt_chain options)) in
        let range := Math_max 0 (default 0%Q (opt_chainRange options)) in
        let speed := default (pt_speed type) (overrideSpeed options) in
        let damage := default (pt_damage type) (overrideDamage options) in
        let lifetime := default (Math_min (pt_lifetime type) (maxLifetime (pm_config pm)))
                          (overrideLifetime options) in
        let size := (shooterSize * sizeScale)%Q in
        let filled :=
          mkProjectile (pm_nextId pm1) type source (fst position) (snd position) nx ny
            speed damage lifetime size
            (size * default (45 # 100) (pt_collisionRadiusScale type))%Q
            (Z.max 0 (default 0 (opt_pierce options)))
            ∅ effects chain (if Qeq_bool range 0 then 72%Q else range)
            (opt_color options) flagPlayer flagEnemy true in
        let pm2 := modifyProjectile pm1 projectile (fun _ => filled) in
        (Some projectile,
         mkPM (pm_registry pm2) (pm_config pm2) (pool pm2) (active pm2 ++ [projectile])
           (pm_nextId pm2 + 1) (projs pm2) (pm_nextLoc pm2))
      end
  end.

(** [handleChain(projectile, hitTarget)]; its answer is always [false]. *)
Definition handleChain (w : Sim) (p : ploc) (hitTarget : loc) : bool * Sim :=
  match projs (sim_pm w) !! p, objs (sim_store w) !! hitTarget with
  | Some projectile, Some target =>
    if remainingChains projectile <=? 0 then (false, w)
    else
      let pm1 := modifyProjectile (sim_pm w) p (p_set_chains (remainingChains projectile - 1)) in
      let projectile := p_set_chains (remainingChains projectile - 1) projectile in
      let w1 := set_pm w pm1 in
      match findNextChainTarget (sim_store w) target (hitIds projectile) (chainRange projectile) with
      | None => (false, w1)
      | Some next =>
        match getTransform target,
              match objs (sim_store w) !! next with
              | Some e => getTransform e
              | None => None
              end with
        | Some transform, Some nextTransform =>
          let dirX := (t_x nextTransform - t_x transform)%Q in
          let dirY := (t_y nextTransform - t_y transform)%Q in
          let len := if Qeq_bool (Math_hypot dirX dirY) 0 then 1%Q else Math_hypot dirX dirY in
          let options :=
            mkSpawnOptions (Some (p_speed projectile)) (Some (p_damage projectile)) None
              (Some (p_size projectile /
                     Math_max 1 (Math_max (t_width transform) (t_height transform)))%Q)
              (Some (p_pierce projectile)) (colorOverride projectile)
              (Some (p_effects projectile)) (Some (remainingChains projectile))
              (Some (chainRange projectile)) in
          let '(chained, pm2) :=
            spawn pm1 (sim_store w) (pt_key (p_type projectile))
              ((t_x transform + t_width transform * (1 # 2))%Q,
               (t_y transform + t_height transform * (1 # 2))%Q)
              ((dirX / len)%Q, (dirY / len)%Q)
              (p_source projectile)
              (isPlayerProjectile projectile) (isEnemyProjectile projectile) options in
          match chained with
          | None => (false, set_pm w pm2)
          | Some ch =>
            let carried := match projs pm2 !! p with
                           | Some live => hitIds live
                           | None => ∅
                           end in
            (false,
             set_pm w (modifyProjectile pm2 ch (fun c =>
               p_set_hitIds (hitIds c ∪ carried ∪ {[e_id target]}) c)))
          end
        | _, _ => (false, w1)
        end
      end
  | _, _ => (false, w)
  end.

(** [checkEnemyHit(p)], over the enemy array the loop started on. *)
Fixpoint checkEnemyHitLoop (es : list loc) (w : Sim) (p : ploc) : bool * Sim :=
  match es with
  | [] => (false, w)
  | enemy :: rest =>
    match objs (sim_store w) !! enemy, projs (sim_pm w) !! p with
    | Some ent, Some projectile =>
      if negb (e_active ent) then checkEnemyHitLoop rest w p
      else if bool_decide (e_id ent ∈ hitIds projectile) then checkEnemyHitLoop rest w p
      else
        match getTransform ent with
        | None => checkEnemyHitLoop rest w p
        | Some transform =>
          if overlaps projectile ent transform then
            let w1 := strike w enemy projectile in
            let w2 := set_pm w1 (modifyProjectile (sim_pm w1) p
                        (fun q => p_set_hitIds (hitIds q ∪ {[e_id ent]}) q)) in
            let '(chained, w3) := handleChain w2 p enemy in
            if chained then (true, w3)
            else
              match projs (sim_pm w3) !! p with
              | Some live =>
                if 0 <? p_pierce live then
                  checkEnemyHitLoop rest
                    (set_pm w3 (modifyProjectile (sim_pm w3) p (p_set_pierce (p_pierce live - 1))))
                    p
                else
                  (true, set_pm w3 (modifyProjectile (sim_pm w3) p (p_set_active false)))
              | None => (true, w3)
              end
          else checkEnemyHitLoop rest w p
        end
    | _, _ => checkEnemyHitLoop rest w p
    end
  end.

Definition checkEnemyHit (w : Sim) (p : ploc) : bool * Sim :=
  checkEnemyHitLoop (enemies (em (sim_store w))) w p.

Definition checkPlayerHit (w : Sim) (p : ploc) : bool * Sim :=
  match player (em (sim_store w)), projs (sim_pm w) !! p with
  | Some pl, Some projectile =>
    match objs (sim_store w) !! pl with
    | None => (false, w)
    | Some ent =>
      if negb (e_active ent) then (false, w)
      else
        match getTransform ent with
        | None => (false, w)
        | Some transform =>
          if overlaps projectile ent transform then
            if bool_decide (e_id ent ∈ hitIds projectile) then (false, w)
            else
              let w1 := if enableFriendlyFire (pm_config (sim_pm w)) || isEnemyProjectile projectile
                        then strike w pl projectile else w in
              (true,
               set_pm w1 (modifyProjectile (sim_pm w1) p (fun q =>
                 p_set_active false (p_set_hitIds (hitIds q ∪ {[e_id ent]}) q))))
          else (false, w)
        end
    end
  | _, _ => (false, w)
  end.

(** One turn of the loop of [update] at index [i]: the next index and the
    state.  The index stays where it is when the projectile under it was
    released. *)
Definition updateAt (w : Sim) (i : nat) (dt : Q) : nat * Sim :=
  match active (sim_pm w) !! i with
  | None => (i, w)
  | Some p =>
    match projs (sim_pm w) !! p with
    | None => (S i, w)
    | Some p0 =>
      if negb (p_active p0) then (i, set_pm w (releaseAtIndex (sim_pm w) i))
      else
        let lifetime := (p_lifetime p0 - dt)%Q in
        let pm1 := modifyProjectile (sim_pm w) p (p_set_lifetime lifetime) in
        if Qle_bool lifetime 0 then
          (i, set_pm w (releaseAtIndex (modifyProjectile pm1 p (p_set_active false)) i))
        else
          let moved := p_set_pos (p_x p0 + p_dirX p0 * p_speed p0 * dt)%Q
                                 (p_y p0 + p_dirY p0 * p_speed p0 * dt)%Q
                                 (p_set_lifetime lifetime p0) in
          let pm2 := modifyProjectile pm1 p (fun _ => moved) in
          let '(blocked, tm') := collidesWithWall (sim_tileMap w) moved in
          let w2 := mkSim pm2 tm' (sim_combat w) (sim_store w) in
          if blocked then
            (i, set_pm w2 (releaseAtIndex (modifyProjectile pm2 p (p_set_active false)) i))
          else
            let '(hit, w3) :=
              if isPlayerProjectile moved then checkEnemyHit w2 p
              else if isEnemyProjectile moved then checkPlayerHit w2 p
              else (false, w2) in
            let stillActive := match projs (sim_pm w3) !! p with
                               | Some live => p_active live
                               | None => false
                               end in
            if hit || negb stillActive
            then (i, set_pm w3 (releaseAtIndex (sim_pm w3) i))
            else (S i, w3)
    end
  end.

(** [update(dt)]: the loop runs until the index passes the end of the active
    list; [fuel] bounds the number of turns. *)
Fixpoint updateFrom (fuel : nat) (w : Sim) (i : nat) (dt : Q) : option Sim :=
  match fuel with
  | O => None
  | S fuel' =>
    if (length (active (sim_pm w)) <=? i)%nat then Some w
    else let '(i', w') := updateAt w i dt in updateFrom fuel' w' i' dt
  end.

Definition update (fuel : nat) (w : Sim) (dt : Q) : option Sim := updateFrom fuel w 0 dt.

End Projectiles.

(** ** world/TileMap.ts: dirty tiles, flags, neighbours, overlays *)

Definition set_overlayTTL (tm : TileMap) (a : list Z) : TileMap :=
  mkTileMap (width tm) (height tm) (virtualPixelScale tm) (mask tm) (hp tm)
    (durability tm) (usage tm) a (occupants tm) (dirtyTiles tm).

(** [consumeDirtyTiles()]: the coordinates of the dirty indices, and the map
    with its dirty list emptied.  [Math.floor(idx / width)] is the floor
    division of [Z] for a width other than 0. *)
Definition consumeDirtyTiles (tm : TileMap) : list (Z * Z) * TileMap :=
  (List.map (fun idx => let y := idx / width tm in (idx - y * width tm, y)) (dirtyTiles tm),
   set_dirtyTiles tm []).

Definition setWalkable (tm : TileMap) (x y : Z) (walkable : bool) : TileMap :=
  if negb (inBounds tm x y) then tm
  else
    let idx := index tm x y in
    let m := readArr (mask tm) idx in
    let flags := decodeFlags m in
    let flags := if walkable then Z.lor flags FlagBits.Walkable
                 else Z.land flags (Z.lnot FlagBits.Walkable) in
    set_mask tm (writeArr (mask tm) idx
      (encode (decodeBase m) flags (decodeDecor m) (decodeEffect m) (decodeState m))).

Definition setBlocked (tm : TileMap) (x y : Z) (blocked : bool) : TileMap :=
  if negb (inBounds tm x y) then tm
  else
    let idx := index tm x y in
    let m := readArr (mask tm) idx in
    let flags := decodeFlags m in
    let flags := if blocked then Z.lor flags FlagBits.Blocked
                 else Z.land flags (Z.lnot FlagBits.Blocked) in
    set_mask tm (writeArr (mask tm) idx
      (encode (decodeBase m) flags (decodeDecor m) (decodeEffect m) (decodeState m))).

Definition getNeighbors (tm : TileMap) (x y : Z) : list (Z * Z) :=
  forZ (-1) 2 (fun dy out =>
    forZ (-1) 2 (fun dx out =>
      if (dx =? 0) && (dy =? 0) then out
      else if inBounds tm (x + dx) (y + dy) then out ++ [(x + dx, y + dy)] else out) out) [].


(** The integer a typed array keeps of a real number: its fraction dropped. *)
Definition Math_trunc (a : Q) : Z := if Qle_bool 0 a then Qfloor a else Qceiling a.

(** [tick(deltaMs)]: the overlay timers run down; an overlay whose timer
    reaches 0 is cleared. *)
Definition tick (tm : TileMap) (deltaMs : Q) : TileMap :=
  forZ 0 (width tm * height tm) (fun i tm =>
    if 0 <? readArr (overlayTTL tm) i then
      let d := Math_min (inject_Z (readArr (overlayTTL tm) i)) deltaMs in
      let tm1 := set_overlayTTL tm (writeArr (overlayTTL tm) i
                   (ToUint16 (Math_trunc (inject_Z (readArr (overlayTTL tm) i) - d)))) in
      if readArr (overlayTTL tm1) i =? 0 then
        let m := readArr (mask tm1) i in
        set_mask tm1 (writeArr (mask tm1) i
          (encode (decodeBase m) (decodeFlags m) (decodeDecor m) 0 (decodeState m)))
      else tm1
    else tm) tm.

(** ** entities/components: the timers, and [Entity.removeComponent] *)

Module Health.
(** [HealthComponent.update(dt)]. *)
Definition update (h : HealthComponent) (dt : Q) : HealthComponent :=
  if Qltb 0 (h_invulnTimer h)
  then mkHealth (h_max h) (h_current h) (Math_max 0 (h_invulnTimer h - dt)%Q)
  else h.
End Health.

Module Attack.

Definition tick (a : AttackComponent) (dt : Q) : AttackComponent :=
  mkAttack (a_damage a) (a_cooldown a) (a_range a)
    (if Qltb 0 (a_timer a) then Math_max 0 (a_timer a - dt)%Q else a_timer a)
    (if Qltb 0 (a_lockTimer a) then Math_max 0 (a_lockTimer a - dt)%Q else a_lockTimer a).

End Attack.

Definition removeComponent (e : Entity) (name : string) : Entity :=
  mkEntity (e_id e) (e_type e) (e_active e) (e_flags e) (delete name (e_components e)).

(** ** entities/SpawnController.ts: the periodic spawner *)

Definition set_initialized (sc : SpawnController) (b : bool) : SpawnController :=
  mkSpawnController (registry sc) (config sc) (worldWidth sc) (worldHeight sc)
    (tileSize sc) (getPlayer sc) (onEnemySpawn sc) (spawnTimerMs sc)
    b (weightTotal sc) (spawnCounts sc).

Definition set_spawnTimerMs (sc : SpawnController) (t : Q) : SpawnController :=
  mkSpawnController (registry sc) (config sc) (worldWidth sc) (worldHeight sc)
    (tileSize sc) (getPlayer sc) (onEnemySpawn sc) t
    (initialized sc) (weightTotal sc) (spawnCounts sc).

Section Spawner.
Context `{MathLib}.

Definition initialize (depth : nat) (sc : SpawnController) (tm : option TileMap)
    (s : Store) (r : Rand) : option (SpawnController * Store * Rand) :=
  if initialized sc then Some (sc, s, r)
  else
    let sc1 := set_initialized sc true in
    if 0 <? initialSpawnCount (config sc1)
    then spawnBatch depth sc1 tm s r (initialSpawnCount (config sc1))
    else Some (sc1, s, r).

Definition spawnToFill (depth : nat) (sc : SpawnController) (tm : option TileMap)
    (s : Store) (r : Rand) : option (SpawnController * Store * Rand) :=
  if maxEnemies (config sc) <=? 0
  then spawnBatch depth sc tm s r (intervalSpawnCount (config sc))
  else if maxEnemies (config sc) <=? currentEnemies s then Some (sc, s, r)
  else
    let deficit := maxEnemies (config sc) - currentEnemies s in
    spawnBatch depth sc tm s r (Z.min (intervalSpawnCount (config sc)) deficit).

(** [update(dt)] of the controller. *)
Definition spawnUpdate (depth : nat) (sc : SpawnController) (tm : option TileMap)
    (s : Store) (r : Rand) (dt : Q) : option (SpawnController * Store * Rand) :=
  match (if negb (initialized sc) then initialize depth sc tm s r else Some (sc, s, r)) with
  | None => None
  | Some (sc1, s1, r1) =>
    if Qle_bool (spawnIntervalMs (config sc1)) 0 then Some (sc1, s1, r1)
    else
      let timer := (spawnTimerMs sc1 + dt * (1000 / 60))%Q in
      if Qle_bool (spawnIntervalMs (config sc1)) timer
      then spawnToFill depth (set_spawnTimerMs sc1 0) tm s1 r1
      else Some (set_spawnTimerMs sc1 timer, s1, r1)
  end.

End Spawner.

(** ** entities/projectiles/ProjectileManager.ts: the constructor *)

(** [preallocatePool(count)]. *)
Definition preallocatePool (pm : ProjectileManager) (count : Z) : ProjectileManager :=
  forZ 0 count (fun _ pm =>
    let '(r, pm1) := allocProjectile pm in
    set_lists pm1 (pool pm1 ++ [r]) (active pm1)) pm.

(** [new ProjectileManager(entityManager, {registry, config})]; in the map
    built from the registry a later entry replaces an earlier one of the
    same key. *)
Definition newProjectileManager (reg : list ProjectileTypeDefinition)
    (cfg : ProjectileSystemConfig) : ProjectileManager :=
  preallocatePool
    (mkPM (list_to_map ((fun t => (pt_key t, t)) <$> reverse reg)) cfg [] [] 1 ∅ 0%nat)
    (poolSize cfg).

(** * Vocabulary of the statements *)

(** Relations, predicates and concrete inputs the properties below are
    stated with. *)

(** A rational stand-in for the floating point library, used to run the
    model on inputs whose execution never reaches these functions. *)
Definition standInMath : MathLib :=
  {| Math_cos := fun _ => 1%Q; Math_sin := fun _ => 0%Q;
     Math_sqrt := fun q => q; Math_PI := (355 # 113)%Q |}.

(** The default registry under a configuration whose [maxEnemies] is 0. *)
Definition uncappedController : SpawnController :=
  newSpawnController DEFAULT_REGISTRY
    (mkSpawnConfig 100 0 5 0 96 168 ModeAroundPlayer true false true false)
    320 180 4 None None.

Definition halfDraws : Rand := mkRand (fun _ => (1 # 2)%Q) 0.

(** One wave whose table has a cheap type (cost 1) and an expensive one
    (cost 5), accruing one unit of budget per second. *)
Definition twoCostWave : WaveDefinition :=
  mkWave 30 1 (<["SmallChaser" := 1%Q]> (<["Tank" := 5%Q]> ∅))
    [("SmallChaser", 1%Q); ("Tank", 1%Q)] None.

Definition twoCostManager : WaveManager :=
  mkWaveManager [twoCostWave] ∅ 4 false true
    (Some (mkCtx twoCostWave 0 0 0 ∅ (enemyCosts twoCostWave ∪ ∅))) 0 true.

Definition threeQuarterDraws : Rand := mkRand (fun _ => (3 # 4)%Q) 0.

Definition capped300Controller : SpawnController :=
  newSpawnController DEFAULT_REGISTRY DEFAULT_SPAWN_CONFIG 320 180 4 None None.

(** The tile a sample point lands on. *)
Definition sampleTile (tm : TileMap) (s : Q * Q) : Z * Z :=
  (Math_floor (fst s / virtualPixelScale tm), Math_floor (snd s / virtualPixelScale tm)).

(** A sample that does not stop the scan: inside the grid, on a tile that is
    not blocked. *)
Definition clearSample (tm : TileMap) (s : Q * Q) : Prop :=
  inBounds tm (fst (sampleTile tm s)) (snd (sampleTile tm s)) = true /\
  isBlocked tm (fst (sampleTile tm s)) (snd (sampleTile tm s)) = false.

(** A 3 x 3 grid of 4-pixel tiles whose centre tile is a wall of [hp] hit
    points, and a player-owned projectile that the step moves onto it. *)
Definition wallGrid (hitPoints : Z) : TileMap :=
  setWallTile (newTileMap 3 3 4) 1 1 hitPoints false.

Definition bullet : Projectile :=
  mkProjectile 1 (mkProjType "playerBullet" 3 11 180 (3 # 10) (Some (45 # 100)) (Some 16777215))
    None 5 6 1 0 1 11 180 1 (1 # 2) 0 ∅ [] 0 72 None true false true.

Definition wallSim (hitPoints : Z) : Sim :=
  mkSim (mkPM ∅ DEFAULT_PROJECTILE_CONFIG [] [0%nat] 2 (<[0%nat := bullet]> ∅) 1%nat)
    (Some (wallGrid hitPoints)) None emptyStore.




(** The terrain layer of a packed tile: its base and its flags (the low 16
    bits); decor, effect and state live above. *)
Definition terrainOf (m : Z) : Z := Z.land m 65535.

Definition terrain (tm : TileMap) : list Z := terrainOf <$> mask tm.

(** Two grids of the same size with the same terrain layer. *)
Definition sameTerrain (t1 t2 : TileMap) : Prop :=
  width t1 = width t2 /\ height t1 = height t2 /\ terrain t1 = terrain t2.

(** Two runs that may not finish: both stop short, or both finish in
    related states. *)
Definition bothOr {A B : Type} (R : A -> B -> Prop) (o1 : option A) (o2 : option B) : Prop :=
  match o1, o2 with
  | Some a, Some b => R a b
  | None, None => True
  | _, _ => False
  end.

Definition floorTerrain : Z := 259.

(** The state a border walk threads: grid, generator, two thicknesses. *)
Definition sameWalk (a b : TileMap * Z * Z * Z) : Prop :=
  sameTerrain (fst (fst (fst a))) (fst (fst (fst b))) /\
  snd (fst (fst a)) = snd (fst (fst b)) /\
  snd (fst a) = snd (fst b) /\ snd a = snd b.

(** A grid with a generator state, and with the tally [scatterBlobs] keeps. *)
Definition sameGridRng (a b : TileMap * Z) : Prop :=
  sameTerrain (fst a) (fst b) /\ snd a = snd b.

Definition sameGridRngAnd {A : Type} (a b : TileMap * Z * A) : Prop :=
  sameTerrain (fst (fst a)) (fst (fst b)) /\ snd (fst a) = snd (fst b) /\ snd a = snd b.

Definition sameAttempt (a b : Attempt) : Prop :=
  sameTerrain (at_tileMap a) (at_tileMap b) /\
  at_seed a = at_seed b /\ at_bounds a = at_bounds b /\
  at_reachableRatio a = at_reachableRatio b /\
  at_walkableRatio a = at_walkableRatio b.

(** What the attempt loop hands on: the same result if one was accepted,
    grids of the same terrain then, and in any case grids that [paintBase]
    makes the same. *)
Definition sameOutcome (a b : option MapGenerationResult * TileMap) : Prop :=
  fst a = fst b /\
  sameTerrain (paintBase (snd a)) (paintBase (snd b)) /\
  (is_Some (fst a) -> sameTerrain (snd a) (snd b)).

Definition sameResult (a b : MapGenerationResult * TileMap) : Prop :=
  fst a = fst b /\ sameTerrain (snd a) (snd b).

(** What no generator pass changes: the size of the grid and of its arrays. *)
Definition gridShape (tm : TileMap) : Z * Z * nat * nat * nat :=
  (width tm, height tm, length (mask tm), length (hp tm), length (durability tm)).

(** A fresh 3 x 3 grid, and the same grid after a Grass decor overlay was put
    on its centre tile. *)
Definition freshGrid : TileMap := newTileMap 3 3 4.

Definition decoratedGrid : TileMap := setDecorOverlay freshGrid 1 1 1.

(** A configuration without blobs, safe zone or loops, a border one tile
    thick, seed 1, one attempt, and the given required ratio. *)
Definition plainConfig (required : Q) : PartialConfig :=
  mkPartial (Some 1) (Some 0%Q) (Some 0) (Some 0) None None None (Some 0) (Some 0) None None
    (Some required) (Some 1) (Some (1, 1)) (Some 1) (Some 1) (Some 1).

(** A registry whose single type has the empty string for key. *)
Definition namelessController : SpawnController :=
  newSpawnController [mkEnemyType "" 1 0 1 (mkStats 10 5 1) None] DEFAULT_SPAWN_CONFIG
    320 180 4 None None.

(** A controller whose cap of one enemy is reached by [enemyStore]. *)
Definition fullController : SpawnController :=
  newSpawnController DEFAULT_REGISTRY
    (mkSpawnConfig 100 0 5 1 96 168 ModeAroundPlayer true false true false)
    320 180 4 None None.

(** A store whose only entity is the player. *)
Definition playerStore : Store := snd (createEntity emptyStore "player").

(** A store with one enemy of 10 health points. *)
Definition enemyStore : Store :=
  let '(e, s) := createEntity emptyStore "enemy" in
  updateEntity s e (fun x => addComponent x (CHealth (newHealth 10 0))).

(** The context of [twoCostManager] after one second of accrual. *)
Definition accruedContext : ActiveWaveContext :=
  mkCtx twoCostWave 0 1 1 ∅ (enemyCosts twoCostWave ∪ ∅).

(** Two enemies side by side, a combat system, and a player-owned projectile
    with [pierce = 1] that the step moves onto both. *)
Definition twoEnemyStore : Store :=
  let '(e1, s1) := createEntity emptyStore "enemy" in
  let s1 := updateEntity s1 e1 (fun x =>
              addComponent (addComponent x (CTransform (newTransform 5 5 2 2)))
                (CHealth (newHealth 20 0))) in
  let '(e2, s2) := createEntity s1 "enemy" in
  updateEntity s2 e2 (fun x =>
    addComponent (addComponent x (CTransform (newTransform 6 5 2 2)))
      (CHealth (newHealth 20 0))).

Definition piercingBullet : Projectile :=
  mkProjectile 1 (mkProjType "playerBullet" 3 11 180 (3 # 10) (Some (45 # 100)) (Some 16777215))
    None 5 6 1 0 1 11 180 1 (1 # 2) 1 ∅ [] 0 72 None true false true.

Definition pierceSim : Sim :=
  mkSim (mkPM ∅ DEFAULT_PROJECTILE_CONFIG [] [0%nat] 2 (<[0%nat := piercingBullet]> ∅) 1%nat)
    None (Some newCombatSystem) twoEnemyStore.


(** ** Vocabulary of the properties beyond the specification *)

(** [k] hits of one point of damage on the tile at [(x, y)]. *)
Definition hitWall (tm : TileMap) (x y : Z) (k : nat) : TileMap :=
  Nat.iter k (fun t => snd (damageWallTile t x y 1)) tm.




(** The invariant of the entity store: every reference the manager holds was
    handed out by [createEntity], and so was every object; every id in use
    lies below the next id. *)
Definition store_wf (s : Store) : Prop :=
  (forall r, r ∈ entities (em s) -> (r < nextLoc s)%nat) /\
  (forall r, r ∈ enemies (em s) -> (r < nextLoc s)%nat) /\
  (forall r, r ∈ pickups (em s) -> (r < nextLoc s)%nat) /\
  (forall r, player (em s) = Some r -> (r < nextLoc s)%nat) /\
  (forall r e, objs s !! r = Some e -> (r < nextLoc s)%nat /\ e_id e < nextId (em s)).

(** A pass that only opens ground: the grid keeps its size, and every tile
    that was walkable still is. *)
Definition opens (tm tm' : TileMap) : Prop :=
  gridShape tm' = gridShape tm /\
  forall x y, isWalkable tm x y = true -> isWalkable tm' x y = true.

(** The number of tiles the flood fill has not marked yet. *)
Definition unvisited (visited : list Z) : nat :=
  length (List.filter (fun v => v =? 0) visited).

(** An indestructible wall tile, as [setWallTile(x, y, _, true)] leaves it. *)
Definition solidWall (t : TileMap) (x y : Z) : Prop :=
  inBounds t x y = true /\
  decodeBase (readArr (mask t) (index t x y)) = BaseType.Wall /\
  decodeFlags (readArr (mask t) (index t x y)) = Z.lor FlagBits.Blocked FlagBits.LosBlock /\
  readArr (hp t) (index t x y) = 32767 /\
  readArr (durability t) (index t x y) = 255.

(** A tile of the outer ring of the grid. *)
Definition onBorder (t : TileMap) (x y : Z) : Prop :=
  x = 0 \/ x = width t - 1 \/ y = 0 \/ y = height t - 1.

(** The test [extractMetadata] applies to a walkable tile before listing it
    as a spawn point: outside the safe zone widened by 9, with four walkable
    neighbours. *)
Definition spawnable (tm : TileMap) (config : MapGenerationConfig) (p : Z * Z) : bool :=
  isWalkable tm (fst p) (snd p) &&
  (safeZoneRadius config * safeZoneRadius config + 9 <?
     (fst p - fst (gc_spawn config)) * (fst p - fst (gc_spawn config)) +
     (snd p - snd (gc_spawn config)) * (snd p - snd (gc_spawn config))) &&
  hasClearNeighbors tm (fst p) (snd p).

(** What [extractMetadata] has recorded once it has visited the tiles of [D]. *)
Definition recorded (tm : TileMap) (config : MapGenerationConfig) (D : Z * Z -> Prop)
    (n : Z) (md : Metadata) : Prop :=
  (forall p, D p -> 0 <= fst p < width tm /\ 0 <= snd p < height tm) /\
  (forall p, p ∈ md_walkableTiles md <-> D p /\ isWalkable tm (fst p) (snd p) = true) /\
  (forall p, p ∈ md_obstacleTiles md <-> D p /\ isWalkable tm (fst p) (snd p) = false) /\
  (forall p, p ∈ md_spawnableTiles md <-> D p /\ spawnable tm config p = true) /\
  length (md_collisionGrid md) = Z.to_nat (width tm * height tm) /\
  (forall p, D p ->
     readArr (md_collisionGrid md) (snd p * width tm + fst p)
       = if isWalkable tm (fst p) (snd p) then 0 else 1) /\
  Z.of_nat (length (md_walkableTiles md) + length (md_obstacleTiles md)) = n.

(** A wave with one timed event, a burst of one Tank at time 0, and its
    context one second in. *)
Definition burstWave : WaveDefinition :=
  mkWave 30 1 (<["Tank" := 5%Q]> ∅) [("Tank", 1%Q)]
    (Some [mkEvent 0 BurstSpawn (Some [mkGroup "Tank" 1]) None None None None]).

Definition burstContext : ActiveWaveContext :=
  mkCtx burstWave 0 1 1 ∅ (enemyCosts burstWave).

(** The number of projectile objects the manager holds on to. *)
Definition held (pm : ProjectileManager) : nat := (length (active pm) + length (pool pm))%nat.

(** The invariant of a pooling manager: at most [bound] objects held, with
    room for [maxProjectiles] of them. *)
Definition poolBounded (bound : nat) (pm : ProjectileManager) : Prop :=
  enableObjectPooling (pm_config pm) = true /\
  maxProjectiles (pm_config pm) <= Z.of_nat bound /\
  (held pm <= bound)%nat.

(** * Properties *)

(** ** TileMap.damageWallTile *)

(** C9. For coordinates out of bounds, or whose tile base is not Wall,
    [damageWallTile] returns false and leaves the whole tile map as it was;
    and whenever a call changes the hp array at all, the target was an
    in-bounds Wall tile with durability below 200. *)
Theorem C9_damageWallTile_guards (tm : TileMap) (x y amount : Z) :
  ((inBounds tm x y = false \/
    decodeBase (readArr (mask tm) (index tm x y)) <> BaseType.Wall) ->
   damageWallTile tm x y amount = (false, tm)) /\
  (hp (snd (damageWallTile tm x y amount)) <> hp tm ->
   inBounds tm x y = true /\
   decodeBase (readArr (mask tm) (index tm x y)) = BaseType.Wall /\
   readArr (durability tm) (index tm x y) < 200).
Proof.
  unfold damageWallTile. split.
  - intros [Hb | Hw].
    + now rewrite Hb.
    + destruct (inBounds tm x y); [|reflexivity]. cbn [negb].
      destruct (Z.eqb_spec (decodeBase (readArr (mask tm) (index tm x y))) BaseType.Wall);
        [contradiction | reflexivity].
  - destruct (inBounds tm x y); cbn [negb]; [|intros H; now elim H].
    destruct (Z.eqb_spec (decodeBase (readArr (mask tm) (index tm x y))) BaseType.Wall);
      cbn [negb]; [|intros H; now elim H].
    destruct (Z.leb_spec 200 (readArr (durability tm) (index tm x y)));
      [intros Hc; now elim Hc|].
    intros _. repeat split; assumption.
Qed.

(** ** EntityManager.removeEntity *)

Lemma filter_isNot_idem (entity : loc) (l : list loc) :
  List.filter (isNot entity) (List.filter (isNot entity) l) = List.filter (isNot entity) l.
Proof.
  induction l as [|a l IH]; [reflexivity|]. cbn.
  destruct (isNot entity a) eqn:E; cbn; rewrite ?E, IH; reflexivity.
Qed.

Lemma filter_isNot_notin (entity : loc) (l : list loc) :
  entity ∉ List.filter (isNot entity) l.
Proof.
  intros Hin. apply list_elem_of_In, filter_In in Hin. destruct Hin as [_ Hn].
  unfold isNot in Hn. rewrite Nat.eqb_refl in Hn. discriminate.
Qed.

(** C10. After [removeEntity] the entity object is inactive, its reference
    occurs in none of the three lists, the player slot no longer holds it
    (it is cleared when it held it), and a second call with the same entity
    changes nothing. *)
Theorem C10_removeEntity_idempotent (s : Store) (entity : loc) :
  let s1 := removeEntity s entity in
  (forall ent, objs s !! entity = Some ent ->
     objs s1 !! entity = Some (set_active ent false)) /\
  (entity ∉ entities (em s1)) /\
  (entity ∉ enemies (em s1)) /\
  (entity ∉ pickups (em s1)) /\
  (player (em s) = Some entity -> player (em s1) = None) /\
  player (em s1) <> Some entity /\
  removeEntity s1 entity = s1.
Proof.
  cbn zeta. unfold removeEntity; cbn [objs em entities enemies pickups player nextLoc nextId].
  repeat split.
  - intros ent Hent. rewrite lookup_alter_eq, Hent. reflexivity.
  - apply filter_isNot_notin.
  - apply filter_isNot_notin.
  - apply filter_isNot_notin.
  - intros Hp. destruct (decide (player (em s) = Some entity)); [reflexivity|contradiction].
  - destruct (decide (player (em s) = Some entity)); [discriminate|assumption].
  - rewrite !filter_isNot_idem. f_equal.
    + apply map_eq. intros i. rewrite !lookup_alter.
      repeat case_decide; subst; try reflexivity; try congruence.
      destruct (objs s !! i) as [e|]; reflexivity.
    + f_equal.
      destruct (decide (player (em s) = Some entity)) as [E|E].
      * destruct (decide (None = Some entity)); [discriminate|reflexivity].
      * destruct (decide (player (em s) = Some entity)); [contradiction|reflexivity].
Qed.

(** ** CombatSystem.applyDamage *)



Lemma Qle_bool_false (a b : Q) : Qle_bool a b = false -> (b < a)%Q.
Proof.
  intros E. apply Qnot_le_lt. intros H. apply Qle_bool_iff in H. congruence.
Qed.


Lemma getHealth_setHealth (e : Entity) (h : HealthComponent) :
  getHealth (setHealth e h) = Some h.
Proof.
  unfold getHealth, getComponent, setHealth; cbn. now rewrite lookup_insert_eq.
Qed.

Lemma getHealth_set_active (e : Entity) (b : bool) :
  getHealth (set_active e b) = getHealth e.
Proof. reflexivity. Qed.


(** ** SpawnController: capacity *)

Section SpawnFacts.
Context `{MathLib}.

Lemma createEntity_enemy (s : Store) :
    currentEnemies (snd (createEntity s "enemy")) = currentEnemies s + 1.
Proof.
    unfold currentEnemies, createEntity; cbn. rewrite length_app; cbn. lia.
Qed.

Lemma spawnOne_forced depth sc tm s r et res s1 r1 :
    spawnOne depth sc tm s r (Some et) = Some (res, (s1, r1)) ->
    res = Some (et_type et) /\ currentEnemies s1 = currentEnemies s + 1.
Proof.
    unfold spawnOne.
    destruct (pickSizeScale sc et r) as [sizeScale r0].
    destruct (pickSpawnPosition depth sc tm s r0) as [[spawnPos r2]|]; [|discriminate].
    pose proof (createEntity_enemy s) as Hc.
    destruct (createEntity s "enemy") as [enemy s'].
    intros [= <- <- <-]. split; [reflexivity|exact Hc].
Qed.

Lemma spawnTypeLoop_count n : forall depth sc tm s r et spawned k sc' s' r',
    spawnTypeLoop n depth sc tm s r et spawned = Some (k, (sc', s', r')) ->
    spawned <= k <= spawned + Z.of_nat n /\
    (et_type et <> "" ->
     k = spawned + Z.of_nat n /\ currentEnemies s' = currentEnemies s + Z.of_nat n).
Proof.
    induction n as [|n IH]; intros depth sc tm s r et spawned k sc' s' r'; cbn [spawnTypeLoop].
    - intros [= <- <- <- <-]. split; [lia|]. intros _. split; lia.
    - destruct (spawnOne depth sc tm s r (Some et)) as [[res [s1 r1]]|] eqn:E; [|discriminate].
      apply spawnOne_forced in E as [-> Hc].
      destruct (String.eqb_spec (et_type et) "") as [Heq|Hne].
      + intros [= <- <- <- <-]. split; [lia|]. intros Hn. contradiction.
      + intros Hl. apply IH in Hl as [Hb Hk]. split; [lia|].
        intros Hn. destruct (Hk Hn) as [-> ->]. rewrite Hc. split; lia.
Qed.

  (** Without a tile map a placement never recurses. *)
Lemma pickSpawnPosition_no_map depth sc s r :
    (0 < depth)%nat -> is_Some (pickSpawnPosition depth sc None s r).
Proof.
    intros Hd. destruct depth as [|d]; [lia|].
    unfold pickSpawnPosition, pickAroundPlayerPosition, pickTilePosition.
    assert (Hw : forall r', is_Some (pickRandomWorldPosition (S d) sc None r')).
    { intros r'. cbn. eexists; reflexivity. }
    destruct (spawnMode (config sc)); try apply Hw.
    destruct (match match getPlayer sc with Some f => f s | None => None end with
              | Some p => _ | None => None end); [|apply Hw].
    cbn. eexists; reflexivity.
Qed.

Lemma spawnOne_no_map depth sc s r forced :
    (0 < depth)%nat -> is_Some (spawnOne depth sc None s r forced).
Proof.
    intros Hd. unfold spawnOne.
    destruct (match forced with Some t => (Some t, r) | None => pickEnemyType sc r end)
      as [[et|] r0]; [|eexists; reflexivity].
    destruct (pickSizeScale sc et r0) as [sizeScale r1].
    destruct (pickSpawnPosition_no_map depth sc s r1 Hd) as [[pos r2] ->].
    destruct (createEntity s "enemy"). eexists; reflexivity.
Qed.

Lemma spawnTypeLoop_no_map n : forall depth sc s r et spawned,
    (0 < depth)%nat -> is_Some (spawnTypeLoop n depth sc None s r et spawned).
Proof.
    induction n as [|n IH]; intros depth sc s r et spawned Hd; cbn [spawnTypeLoop].
    - eexists; reflexivity.
    - destruct (spawnOne_no_map depth sc s r (Some et) Hd) as [[res [s1 r1]] ->].
      destruct res as [key|]; [|eexists; reflexivity].
      destruct (String.eqb key ""); [eexists; reflexivity|]. now apply IH.
Qed.

Lemma spawnEnemyType_no_map depth sc s r type count :
    (0 < depth)%nat -> is_Some (spawnEnemyType depth sc None s r type count).
Proof.
    intros Hd. unfold spawnEnemyType.
    destruct (List.find _ (registry sc)); [|eexists; reflexivity].
    destruct (_ <=? 0); [eexists; reflexivity|]. now apply spawnTypeLoop_no_map.
Qed.

End SpawnFacts.

Lemma find_type_key (type : string) (reg : list EnemyTypeConfig) (et : EnemyTypeConfig) :
  List.find (fun e => String.eqb (et_type e) type) reg = Some et -> et_type et = type.
Proof.
  intros Hf. apply find_some in Hf as [_ Heq]. now apply String.eqb_eq.
Qed.

Lemma rollRegistry_member (reg : list EnemyTypeConfig) : forall roll cumulative et,
  rollRegistry reg roll cumulative = Some et -> et ∈ reg.
Proof.
  induction reg as [|entry rest IH]; intros roll cumulative et; cbn; [discriminate|].
  destruct (Qle_bool roll _).
  - intros [= ->]. left.
  - intros Hr. right. eapply IH, Hr.
Qed.

(** With draws in [0, 1) and a registry that is not empty, [pickEnemyType]
    always answers with an entry of the registry. *)
Lemma pickEnemyType_member (sc : SpawnController) (r : Rand) :
  registry sc <> [] -> rand_ok r ->
  exists et, fst (pickEnemyType sc r) = Some et /\ et ∈ registry sc.
Proof.
  intros Hne Hok. unfold pickEnemyType.
  destruct (Nat.eqb_spec (length (registry sc)) 0) as [Hl|Hl].
  { destruct (registry sc); [contradiction|discriminate]. }
  destruct (negb (useWeightedSpawns (config sc)) || Qle_bool (weightTotal sc) 0);
    unfold Math_random; cbn [fst].
  - destruct (Hok (cursor r)) as [H0 H1].
    set (len := Z.of_nat (length (registry sc))).
    set (u := draws r (cursor r)) in *.
    assert (Hlen : (0 < inject_Z len)%Q).
    { change 0%Q with (inject_Z 0). rewrite <- Zlt_Qlt. unfold len. lia. }
    assert (Hlo : 0 <= Math_floor (u * inject_Z len)).
    { change 0 with (Qfloor (inject_Z 0)) at 1. apply Qfloor_resp_le.
      change (inject_Z 0) with 0%Q. apply Qmult_le_0_compat; [assumption|lra]. }
    assert (Hhi : Math_floor (u * inject_Z len) < len).
    { rewrite Zlt_Qlt. eapply Qle_lt_trans; [apply Qfloor_le|].
      revert Hlen. generalize (inject_Z len). intros L HL. nra. }
    destruct (Z.ltb_spec (Math_floor (u * inject_Z len)) 0) as [Hneg|_]; [lia|].
    destruct (lookup_lt_is_Some_2 (registry sc) (Z.to_nat (Math_floor (u * inject_Z len))))
      as [et Het]; [clearbody u; subst len; lia|].
    exists et. split; [exact Het|]. eapply list_elem_of_lookup_2, Het.
  - destruct (rollRegistry (registry sc) _ 0) as [et|] eqn:E.
    + exists et. split; [reflexivity|]. eapply rollRegistry_member, E.
    + destruct (proj2 (last_is_Some (registry sc)) Hne) as [et Het].
      exists et. split; [exact Het|]. now apply last_Some_elem_of.
Qed.

Lemma pickEnemyType_draws (sc : SpawnController) (r : Rand) :
  draws (snd (pickEnemyType sc r)) = draws r.
Proof.
  unfold pickEnemyType.
  destruct (length (registry sc) =? 0)%nat; [reflexivity|].
  destruct (negb _ || _); reflexivity.
Qed.

Lemma pickSizeScale_draws (sc : SpawnController) (et : EnemyTypeConfig) (r : Rand) :
  draws (snd (pickSizeScale sc et r)) = draws r.
Proof. unfold pickSizeScale. destruct (negb _); reflexivity. Qed.

Lemma probeTiles_draws (n : nat) (sc : SpawnController) (tm : TileMap) : forall r,
  draws (snd (probeTiles n sc tm r)) = draws r.
Proof.
  induction n as [|n IH]; intros r; cbn; [reflexivity|].
  destruct (isWalkable tm _ _); [reflexivity|]. now rewrite IH.
Qed.

#[local] Arguments probeTiles : simpl never.

Lemma pickRandomWorldPosition_draws (depth : nat) (sc : SpawnController) (tm : option TileMap) :
  forall r pos r', pickRandomWorldPosition depth sc tm r = Some (pos, r') -> draws r' = draws r.
Proof.
  induction depth as [|d IH]; intros r pos r'; cbn; [discriminate|].
  destruct tm as [t|]; [|now intros [= <- <-]].
  destruct (negb (isWalkable t _ _)); [|now intros [= <- <-]].
  match goal with |- context [probeTiles 20 sc t ?r0] =>
    pose proof (probeTiles_draws 20 sc t r0) as Hp;
    destruct (probeTiles 20 sc t r0) as [[p|] r3] end; cbn in Hp.
  - now intros [= <- <-].
  - intros Hr. apply IH in Hr. now rewrite Hr, Hp.
Qed.

Lemma pickTilePosition_draws (depth : nat) (sc : SpawnController) (tm : option TileMap) :
  forall r pos r', pickTilePosition depth sc tm r = Some (pos, r') -> draws r' = draws r.
Proof.
  intros r pos r'. unfold pickTilePosition.
  destruct tm as [t|]; [|apply pickRandomWorldPosition_draws].
  pose proof (probeTiles_draws 20 sc t r) as Hp.
  destruct (probeTiles 20 sc t r) as [[p|] r3]; cbn in Hp.
  - now intros [= <- <-].
  - intros Hr. apply pickRandomWorldPosition_draws in Hr. now rewrite Hr, Hp.
Qed.

Section BatchFacts.
Context `{MathLib}.

Lemma pickSpawnPosition_draws depth sc tm s r pos r' :
    pickSpawnPosition depth sc tm s r = Some (pos, r') -> draws r' = draws r.
Proof.
    unfold pickSpawnPosition, pickAroundPlayerPosition.
    destruct (spawnMode (config sc));
      [apply pickRandomWorldPosition_draws| |apply pickTilePosition_draws].
    destruct (match match getPlayer sc with Some f => f s | None => None end with
              | Some p => _ | None => None end);
      [|apply pickRandomWorldPosition_draws].
    cbn. destruct (match tm with Some g => _ | None => false end).
    - intros Hr. now apply pickTilePosition_draws in Hr.
    - now intros [= <- <-].
Qed.

Lemma spawnOne_picked depth sc tm s r res s1 r1 :
    registry sc <> [] -> rand_ok r ->
    spawnOne depth sc tm s r None = Some (res, (s1, r1)) ->
    (exists et, res = Some (et_type et) /\ et ∈ registry sc) /\
    currentEnemies s1 = currentEnemies s + 1 /\ draws r1 = draws r.
Proof.
    intros Hne Hok. unfold spawnOne.
    destruct (pickEnemyType_member sc r Hne Hok) as (et & Hpick & Hin).
    pose proof (pickEnemyType_draws sc r) as Hd0.
    destruct (pickEnemyType sc r) as [picked r0]; cbn in Hpick, Hd0; subst picked.
    pose proof (pickSizeScale_draws sc et r0) as Hd1.
    destruct (pickSizeScale sc et r0) as [sizeScale r2]; cbn in Hd1.
    destruct (pickSpawnPosition depth sc tm s r2) as [[spawnPos r3]|] eqn:Hpos; [|discriminate].
    apply pickSpawnPosition_draws in Hpos.
    pose proof (createEntity_enemy s) as Hc.
    destruct (createEntity s "enemy") as [enemy s'].
    intros [= <- <- <-]. split; [eauto|]. split; [exact Hc|congruence].
Qed.

Lemma spawnBatchLoop_count n : forall depth sc tm s r sc' s' r',
    registry sc <> [] ->
    Forall (fun e => et_type e <> "") (registry sc) ->
    rand_ok r ->
    spawnBatchLoop n depth sc tm s r = Some (sc', s', r') ->
    currentEnemies s' = currentEnemies s + Z.of_nat n.
Proof.
    induction n as [|n IH]; intros depth sc tm s r sc' s' r' Hne Hall Hok;
      cbn [spawnBatchLoop].
    - intros [= <- <- <-]. lia.
    - destruct (spawnOne depth sc tm s r None) as [[res [s1 r1]]|] eqn:E; [|discriminate].
      apply spawnOne_picked in E as ((et & -> & Hin) & Hc & Hd); [|assumption..].
      pose proof (proj1 (Forall_forall _ _) Hall _ Hin) as Hkey.
      destruct (String.eqb_spec (et_type et) "") as [Heq|_]; [contradiction|].
      intros Hl. apply IH in Hl.
      + rewrite Hl, Hc. lia.
      + exact Hne.
      + exact Hall.
      + intros k. unfold rand_ok in Hok. rewrite Hd. apply Hok.
Qed.

End BatchFacts.

Section SpawnClaims.
Context `{MathLib}.

(** C7 (as amended). [spawnEnemyType] answers 0 and changes nothing for a type
    key that is not registered, and also when a positive cap leaves no room
    ([maxEnemies > 0] and [maxEnemies - currentEnemies <= 0]).  Whenever it
    returns, the number returned is not negative, under a positive cap it is
    at most [max 0 (min count (maxEnemies - currentEnemies))], and for a type
    key other than the empty string it is the number of enemies created.
    Without a tile map the call always returns. *)
Theorem C7_spawnEnemyType_capacity
    (depth : nat) (sc : SpawnController) (tm : option TileMap) (s : Store) (r : Rand)
    (type : string) (count : Z) :
  (List.find (fun e => String.eqb (et_type e) type) (registry sc) = None ->
   spawnEnemyType depth sc tm s r type count = Some (0, (sc, s, r))) /\
  (0 < maxEnemies (config sc) ->
   maxEnemies (config sc) - currentEnemies s <= 0 ->
   spawnEnemyType depth sc tm s r type count = Some (0, (sc, s, r))) /\
  (forall k sc' s' r',
     spawnEnemyType depth sc tm s r type count = Some (k, (sc', s', r')) ->
     0 <= k /\
     (0 < maxEnemies (config sc) ->
      k <= Z.max 0 (Z.min count (maxEnemies (config sc) - currentEnemies s))) /\
     (type <> "" -> currentEnemies s' = currentEnemies s + k)) /\
  (tm = None -> (0 < depth)%nat ->
   is_Some (spawnEnemyType depth sc tm s r type count)).
Proof.
  split; [|split; [|split]].
  - intros Hf. unfold spawnEnemyType. now rewrite Hf.
  - intros Hpos Hfull. unfold spawnEnemyType.
    destruct (List.find _ (registry sc)); [|reflexivity].
    destruct (Z.ltb_spec 0 (maxEnemies (config sc))) as [_|Hc]; [|lia].
    destruct (Z.leb_spec (Z.min count (Z.max 0 (maxEnemies (config sc) - currentEnemies s))) 0);
      [reflexivity|lia].
  - intros k sc' s' r'. unfold spawnEnemyType.
    destruct (List.find _ (registry sc)) as [et|] eqn:Hf.
    2:{ intros [= <- <- <- <-]. repeat split; lia. }
    apply find_type_key in Hf.
    set (toSpawn := if 0 <? maxEnemies (config sc) then _ else count).
    destruct (Z.leb_spec toSpawn 0) as [Hle|Hgt].
    { intros [= <- <- <- <-]. repeat split; lia. }
    intros Hl. apply spawnTypeLoop_count in Hl as [Hb Hk].
    split; [lia|]. split.
    + intros Hpos. subst toSpawn.
      destruct (Z.ltb_spec 0 (maxEnemies (config sc))) as [_|Hc]; [|lia]. lia.
    + intros Hne. rewrite Hf in Hk. destruct (Hk Hne) as [-> ->]. lia.
  - intros -> Hd. now apply spawnEnemyType_no_map.
Qed.

(** C8. With [maxEnemies <= 0] the cap is switched off: [getAvailableSlots]
    is [Number.MAX_SAFE_INTEGER]; [spawnEnemyType], for a registered type
    key other than the empty string, returns the full [count] and creates
    that many enemies whatever the current enemy count; [spawnBatch], for a
    registry that is not empty and has no empty type key, creates [count]
    enemies; without a tile map both calls always return. *)
Theorem C8_cap_disabled
    (depth : nat) (sc : SpawnController) (tm : option TileMap) (s : Store) (r : Rand)
    (count : Z) :
  maxEnemies (config sc) <= 0 ->
  getAvailableSlots sc s = 9007199254740991 /\
  (forall type k sc' s' r',
     is_Some (List.find (fun e => String.eqb (et_type e) type) (registry sc)) ->
     type <> "" -> 0 <= count ->
     spawnEnemyType depth sc tm s r type count = Some (k, (sc', s', r')) ->
     k = count /\ currentEnemies s' = currentEnemies s + count) /\
  (forall sc' s' r',
     registry sc <> [] ->
     Forall (fun e => et_type e <> "") (registry sc) ->
     rand_ok r -> 0 <= count ->
     spawnBatch depth sc tm s r count = Some (sc', s', r') ->
     currentEnemies s' = currentEnemies s + count) /\
  (tm = None -> (0 < depth)%nat ->
   forall type, is_Some (spawnEnemyType depth sc tm s r type count) /\
                is_Some (spawnBatch depth sc tm s r count)).
Proof.
  intros Hcap. split; [|split; [|split]].
  - unfold getAvailableSlots.
    destruct (Z.leb_spec (maxEnemies (config sc)) 0); [reflexivity|lia].
  - intros type k sc' s' r' [et Hf] Hne Hc. unfold spawnEnemyType. rewrite Hf.
    apply find_type_key in Hf.
    destruct (Z.ltb_spec 0 (maxEnemies (config sc))) as [Hpos|_]; [lia|].
    destruct (Z.leb_spec count 0) as [Hle|Hgt].
    + intros [= <- <- <- <-]. split; lia.
    + intros Hl. apply spawnTypeLoop_count in Hl as [_ Hk].
      rewrite Hf in Hk. destruct (Hk Hne) as [-> ->]. split; lia.
  - intros sc' s' r' Hreg Hall Hok Hc. unfold spawnBatch.
    destruct (Z.leb_spec count 0) as [Hle|Hgt].
    { intros [= <- <- <-]. lia. }
    destruct (Z.ltb_spec 0 (maxEnemies (config sc))) as [Hpos|_]; [lia|].
    destruct (Z.leb_spec count 0) as [Hle|_]; [lia|].
    intros Hl. apply spawnBatchLoop_count in Hl; [|assumption..]. lia.
  - intros -> Hd type. split; [now apply spawnEnemyType_no_map|].
    unfold spawnBatch. destruct (count <=? 0); [eexists; reflexivity|].
    destruct (_ <=? 0); [eexists; reflexivity|].
    generalize (Z.to_nat (if 0 <? maxEnemies (config sc)
                          then Z.min count (Z.max 0 (maxEnemies (config sc) - currentEnemies s))
                          else count)).
    intros n. revert sc s r Hcap. induction n as [|n IH]; intros sc s r Hcap; cbn [spawnBatchLoop].
    + eexists; reflexivity.
    + destruct (spawnOne_no_map depth sc s r None Hd) as [[res [s1 r1]] ->].
      destruct res as [key|]; [|eexists; reflexivity].
      destruct (String.eqb key ""); [eexists; reflexivity|]. now apply IH.
Qed.

End SpawnClaims.

(** C7, as first stated, fails: with [maxEnemies = 0] and no enemy alive,
    [maxEnemies - currentEnemies] is 0, yet [spawnEnemyType("Tank", 1)]
    returns 1 and the enemy list holds the new entity. *)
Lemma C7_counterexample_uncapped :
  maxEnemies (config uncappedController) - currentEnemies emptyStore = 0 /\
  (fst <$> spawnEnemyType (H := standInMath) 1 uncappedController None emptyStore
             halfDraws "Tank" 1) = Some 1 /\
  ((fun res => enemies (em (snd (fst (snd res))))) <$>
     spawnEnemyType (H := standInMath) 1 uncappedController None emptyStore
       halfDraws "Tank" 1) = Some [0%nat] /\
  ~ (1 <= Z.min 1 (maxEnemies (config uncappedController) - currentEnemies emptyStore)).
Proof.
  split; [reflexivity|]. split; [vm_compute; reflexivity|].
  split; [vm_compute; reflexivity|]. vm_compute. intros Hc. now apply Hc.
Qed.

(** ** WaveManager: the continuous spawn budget *)

(** [getCheapestEnemyCost] is positive and below every positive cost of the
    table; it is infinite exactly when the table has no positive cost. *)
Lemma getCheapestEnemyCost_spec (table : gmap string Q) :
  match getCheapestEnemyCost table with
  | Some c => (0 < c)%Q /\
              forall ty v, table !! ty = Some v -> (0 < v)%Q -> (c <= v)%Q
  | None => forall ty v, table !! ty = Some v -> (v <= 0)%Q
  end.
Proof.
  unfold getCheapestEnemyCost.
  apply (map_fold_weak_ind
    (fun (res : option Q) (m : gmap string Q) =>
       match res with
       | Some c => (0 < c)%Q /\
                   forall ty v, m !! ty = Some v -> (0 < v)%Q -> (c <= v)%Q
       | None => forall ty v, m !! ty = Some v -> (v <= 0)%Q
       end)).
  - intros ty v Hl. rewrite lookup_empty in Hl. discriminate.
  - intros i x m res Hfresh IH. unfold cheaper.
    destruct (Qle_bool x 0) eqn:Ex.
    + apply Qle_bool_iff in Ex. destruct res as [c|].
      * destruct IH as [Hc IH]. split; [exact Hc|].
        intros ty v Hl Hv. destruct (decide (i = ty)) as [->|Hne].
        -- rewrite lookup_insert_eq in Hl. injection Hl as ->. lra.
        -- rewrite lookup_insert_ne in Hl by exact Hne. eapply IH; eassumption.
      * intros ty v Hl. destruct (decide (i = ty)) as [->|Hne].
        -- rewrite lookup_insert_eq in Hl. now injection Hl as ->.
        -- rewrite lookup_insert_ne in Hl by exact Hne. eapply IH; eassumption.
    + apply Qle_bool_false in Ex. destruct res as [c|].
      * destruct IH as [Hc IH]. unfold Math_min.
        destruct (Qle_bool c x) eqn:Ecx.
        -- apply Qle_bool_iff in Ecx. split; [exact Hc|].
           intros ty v Hl Hv. destruct (decide (i = ty)) as [->|Hne].
           ++ rewrite lookup_insert_eq in Hl. now injection Hl as ->.
           ++ rewrite lookup_insert_ne in Hl by exact Hne. eapply IH; eassumption.
        -- apply Qle_bool_false in Ecx. split; [exact Ex|].
           intros ty v Hl Hv. destruct (decide (i = ty)) as [->|Hne].
           ++ rewrite lookup_insert_eq in Hl. injection Hl as ->. lra.
           ++ rewrite lookup_insert_ne in Hl by exact Hne.
              specialize (IH ty v Hl Hv). lra.
      * split; [exact Ex|].
        intros ty v Hl Hv. destruct (decide (i = ty)) as [->|Hne].
        -- rewrite lookup_insert_eq in Hl. injection Hl as ->. lra.
        -- rewrite lookup_insert_ne in Hl by exact Hne.
           specialize (IH ty v Hl). lra.
Qed.

Section WaveFacts.
Context `{MathLib}.

(** Every subtraction of the loop is made from a budget that had reached the
    cheapest cost: the budget the loop leaves is the one it found, or it is
    [prev - c] for a cost [c] of the table and a budget [prev >= cheapest]. *)
Lemma continuousLoop_budget n : forall depth tm cheapest ctx env ctx' env',
  continuousLoop n depth tm cheapest ctx env = Some (ctx', env') ->
  costs ctx' = costs ctx /\
  (budget ctx' = budget ctx \/
   exists prev ty c, costs ctx !! ty = Some c /\ (cheapest <= prev)%Q /\
                     budget ctx' = (prev - c)%Q).
Proof.
  induction n as [|n IH]; intros depth tm cheapest ctx env ctx' env'; cbn [continuousLoop].
  - intros [= <- <-]. auto.
  - destruct (Qle_bool cheapest (budget ctx)) eqn:Eb; cbn [negb].
    2:{ intros [= <- <-]. auto. }
    apply Qle_bool_iff in Eb.
    destruct env as [[sc s] r].
    destruct (pickFromMix (continuousSpawnMix (wave ctx)) r) as [picked r1].
    destruct (truthy picked) as [enemyType|]; [|intros [= <- <-]; auto].
    destruct (costs ctx !! enemyType) as [cost|] eqn:Ec; [|apply IH].
    destruct (spawnEnemyType depth sc tm s r1 enemyType 1) as [[spawned env2]|]; [|discriminate].
    destruct (0 <? spawned); [|intros [= <- <-]; auto].
    intros Hl. apply IH in Hl as [Hc Hb]. cbn in Hc, Hb. split; [exact Hc|].
    right. destruct Hb as [Hb | (prev & ty & c & Hty & Hprev & Hb)].
    + exists (budget ctx), enemyType, cost. auto.
    + exists prev, ty, c. auto.
Qed.

End WaveFacts.

(** C2. There is a wave with a cheap and an expensive type for which one
    [update] step leaves the accrued budget negative (one second accrues 1,
    the roll picks the type of cost 5, the budget ends at -4 with one enemy
    spawned).  And in every run of the continuous spawn loop each
    subtraction is made from a budget that had reached the cheapest positive
    cost: the budget left is the budget found, or [prev - c] for a cost [c]
    of the table and a budget [prev] with [0 < cheapest <= prev], where
    [cheapest] is at most every positive cost of the table. *)
Theorem C2_budget_can_go_negative :
  (exists wm' sc' s' r' ctx',
     waveUpdate (H := standInMath) 1 None twoCostManager
       (capped300Controller, emptyStore, threeQuarterDraws) 1
       = Some (wm', (sc', s', r')) /\
     activeWave wm' = Some ctx' /\
     (budget ctx' < 0)%Q /\
     currentEnemies s' = 1) /\
  (forall (M : MathLib) depth tm ctx env ctx' env',
     processContinuousSpawns depth tm ctx env = Some (ctx', env') ->
     budget ctx' = budget ctx \/
     exists cheapest prev ty c,
       getCheapestEnemyCost (costs ctx) = Some cheapest /\
       (0 < cheapest)%Q /\
       (forall ty' v, costs ctx !! ty' = Some v -> (0 < v)%Q -> (cheapest <= v)%Q) /\
       costs ctx !! ty = Some c /\
       (cheapest <= prev)%Q /\
       budget ctx' = (prev - c)%Q).
Proof.
  split.
  - eexists _, _, _, _, _. split; [vm_compute; reflexivity|].
    split; [reflexivity|]. split; reflexivity.
  - intros M depth tm ctx env ctx' env'. unfold processContinuousSpawns.
    pose proof (getCheapestEnemyCost_spec (costs ctx)) as Hspec.
    destruct (getCheapestEnemyCost (costs ctx)) as [cheapest|]; [|intros [= <- <-]; auto].
    destruct (Qle_bool cheapest 0); [intros [= <- <-]; auto|].
    destruct Hspec as [Hpos Hmin].
    intros Hl. apply continuousLoop_budget in Hl as [_ [Hb | (prev & ty & c & Hty & Hprev & Hb)]];
      [auto|].
    right. exists cheapest, prev, ty, c. auto 10.
Qed.

(** ** ProjectileManager: walls *)

Lemma outside_inBounds (tm : TileMap) (tx ty : Z) :
  (tx <? 0) || (ty <? 0) || (width tm <=? tx) || (height tm <=? ty) = negb (inBounds tm tx ty).
Proof.
  unfold inBounds.
  destruct (Z.ltb_spec tx 0), (Z.ltb_spec ty 0), (Z.leb_spec (width tm) tx),
    (Z.leb_spec (height tm) ty), (Z.leb_spec 0 tx), (Z.leb_spec 0 ty),
    (Z.ltb_spec tx (width tm)), (Z.ltb_spec ty (height tm)); cbn; try reflexivity; lia.
Qed.

Lemma collidesSamples_cons (tm : TileMap) (b : bool) (s : Q * Q) (rest : list (Q * Q)) :
  collidesSamples tm b (s :: rest) =
  let tx := fst (sampleTile tm s) in
  let ty := snd (sampleTile tm s) in
  if negb (inBounds tm tx ty) then (true, tm)
  else if negb (isBlocked tm tx ty) then collidesSamples tm b rest
  else
    let wall := decodeBase (readArr (mask tm) (index tm tx ty)) =? BaseType.Wall in
    if wall && b && negb (wall && (200 <=? readArr (durability tm) (index tm tx ty))) then
      if negb (fst (damageWallTile tm tx ty 1)) then (true, snd (damageWallTile tm tx ty 1))
      else collidesSamples (snd (damageWallTile tm tx ty 1)) b rest
    else (true, tm).
Proof.
  cbn [collidesSamples]. cbv zeta. rewrite outside_inBounds.
  change (Math_floor (fst s / virtualPixelScale tm)) with (fst (sampleTile tm s)).
  change (Math_floor (snd s / virtualPixelScale tm)) with (snd (sampleTile tm s)).
  destruct (inBounds tm (fst (sampleTile tm s)) (snd (sampleTile tm s))) eqn:Hin;
    cbn [negb]; [|reflexivity].
  destruct (isBlocked tm _ _); cbn [negb]; [|reflexivity].
  unfold getTile. rewrite Hin. cbn [negb ts_base ts_durability].
  destruct (damageWallTile tm _ _ 1) as [d tm1]. reflexivity.
Qed.

Lemma collidesSamples_clear (tm : TileMap) (b : bool) (pre rest : list (Q * Q)) :
  Forall (clearSample tm) pre ->
  collidesSamples tm b (pre ++ rest) = collidesSamples tm b rest.
Proof.
  induction 1 as [|s pre [Hin Hbl] _ IH]; [reflexivity|].
  cbn [app]. rewrite collidesSamples_cons. cbv zeta. now rewrite Hin, Hbl.
Qed.

Lemma releaseAtIndex_released (pm : ProjectileManager) (i : nat) (p : ploc) (q : Projectile) :
  active pm !! i = Some p -> projs pm !! p = Some q ->
  active (releaseAtIndex pm i) = delete i (active pm) /\
  projs (releaseAtIndex pm i) !! p = Some (p_clear (p_set_active false q)) /\
  pool (releaseAtIndex pm i) =
    (if enableObjectPooling (pm_config pm) then pool pm ++ [p] else pool pm).
Proof.
  intros Ha Hp. unfold releaseAtIndex. rewrite Ha.
  destruct (enableObjectPooling (pm_config pm)); cbn;
    rewrite lookup_alter_eq, Hp; auto.
Qed.

Section WallClaims.
Context `{MathLib}.

(** C1 (as amended).  Scanning the samples of a projectile, let [s] be the
    first sample that is not clear, landing inside the grid on a blocked
    tile [(tx, ty)].  If the projectile is player-owned and the tile is a
    Wall of durability below 200, [damageWallTile(tx, ty, 1)] is applied:
    when the wall is not destroyed the projectile is blocked, when it is
    destroyed this sample does not block and the scan goes on with the
    remaining samples on the damaged map.  In every other case (not
    player-owned, not a Wall, or durability at least 200) the projectile is
    blocked and the tile map is untouched.  And a live projectile that
    [update] finds blocked is deactivated and released: it leaves the active
    list, its transient fields are cleared, and it joins the pool when
    pooling is on. *)
Theorem C1_wall_hit_blocks_unless_destroyed
    (tm : TileMap) (playerOwned : bool) (pre rest : list (Q * Q)) (s : Q * Q) (tx ty : Z) :
  Forall (clearSample tm) pre ->
  sampleTile tm s = (tx, ty) ->
  inBounds tm tx ty = true ->
  isBlocked tm tx ty = true ->
  let destructibleWall :=
    (decodeBase (readArr (mask tm) (index tm tx ty)) =? BaseType.Wall) &&
    (readArr (durability tm) (index tm tx ty) <? 200) in
  (playerOwned && destructibleWall = true ->
   collidesSamples tm playerOwned (pre ++ s :: rest) =
     (if fst (damageWallTile tm tx ty 1)
      then collidesSamples (snd (damageWallTile tm tx ty 1)) playerOwned rest
      else (true, snd (damageWallTile tm tx ty 1)))) /\
  (playerOwned && destructibleWall = false ->
   collidesSamples tm playerOwned (pre ++ s :: rest) = (true, tm)) /\
  (forall (w : Sim) (i : nat) (dt : Q) (p : ploc) (p0 : Projectile) (tm' : TileMap),
     let moved := p_set_pos (p_x p0 + p_dirX p0 * p_speed p0 * dt)%Q
                            (p_y p0 + p_dirY p0 * p_speed p0 * dt)%Q
                            (p_set_lifetime (p_lifetime p0 - dt)%Q p0) in
     sim_tileMap w = Some tm ->
     active (sim_pm w) !! i = Some p ->
     projs (sim_pm w) !! p = Some p0 ->
     p_active p0 = true ->
     (0 < p_lifetime p0 - dt)%Q ->
     collidesSamples tm (isPlayerProjectile p0) (wallSamples moved) = (true, tm') ->
     fst (updateAt w i dt) = i /\
     sim_tileMap (snd (updateAt w i dt)) = Some tm' /\
     active (sim_pm (snd (updateAt w i dt))) = delete i (active (sim_pm w)) /\
     projs (sim_pm (snd (updateAt w i dt))) !! p = Some (p_clear (p_set_active false moved)) /\
     pool (sim_pm (snd (updateAt w i dt))) =
       (if enableObjectPooling (pm_config (sim_pm w)) then pool (sim_pm w) ++ [p]
        else pool (sim_pm w))).
Proof.
  intros Hpre Hs Hin Hbl destructibleWall.
  assert (Hstep : collidesSamples tm playerOwned (pre ++ s :: rest) =
    if playerOwned && destructibleWall
    then (if fst (damageWallTile tm tx ty 1)
          then collidesSamples (snd (damageWallTile tm tx ty 1)) playerOwned rest
          else (true, snd (damageWallTile tm tx ty 1)))
    else (true, tm)).
  { rewrite collidesSamples_clear by exact Hpre. rewrite collidesSamples_cons.
    rewrite Hs. cbn [fst snd]. cbv zeta. rewrite Hin, Hbl. cbn [negb].
    subst destructibleWall.
    destruct (decodeBase (readArr (mask tm) (index tm tx ty)) =? BaseType.Wall); cbn [andb];
      [|now rewrite andb_false_r].
    rewrite Z.leb_antisym.
    destruct (readArr (durability tm) (index tm tx ty) <? 200), playerOwned; cbn; try reflexivity.
    destruct (damageWallTile tm tx ty 1) as [[|] tm1]; reflexivity. }
  split; [|split].
  - intros Hd. now rewrite Hstep, Hd.
  - intros Hd. now rewrite Hstep, Hd.
  - intros w i dt p p0 tm' moved Htm Ha Hp Hact Hlife Hcol.
    unfold updateAt. rewrite Ha, Hp, Hact. cbn [negb].
    destruct (Qle_bool (p_lifetime p0 - dt) 0) eqn:El.
    { apply Qle_bool_iff in El. lra. }
    unfold collidesWithWall. rewrite Htm.
    change (p_set_pos _ _ (p_set_lifetime (p_lifetime p0 - dt) p0)) with moved.
    change (isPlayerProjectile moved) with (isPlayerProjectile p0).
    rewrite Hcol. cbn [fst snd set_pm sim_pm sim_tileMap].
    match goal with |- context [releaseAtIndex ?pm i] =>
      destruct (releaseAtIndex_released pm i p (p_set_active false moved)) as (R1 & R2 & R3)
    end.
    + exact Ha.
    + cbn. rewrite !lookup_alter_eq, Hp. reflexivity.
    + rewrite R1, R2, R3. cbn. auto.
Qed.

End WallClaims.

(** C1, as first stated, fails in both directions.  A wall of 3 hit points
    is hit and not destroyed (it is still a Wall, with 2 hit points), and the
    projectile does not continue: it is deactivated and leaves the active
    list.  A wall of 1 hit point is destroyed (the tile becomes Floor), and
    the projectile is not stopped: it stays active in the list. *)
Lemma C1_counterexample_inverted :
  (let w := snd (updateAt (H := standInMath) (wallSim 3) 0 1) in
   (ts_base <$> (sim_tileMap w ≫= fun tm => getTile tm 1 1)) = Some BaseType.Wall /\
   (ts_hp <$> (sim_tileMap w ≫= fun tm => getTile tm 1 1)) = Some 2 /\
   active (sim_pm w) = [] /\
   (p_active <$> projs (sim_pm w) !! 0%nat) = Some false) /\
  (let w := snd (updateAt (H := standInMath) (wallSim 1) 0 1) in
   (ts_base <$> (sim_tileMap w ≫= fun tm => getTile tm 1 1)) = Some BaseType.Floor /\
   active (sim_pm w) = [0%nat] /\
   (p_active <$> projs (sim_pm w) !! 0%nat) = Some true).
Proof. vm_compute. repeat split; reflexivity. Qed.

(** ** ProjectileManager: pierce *)

Lemma applyDamage_frame (c : CombatSystem) (s : Store) (target : loc) (amount : Q)
    (source : option loc) (e : loc) :
  e <> target ->
  objs (snd (snd (applyDamage c s target amount source))) !! e = objs s !! e.
Proof.
  intros Hne. unfold applyDamage.
  destruct (objs s !! target) as [ent|]; [|reflexivity].
  destruct (getHealth ent) as [health|]; [|reflexivity].
  destruct (_ && _); [reflexivity|].
  destruct (Qltb 0 (h_invulnTimer health)); [reflexivity|].
  destruct (Qle_bool _ 0); [reflexivity|].
  destruct (isDead _); cbn; rewrite ?lookup_alter_ne by congruence; reflexivity.
Qed.

Lemma applyKnockback_frame (s : Store) (target : loc) (q : Projectile) (e : loc) :
  e <> target -> objs (applyKnockback s target q) !! e = objs s !! e.
Proof.
  intros Hne. unfold applyKnockback.
  destruct (List.find _ (p_effects q)); [|reflexivity].
  destruct (objs s !! target) as [ent|]; [|reflexivity].
  destruct (getTransform ent); [|reflexivity].
  destruct (Qle_bool _ 0); [reflexivity|].
  cbn. now rewrite lookup_alter_ne by congruence.
Qed.

Lemma applyEffects_frame (c : CombatSystem) (s : Store) (target : loc) (q : Projectile) (e : loc) :
  e <> target -> objs (snd (applyEffects c s target q)) !! e = objs s !! e.
Proof.
  intros Hne. unfold applyEffects.
  destruct (length (p_effects q) =? 0)%nat; [reflexivity|].
  destruct (existsb _ (p_effects q)); cbn; [|reflexivity].
  now apply applyKnockback_frame.
Qed.

Lemma strike_frame (w : Sim) (target : loc) (q : Projectile) :
  sim_pm (strike w target q) = sim_pm w /\
  sim_tileMap (strike w target q) = sim_tileMap w /\
  forall e, e <> target ->
    objs (sim_store (strike w target q)) !! e = objs (sim_store w) !! e.
Proof.
  unfold strike. destruct (sim_combat w) as [c|]; [|auto].
  pose proof (fun e => applyDamage_frame c (sim_store w) target (p_damage q) (p_source q) e) as Hd.
  destruct (applyDamage c (sim_store w) target (p_damage q) (p_source q)) as [b [c1 s1]].
  pose proof (fun e => applyEffects_frame c1 s1 target q e) as He.
  destruct (applyEffects c1 s1 target q) as [c2 s2]. cbn in *.
  repeat split. intros e Hne. now rewrite He, Hd.
Qed.


Section PierceFacts.
Context `{MathLib}.




End PierceFacts.


Section PierceClaim.
Context `{MathLib}.


End PierceClaim.

(** ** ProceduralMapGenerator: what a run depends on *)

Lemma decodeBase_terrain (m : Z) : decodeBase m = Z.land (terrainOf m) 255.
Proof. unfold decodeBase, terrainOf, MASK_BASE. now rewrite <- Z.land_assoc. Qed.

Lemma decodeFlags_terrain (m : Z) : decodeFlags m = Z.shiftr (Z.land (terrainOf m) 65280) 8.
Proof.
  unfold decodeFlags, terrainOf, MASK_FLAGS, SHIFT_FLAGS. now rewrite <- Z.land_assoc.
Qed.

Lemma terrainOf_encode (base flags decor effect state : Z) :
  terrainOf (encode base flags decor effect state) =
  Z.lor (Z.land base 255) (Z.land (Z.shiftl flags 8) 65280).
Proof.
  unfold terrainOf, encode, ToUint32.
  change 65535 with (Z.ones 16). rewrite Z.land_ones by lia.
  change (2 ^ 32) with (2 ^ 16 * 2 ^ 16).
  rewrite Z.rem_mul_r by lia.
  rewrite Z.mul_comm, Z.mod_add by lia. rewrite Z.mod_mod by lia.
  rewrite <- Z.land_ones by lia. change (Z.ones 16) with 65535.
  rewrite !Z.land_lor_distr_l.
  unfold MASK_BASE, MASK_FLAGS, MASK_DECOR, MASK_EFFECT, MASK_STATE,
    SHIFT_FLAGS, SHIFT_DECOR, SHIFT_EFFECT, SHIFT_STATE.
  rewrite <- !Z.land_assoc. cbn [Z.land Z.shiftl Pos.land Pos.iter Pos.mul Pos.shiftl].
  change (Z.land 255 65535) with 255.
  rewrite !Z.land_0_r, !Z.lor_0_r. reflexivity.
Qed.

Lemma readArr_terrain (l1 l2 : list Z) (idx : Z) :
  terrainOf <$> l1 = terrainOf <$> l2 ->
  terrainOf (readArr l1 idx) = terrainOf (readArr l2 idx).
Proof.
  intros Heq. unfold readArr.
  assert (Hl : (terrainOf <$> l1) !! Z.to_nat idx = (terrainOf <$> l2) !! Z.to_nat idx)
    by now rewrite Heq.
  rewrite !list_lookup_fmap in Hl.
  destruct (l1 !! Z.to_nat idx), (l2 !! Z.to_nat idx); cbn in *; congruence.
Qed.

Lemma writeArr_terrain (l : list Z) (idx v : Z) :
  terrainOf <$> writeArr l idx v = writeArr (terrainOf <$> l) idx (terrainOf v).
Proof.
  unfold writeArr. destruct (idx <? 0); [reflexivity|]. apply list_fmap_insert.
Qed.

Lemma sameTerrain_refl (t : TileMap) : sameTerrain t t.
Proof. repeat split. Qed.

Lemma sameTerrain_inBounds (t1 t2 : TileMap) (x y : Z) :
  sameTerrain t1 t2 -> inBounds t1 x y = inBounds t2 x y.
Proof. intros (Hw & Hh & _). unfold inBounds. now rewrite Hw, Hh. Qed.

Lemma sameTerrain_read (t1 t2 : TileMap) (x y : Z) :
  sameTerrain t1 t2 ->
  terrainOf (readArr (mask t1) (index t1 x y)) = terrainOf (readArr (mask t2) (index t2 x y)).
Proof.
  intros (Hw & Hh & Ht). unfold index. rewrite Hw. now apply readArr_terrain.
Qed.

Lemma sameTerrain_isWalkable (t1 t2 : TileMap) (x y : Z) :
  sameTerrain t1 t2 -> isWalkable t1 x y = isWalkable t2 x y.
Proof.
  intros Hs. unfold isWalkable. rewrite (sameTerrain_inBounds t1 t2 x y Hs).
  destruct (inBounds t2 x y); [|reflexivity]. cbn [negb].
  now rewrite !decodeFlags_terrain, (sameTerrain_read t1 t2 x y Hs).
Qed.

Lemma sameTerrain_base (t1 t2 : TileMap) (x y : Z) :
  sameTerrain t1 t2 -> (ts_base <$> getTile t1 x y) = (ts_base <$> getTile t2 x y).
Proof.
  intros Hs. unfold getTile. rewrite (sameTerrain_inBounds t1 t2 x y Hs).
  destruct (inBounds t2 x y); [|reflexivity]. cbn.
  now rewrite !decodeBase_terrain, (sameTerrain_read t1 t2 x y Hs).
Qed.

Lemma sameTerrain_setTile (t1 t2 : TileMap) (x y base : Z) :
  sameTerrain t1 t2 -> sameTerrain (setTile t1 x y base) (setTile t2 x y base).
Proof.
  intros Hs. pose proof Hs as (Hw & Hh & Ht). unfold setTile.
  rewrite (sameTerrain_inBounds t1 t2 x y Hs).
  destruct (inBounds t2 x y); [|exact Hs]. cbn [negb].
  assert (Hgoal : forall d1 d2 : list Z,
    sameTerrain
      (mkTileMap (width t1) (height t1) (virtualPixelScale t1)
         (writeArr (mask t1) (index t1 x y)
            (encode base (defaultFlagsForBase base)
               (decodeDecor (readArr (mask t1) (index t1 x y)))
               (decodeEffect (readArr (mask t1) (index t1 x y)))
               (decodeState (readArr (mask t1) (index t1 x y)))))
         (hp t1) (durability t1) (usage t1) (overlayTTL t1) (occupants t1) d1)
      (mkTileMap (width t2) (height t2) (virtualPixelScale t2)
         (writeArr (mask t2) (index t2 x y)
            (encode base (defaultFlagsForBase base)
               (decodeDecor (readArr (mask t2) (index t2 x y)))
               (decodeEffect (readArr (mask t2) (index t2 x y)))
               (decodeState (readArr (mask t2) (index t2 x y)))))
         (hp t2) (durability t2) (usage t2) (overlayTTL t2) (occupants t2) d2)).
  { intros d1 d2. repeat split; try assumption. unfold terrain; cbn [mask].
    rewrite !writeArr_terrain, !terrainOf_encode. unfold index. rewrite Hw.
    unfold terrain in Ht. now rewrite Ht. }
  unfold markDirty, set_dirtyTiles, set_mask; cbn.
  destruct (negb _), (negb _); apply Hgoal.
Qed.

Lemma sameTerrain_setWallTile (t1 t2 : TileMap) (x y hitPoints : Z) (ind : bool) :
  sameTerrain t1 t2 ->
  sameTerrain (setWallTile t1 x y hitPoints ind) (setWallTile t2 x y hitPoints ind).
Proof.
  intros Hs. pose proof Hs as (Hw & Hh & Ht). unfold setWallTile.
  rewrite (sameTerrain_inBounds t1 t2 x y Hs).
  destruct (inBounds t2 x y); [|exact Hs]. cbn [negb].
  unfold markDirty, set_dirtyTiles, set_mask, set_hp, set_durability; cbn.
  destruct (negb _), (negb _); (repeat split; try assumption; unfold terrain; cbn [mask];
    rewrite !writeArr_terrain, !terrainOf_encode; unfold index; rewrite Hw;
    unfold terrain in Ht; now rewrite Ht).
Qed.

(** *** Loops *)

Lemma iterRange_rel {S1 S2 : Type} (R : S1 -> S2 -> Prop)
    (body1 : Z -> S1 -> S1) (body2 : Z -> S2 -> S2) :
  (forall i s1 s2, R s1 s2 -> R (body1 i s1) (body2 i s2)) ->
  forall n i s1 s2, R s1 s2 -> R (iterRange n i body1 s1) (iterRange n i body2 s2).
Proof.
  intros Hb. induction n as [|n IH]; intros i s1 s2 Hr; cbn; [exact Hr|].
  apply IH, Hb, Hr.
Qed.

Lemma forZ_rel {S1 S2 : Type} (R : S1 -> S2 -> Prop)
    (body1 : Z -> S1 -> S1) (body2 : Z -> S2 -> S2) (lo hi : Z) (s1 : S1) (s2 : S2) :
  (forall i s1 s2, R s1 s2 -> R (body1 i s1) (body2 i s2)) ->
  R s1 s2 -> R (forZ lo hi body1 s1) (forZ lo hi body2 s2).
Proof. intros Hb Hr. unfold forZ. now apply iterRange_rel. Qed.

Lemma iterRangeOpt_rel {S1 S2 : Type} (R : S1 -> S2 -> Prop)
    (body1 : Z -> S1 -> option S1) (body2 : Z -> S2 -> option S2) :
  (forall i s1 s2, R s1 s2 -> bothOr R (body1 i s1) (body2 i s2)) ->
  forall n i s1 s2, R s1 s2 ->
    bothOr R (iterRangeOpt n i body1 s1) (iterRangeOpt n i body2 s2).
Proof.
  intros Hb. induction n as [|n IH]; intros i s1 s2 Hr; cbn; [exact Hr|].
  specialize (Hb i s1 s2 Hr).
  destruct (body1 i s1), (body2 i s2); cbn in Hb; try contradiction; [|exact I].
  now apply IH.
Qed.

Lemma forZ_inv {St : Type} (P : Z -> St -> Prop) (lo hi : Z) (body : Z -> St -> St) (s : St) :
  lo <= hi -> P lo s ->
  (forall i s, lo <= i < hi -> P i s -> P (i + 1) (body i s)) ->
  P hi (forZ lo hi body s).
Proof.
  intros Hle H0 Hstep. unfold forZ.
  remember (Z.to_nat (hi - lo)) as n eqn:Hn.
  assert (Hhi : hi = lo + Z.of_nat n) by lia. clear Hn. subst hi.
  revert lo s Hle H0 Hstep. induction n as [|n IH]; intros lo s Hle H0 Hstep; cbn [iterRange].
  - now rewrite Z.add_0_r.
  - replace (lo + Z.of_nat (S n)) with ((lo + 1) + Z.of_nat n) by lia.
    apply IH; [lia| |].
    + apply Hstep; [lia|exact H0].
    + intros i s' Hi. apply Hstep. lia.
Qed.

(** *** The passes *)

Lemma index_inBounds (t : TileMap) (x y : Z) :
  inBounds t x y = true -> 0 <= index t x y < width t * height t.
Proof.
  unfold inBounds, index. intros Hb.
  apply andb_prop in Hb as [Hb Hy]. apply andb_prop in Hb as [Hb Hx].
  apply andb_prop in Hb as [H0x H0y].
  apply Z.leb_le in H0x, H0y. apply Z.ltb_lt in Hx, Hy. nia.
Qed.

Lemma setTile_floor_terrain (t : TileMap) (x y : Z) :
  inBounds t x y = true ->
  width (setTile t x y BaseType.Floor) = width t /\
  height (setTile t x y BaseType.Floor) = height t /\
  terrain (setTile t x y BaseType.Floor)
    = <[Z.to_nat (index t x y) := floorTerrain]> (terrain t).
Proof.
  intros Hb. pose proof (index_inBounds t x y Hb) as Hi.
  unfold setTile. rewrite Hb. cbn [negb].
  assert (Hw : terrainOf <$> writeArr (mask t) (index t x y)
                 (encode BaseType.Floor (defaultFlagsForBase BaseType.Floor)
                    (decodeDecor (readArr (mask t) (index t x y)))
                    (decodeEffect (readArr (mask t) (index t x y)))
                    (decodeState (readArr (mask t) (index t x y))))
               = <[Z.to_nat (index t x y) := floorTerrain]> (terrain t)).
  { rewrite writeArr_terrain, terrainOf_encode. unfold writeArr.
    destruct (Z.ltb_spec (index t x y) 0); [lia|]. reflexivity. }
  destruct (negb _); cbn; auto.
Qed.

(** After [paintBase] every tile of a well-formed grid is walkable floor. *)
Lemma paintBase_terrain (tm : TileMap) :
  tm_wf tm ->
  width (paintBase tm) = width tm /\ height (paintBase tm) = height tm /\
  terrain (paintBase tm) = replicate (Z.to_nat (width tm * height tm)) floorTerrain.
Proof.
  intros (Hw0 & Hh0 & Hlen & _).
  set (w := width tm). set (h := height tm).
  set (Inv := fun (k : Z) (t : TileMap) =>
    width t = w /\ height t = h /\ length (terrain t) = Z.to_nat (w * h) /\
    forall j : nat, Z.of_nat j < k -> terrain t !! j = Some floorTerrain).
  assert (Hfin : Inv (h * w) (paintBase tm)).
  { unfold paintBase. fold w h.
    replace (h * w) with (h * w + 0) by lia.
    apply (forZ_inv (fun y t => Inv (y * w + 0) t)); [exact Hh0| |].
    - unfold Inv. repeat split; try reflexivity.
      + unfold terrain. now rewrite length_fmap.
      + intros j Hj. lia.
    - intros y t Hy Hinv.
      replace ((y + 1) * w + 0) with (y * w + w) by lia.
      apply (forZ_inv (fun x t => Inv (y * w + x) t)); [exact Hw0|exact Hinv|].
      intros x t' Hx (Iw & Ih & Il & Ij).
      assert (Hb : inBounds t' x y = true).
      { unfold inBounds. rewrite Iw, Ih.
        destruct (Z.leb_spec 0 x), (Z.leb_spec 0 y), (Z.ltb_spec x w), (Z.ltb_spec y h);
          cbn; try reflexivity; lia. }
      destruct (setTile_floor_terrain t' x y Hb) as (Sw & Sh & St).
      pose proof (index_inBounds t' x y Hb) as Hi. rewrite Iw, Ih in Hi.
      unfold Inv. rewrite Sw, Sh, St, length_insert.
      repeat split; try assumption.
      intros j Hj. unfold index in *. rewrite Iw in *.
      destruct (decide (j = Z.to_nat (y * w + x))) as [->|Hne].
      + apply list_lookup_insert_eq. rewrite Il. lia.
      + rewrite list_lookup_insert_ne by congruence. apply Ij. lia. }
  destruct Hfin as (Fw & Fh & Fl & Fj).
  repeat split; try assumption.
  apply list_eq. intros j.
  destruct (decide (j < Z.to_nat (w * h))%nat) as [Hlt|Hge].
  - rewrite Fj by lia. symmetry. apply lookup_replicate_2. exact Hlt.
  - rewrite lookup_ge_None_2 by lia.
    symmetry. apply lookup_replicate_None. lia.
Qed.

Lemma paintBase_same (t1 t2 : TileMap) :
  tm_wf t1 -> tm_wf t2 -> width t1 = width t2 -> height t1 = height t2 ->
  sameTerrain (paintBase t1) (paintBase t2).
Proof.
  intros W1 W2 Hw Hh.
  destruct (paintBase_terrain t1 W1) as (A1 & A2 & A3).
  destruct (paintBase_terrain t2 W2) as (B1 & B2 & B3).
  unfold sameTerrain. rewrite A1, A2, A3, B1, B2, B3, Hw, Hh. auto.
Qed.

Lemma applyJaggedBorders_same (t1 t2 : TileMap) (rng : Z) (config : MapGenerationConfig) :
  sameTerrain t1 t2 ->
  sameTerrain (fst (applyJaggedBorders t1 rng config)) (fst (applyJaggedBorders t2 rng config)) /\
  snd (applyJaggedBorders t1 rng config) = snd (applyJaggedBorders t2 rng config).
Proof.
  intros Hs. pose proof Hs as (Hw & Hh & _). unfold applyJaggedBorders.
  rewrite Hw, Hh.
  set (minT := Z.max 1 (edgeJaggedThicknessMin config)).
  set (maxT := Z.max minT (edgeJaggedThicknessMax config)).
  set (step := Z.max 1 (edgeJaggedStep config)).
  destruct (SeededRng.int rng minT maxT) as [topT rngA].
  destruct (SeededRng.int rngA minT maxT) as [bottomT rngB].
  match goal with |- context [forZ 0 (width t2) ?body (t1, rngB, topT, bottomT)] =>
    pose proof (forZ_rel sameWalk body body 0 (width t2)
                  (t1, rngB, topT, bottomT) (t2, rngB, topT, bottomT)) as Hcols;
    destruct (forZ 0 (width t2) body (t1, rngB, topT, bottomT)) as [[[ta ra] xa] ya];
    destruct (forZ 0 (width t2) body (t2, rngB, topT, bottomT)) as [[[tb rb] xb] yb]
  end.
  destruct Hcols as (Hsa & Hra & _ & _).
  { intros x [[[u1 r1] a1] b1] [[[u2 r2] a2] b2] (Hu & Hr & Ha & Hb).
    cbn in Hu, Hr, Ha, Hb. subst r2 a2 b2.
    destruct (SeededRng.int r1 (- step) step) as [d1 r3].
    destruct (SeededRng.int r3 (- step) step) as [d2 r4].
    split; [|repeat split]. cbn.
    apply (forZ_rel sameTerrain); [intros; now apply sameTerrain_setWallTile|].
    apply (forZ_rel sameTerrain); [intros; now apply sameTerrain_setWallTile|exact Hu]. }
  { split; [exact Hs|repeat split]. }
  cbn in Hsa, Hra. subst rb.
  destruct (SeededRng.int ra minT maxT) as [leftT rngC].
  destruct (SeededRng.int rngC minT maxT) as [rightT rngD].
  match goal with |- context [forZ 0 (height t2) ?body (ta, rngD, leftT, rightT)] =>
    pose proof (forZ_rel sameWalk body body 0 (height t2)
                  (ta, rngD, leftT, rightT) (tb, rngD, leftT, rightT)) as Hrows;
    destruct (forZ 0 (height t2) body (ta, rngD, leftT, rightT)) as [[[tc rc] xc] yc];
    destruct (forZ 0 (height t2) body (tb, rngD, leftT, rightT)) as [[[td rd] xd] yd]
  end.
  destruct Hrows as (Hsc & Hrc & _ & _).
  { intros y [[[u1 r1] a1] b1] [[[u2 r2] a2] b2] (Hu & Hr & Ha & Hb).
    cbn in Hu, Hr, Ha, Hb. subst r2 a2 b2.
    destruct (SeededRng.int r1 (- step) step) as [d1 r3].
    destruct (SeededRng.int r3 (- step) step) as [d2 r4].
    split; [|repeat split]. cbn.
    apply (forZ_rel sameTerrain); [intros; now apply sameTerrain_setWallTile|].
    apply (forZ_rel sameTerrain); [intros; now apply sameTerrain_setWallTile|exact Hu]. }
  { split; [exact Hsa|repeat split]. }
  cbn in Hsc, Hrc. cbn. auto.
Qed.

Lemma clearSafeZone_same (t1 t2 : TileMap) (config : MapGenerationConfig) :
  sameTerrain t1 t2 -> sameTerrain (clearSafeZone t1 config) (clearSafeZone t2 config).
Proof.
  intros Hs. pose proof Hs as (Hw & Hh & _). unfold clearSafeZone.
  destruct (gc_spawn config) as [sx sy]. rewrite Hw, Hh.
  apply (forZ_rel sameTerrain); [|exact Hs].
  intros y u1 u2 Hu. apply (forZ_rel sameTerrain); [|exact Hu].
  intros x v1 v2 Hv. destruct (_ <=? _); [now apply sameTerrain_setTile|exact Hv].
Qed.

Lemma reinforceOuterWall_same (t1 t2 : TileMap) :
  sameTerrain t1 t2 -> sameTerrain (reinforceOuterWall t1) (reinforceOuterWall t2).
Proof.
  intros Hs. pose proof Hs as (Hw & Hh & _). unfold reinforceOuterWall.
  rewrite Hw, Hh.
  apply (forZ_rel sameTerrain).
  - intros y u1 u2 Hu. now apply sameTerrain_setWallTile, sameTerrain_setWallTile.
  - apply (forZ_rel sameTerrain); [|exact Hs].
    intros x u1 u2 Hu. now apply sameTerrain_setWallTile, sameTerrain_setWallTile.
Qed.

Lemma carveDisk_same (t1 t2 : TileMap) (cx cy radius : Z) :
  sameTerrain t1 t2 -> sameTerrain (carveDisk t1 cx cy radius) (carveDisk t2 cx cy radius).
Proof.
  intros Hs. unfold carveDisk.
  apply (forZ_rel sameTerrain); [|exact Hs].
  intros y u1 u2 Hu. apply (forZ_rel sameTerrain); [|exact Hu].
  intros x v1 v2 Hv. pose proof Hv as (Hw & Hh & _). rewrite Hw, Hh.
  destruct (_ <? _); [exact Hv|].
  destruct (_ || _); [exact Hv|]. now apply sameTerrain_setTile.
Qed.

Lemma carveLineLoop_same (fuel : nat) : forall t1 t2 x y x1 y1 dx dy sx sy err thickness,
  sameTerrain t1 t2 ->
  bothOr sameTerrain
    (carveLineLoop fuel t1 x y x1 y1 dx dy sx sy err thickness)
    (carveLineLoop fuel t2 x y x1 y1 dx dy sx sy err thickness).
Proof.
  induction fuel as [|fuel IH]; intros t1 t2 x y x1 y1 dx dy sx sy err thickness Hs;
    cbn [carveLineLoop]; [exact I|].
  pose proof (carveDisk_same t1 t2 x y thickness Hs) as Hd.
  destruct ((x =? x1) && (y =? y1)); [exact Hd|]. now apply IH.
Qed.

Lemma carveLine_same (fuel : nat) (t1 t2 : TileMap) (x0 y0 x1 y1 thickness : Z) :
  sameTerrain t1 t2 ->
  bothOr sameTerrain (carveLine fuel t1 x0 y0 x1 y1 thickness)
                     (carveLine fuel t2 x0 y0 x1 y1 thickness).
Proof. intros Hs. unfold carveLine. now apply carveLineLoop_same. Qed.

Section GeneratorFacts.
Context `{MathLib}.

Lemma paintBlob_same (t1 t2 : TileMap) (cx cy radius : Z) (jitter : Q) (rng : Z) :
  sameTerrain t1 t2 ->
  sameGridRngAnd (paintBlob t1 cx cy radius jitter rng) (paintBlob t2 cx cy radius jitter rng).
Proof.
  intros Hs. pose proof Hs as (Hw & Hh & _). unfold paintBlob. rewrite Hw, Hh.
  apply (forZ_rel sameGridRngAnd); [|split; [exact Hs|split; reflexivity]].
  intros y a b Hab. apply (forZ_rel sameGridRngAnd); [|exact Hab].
  intros x [[u1 r1] p1] [[u2 r2] p2] (Hu & Hr & Hp). cbn in Hu, Hr, Hp. subst r2 p2.
  destruct (_ <? _); [split; [exact Hu|split; reflexivity]|].
  destruct (SeededRng.next r1) as [u r'].
  destruct (if radius =? 0 then false else _); [|split; [exact Hu|split; reflexivity]].
  pose proof (sameTerrain_base u1 u2 x y Hu) as Hb.
  destruct (getTile u1 x y) as [b1|], (getTile u2 x y) as [b2|]; cbn in Hb; try discriminate.
  - injection Hb as ->. destruct (negb _); (split; [|split; reflexivity]); cbn;
      [now apply sameTerrain_setWallTile|exact Hu].
  - split; [|split; reflexivity]. cbn. now apply sameTerrain_setWallTile.
Qed.

Lemma scatterLoop_same (fuel : nat) : forall i blobTargetCount target t1 t2 rng config painted bounds,
  sameTerrain t1 t2 ->
  bothOr sameGridRngAnd
    (scatterLoop fuel i blobTargetCount target t1 rng config painted bounds)
    (scatterLoop fuel i blobTargetCount target t2 rng config painted bounds).
Proof.
  induction fuel as [|fuel IH]; intros i blobTargetCount target t1 t2 rng config painted bounds Hs;
    cbn [scatterLoop].
  - destruct (negb _); [|exact I]. split; [exact Hs|split; reflexivity].
  - destruct (negb _); [split; [exact Hs|split; reflexivity]|].
    pose proof Hs as (Hw & Hh & _). rewrite Hw, Hh.
    destruct (SeededRng.int rng _ _) as [radius rngA].
    destruct (SeededRng.int rngA _ _) as [cx rngB].
    destruct (SeededRng.int rngB _ _) as [cy rngC].
    pose proof (paintBlob_same t1 t2 cx cy radius (blobEdgeJitter config) rngC Hs) as Hp.
    destruct (paintBlob t1 cx cy radius (blobEdgeJitter config) rngC) as [[u1 r1] p1].
    destruct (paintBlob t2 cx cy radius (blobEdgeJitter config) rngC) as [[u2 r2] p2].
    destruct Hp as (Hu & Hr & Hpp). cbn in Hu, Hr, Hpp. subst r2 p2.
    destruct (0 <? p1); now apply IH.
Qed.

Lemma scatterBlobs_same (fuel : nat) (t1 t2 : TileMap) (rng : Z) (config : MapGenerationConfig)
    (bounds : list MapObstacleBounds) :
  sameTerrain t1 t2 ->
  bothOr sameGridRngAnd (scatterBlobs fuel t1 rng config bounds)
                        (scatterBlobs fuel t2 rng config bounds).
Proof.
  intros Hs. pose proof Hs as (Hw & Hh & _). unfold scatterBlobs. rewrite Hw, Hh.
  destruct (SeededRng.int rng _ _) as [count rngA]. now apply scatterLoop_same.
Qed.

Lemma carveSegment_same (fuel : nat) (center : Z * Z) (radius : Q) (thickness steps i : Z)
    (s1 s2 : TileMap * Z * Z * Z) :
  sameWalk s1 s2 ->
  bothOr sameWalk (carveSegment fuel center radius thickness steps i s1)
                  (carveSegment fuel center radius thickness steps i s2).
Proof.
  destruct s1 as [[[u1 r1] a1] b1], s2 as [[[u2 r2] a2] b2].
  intros (Hu & Hr & Ha & Hb). cbn in Hu, Hr, Ha, Hb. subst r2 a2 b2.
  unfold carveSegment. destruct (SeededRng.float r1 _ _) as [jitter r3].
  match goal with |- context [carveLine fuel u1 ?a ?b ?c ?d ?e] =>
    pose proof (carveLine_same fuel u1 u2 a b c d e Hu) as Hc;
    destruct (carveLine fuel u1 a b c d e), (carveLine fuel u2 a b c d e)
  end; cbn in Hc |- *; try contradiction; try exact I.
  split; [exact Hc|repeat split].
Qed.

Lemma carveLoop_same (fuel : nat) (t1 t2 : TileMap) (center : Z * Z) (radius : Q)
    (thickness : Z) (rng : Z) :
  sameTerrain t1 t2 ->
  bothOr sameGridRng (carveLoop fuel t1 center radius thickness rng)
                     (carveLoop fuel t2 center radius thickness rng).
Proof.
  intros Hs. unfold carveLoop, forZOpt.
  match goal with |- context [iterRangeOpt ?n 1 ?body (t1, rng, ?px, ?py)] =>
    pose proof (iterRangeOpt_rel sameWalk body body
                  (carveSegment_same fuel center radius thickness _) n 1
                  (t1, rng, px, py) (t2, rng, px, py)) as Hl;
    destruct (iterRangeOpt n 1 body (t1, rng, px, py)) as [[[[ta ra] xa] ya]|];
    destruct (iterRangeOpt n 1 body (t2, rng, px, py)) as [[[[tb rb] xb] yb]|]
  end; cbn in Hl |- *.
  - destruct Hl as (Ha & Hb & _); [split; [exact Hs|repeat split]|]. split; assumption.
  - apply Hl. split; [exact Hs|repeat split].
  - apply Hl. split; [exact Hs|repeat split].
  - exact I.
Qed.

Lemma carveLoops_same (fuel : nat) (t1 t2 : TileMap) (rng : Z) (config : MapGenerationConfig) :
  sameTerrain t1 t2 ->
  bothOr sameGridRng (carveLoops fuel t1 rng config) (carveLoops fuel t2 rng config).
Proof.
  intros Hs. unfold carveLoops, forZOpt.
  apply (iterRangeOpt_rel sameGridRng); [|split; [exact Hs|reflexivity]].
  intros i [u1 r1] [u2 r2] (Hu & Hr). cbn in Hu, Hr. subst r2.
  destruct (SeededRng.float r1 _ _) as [jitter r3]. now apply carveLoop_same.
Qed.

End GeneratorFacts.

(** *** The measures *)

Lemma fold_left_ext {A B : Type} (f g : A -> B -> A) (l : list B) :
  (forall a b, f a b = g a b) -> forall a, fold_left f l a = fold_left g l a.
Proof.
  intros Hfg. induction l as [|b l IH]; intros a; cbn; [reflexivity|].
  now rewrite Hfg, IH.
Qed.

Lemma forZ_ext {St : Type} (body1 body2 : Z -> St -> St) (lo hi : Z) (s : St) :
  (forall i s, body1 i s = body2 i s) -> forZ lo hi body1 s = forZ lo hi body2 s.
Proof.
  intros Hb. apply (forZ_rel eq); [|reflexivity]. intros i s1 s2 ->. apply Hb.
Qed.

Lemma visitNeighbor_same (t1 t2 : TileMap) (st : list (Z * Z) * list Z) (n : Z * Z) :
  sameTerrain t1 t2 -> visitNeighbor t1 st n = visitNeighbor t2 st n.
Proof.
  intros Hs. pose proof Hs as (Hw & Hh & _). unfold visitNeighbor.
  now rewrite Hw, Hh, (sameTerrain_isWalkable t1 t2 _ _ Hs).
Qed.

Lemma floodFill_same (fuel : nat) (t1 t2 : TileMap) :
  sameTerrain t1 t2 ->
  forall queue visited count,
    floodFill fuel t1 queue visited count = floodFill fuel t2 queue visited count.
Proof.
  intros Hs.
  induction fuel as [|fuel IH]; intros queue visited count;
    destruct queue as [|current queue]; cbn [floodFill]; try reflexivity.
  rewrite (fold_left_ext (visitNeighbor t1) (visitNeighbor t2))
    by (intros a b; now apply visitNeighbor_same).
  destruct (fold_left _ _ _) as [q v]. apply IH.
Qed.

Lemma countReachable_same (fuel : nat) (t1 t2 : TileMap) (sp : Z * Z) :
  sameTerrain t1 t2 -> countReachable fuel t1 sp = countReachable fuel t2 sp.
Proof.
  intros Hs. pose proof Hs as (Hw & Hh & _). unfold countReachable.
  rewrite (sameTerrain_isWalkable t1 t2 _ _ Hs), Hw, Hh.
  destruct (negb _); [reflexivity|]. now apply floodFill_same.
Qed.

Lemma countWalkable_same (t1 t2 : TileMap) :
  sameTerrain t1 t2 -> countWalkable t1 = countWalkable t2.
Proof.
  intros Hs. pose proof Hs as (Hw & Hh & _). unfold countWalkable. rewrite Hw, Hh.
  apply forZ_ext. intros y c. apply forZ_ext. intros x c'.
  now rewrite (sameTerrain_isWalkable t1 t2 _ _ Hs).
Qed.

Lemma hasClearNeighbors_same (t1 t2 : TileMap) (x y : Z) :
  sameTerrain t1 t2 -> hasClearNeighbors t1 x y = hasClearNeighbors t2 x y.
Proof.
  intros Hs. pose proof Hs as (Hw & Hh & _). unfold hasClearNeighbors. cbn [forallb].
  now rewrite Hw, Hh, !(sameTerrain_isWalkable t1 t2 _ _ Hs).
Qed.

Lemma extractMetadata_same (t1 t2 : TileMap) (config : MapGenerationConfig) :
  sameTerrain t1 t2 -> extractMetadata t1 config = extractMetadata t2 config.
Proof.
  intros Hs. pose proof Hs as (Hw & Hh & _). unfold extractMetadata. rewrite Hw, Hh.
  apply forZ_ext. intros y md. apply forZ_ext. intros x md'.
  now rewrite (sameTerrain_isWalkable t1 t2 _ _ Hs), (hasClearNeighbors_same t1 t2 _ _ Hs).
Qed.

Lemma paintBase_rel (t1 t2 : TileMap) :
  sameTerrain t1 t2 -> sameTerrain (paintBase t1) (paintBase t2).
Proof.
  intros Hs. pose proof Hs as (Hw & Hh & _). unfold paintBase. rewrite Hw, Hh.
  apply (forZ_rel sameTerrain); [|exact Hs].
  intros y u1 u2 Hu. apply (forZ_rel sameTerrain); [|exact Hu].
  intros x v1 v2 Hv. now apply sameTerrain_setTile.
Qed.

(** *** Attempts *)

Section AttemptFacts.
Context `{MathLib}.

Lemma runAttempt_same (fuel : nat) (t1 t2 : TileMap) (config : MapGenerationConfig)
    (attemptSeed attempt : Z) :
  sameTerrain (paintBase t1) (paintBase t2) ->
  bothOr sameAttempt (runAttempt fuel t1 config attemptSeed attempt)
                     (runAttempt fuel t2 config attemptSeed attempt).
Proof.
  intros Hp. unfold runAttempt.
  set (rng := SeededRng.create _).
  destruct (applyJaggedBorders_same _ _ rng config Hp) as (Hj & Hr).
  destruct (applyJaggedBorders (paintBase t1) rng config) as [ta ra].
  destruct (applyJaggedBorders (paintBase t2) rng config) as [tb rb].
  cbn in Hj, Hr. subst rb.
  pose proof (scatterBlobs_same fuel ta tb ra config [] Hj) as Hsc.
  destruct (scatterBlobs fuel ta ra config []) as [[[tc rc] bc]|],
           (scatterBlobs fuel tb ra config []) as [[[td rd] bd]|];
    cbn in Hsc; try contradiction; [|exact I].
  destruct Hsc as (Hc & Hrc & Hbc). cbn in Hc, Hrc, Hbc. subst rd bd.
  pose proof (carveLoops_same fuel _ _ rc config (clearSafeZone_same tc td config Hc)) as Hcl.
  destruct (carveLoops fuel (clearSafeZone tc config) rc config) as [[te re]|],
           (carveLoops fuel (clearSafeZone td config) rc config) as [[tf rf]|];
    cbn in Hcl; try contradiction; [|exact I].
  destruct Hcl as (He & Hre). cbn in He, Hre. subst rf.
  pose proof (reinforceOuterWall_same te tf He) as Hw.
  rewrite (countReachable_same fuel _ _ (gc_spawn config) Hw).
  destruct (countReachable fuel (reinforceOuterWall tf) (gc_spawn config)); [|exact I].
  cbn. pose proof Hw as (Hww & Hhh & _).
  rewrite (countWalkable_same _ _ Hw), Hww, Hhh.
  split; [exact Hw|repeat split].
Qed.

Lemma attemptLoop_same (n : nat) : forall attempt fuel t1 t2 config attemptSeed,
  sameTerrain (paintBase t1) (paintBase t2) ->
  bothOr sameOutcome (attemptLoop n attempt fuel t1 config attemptSeed)
                     (attemptLoop n attempt fuel t2 config attemptSeed).
Proof.
  induction n as [|n IH]; intros attempt fuel t1 t2 config attemptSeed Hp; cbn [attemptLoop].
  - split; [reflexivity|]. split; [exact Hp|]. intros [x Hx]. discriminate.
  - pose proof (runAttempt_same fuel t1 t2 config attemptSeed attempt Hp) as Ha.
    destruct (runAttempt fuel t1 config attemptSeed attempt) as [a|],
             (runAttempt fuel t2 config attemptSeed attempt) as [b|];
      cbn in Ha; try contradiction; [|exact I].
    destruct Ha as (Ht & Hs & Hb & Hr & Hw). rewrite Hs, Hb, Hr, Hw.
    destruct (Qle_bool _ _).
    + cbn. rewrite (extractMetadata_same _ _ config Ht).
      split; [reflexivity|]. split; [now apply paintBase_rel|]. intros _. exact Ht.
    + apply IH. now apply paintBase_rel.
Qed.

Lemma fallbackPass_same (fuel : nat) (t1 t2 : TileMap) (config : MapGenerationConfig)
    (attemptSeed : Z) :
  sameTerrain (paintBase t1) (paintBase t2) ->
  bothOr sameResult (fallbackPass fuel t1 config attemptSeed)
                    (fallbackPass fuel t2 config attemptSeed).
Proof.
  intros Hp. unfold fallbackPass.
  set (rng := SeededRng.create _).
  pose proof (scatterBlobs_same fuel _ _ rng config [] Hp) as Hsc.
  destruct (scatterBlobs fuel (paintBase t1) rng config []) as [[[tc rc] bc]|],
           (scatterBlobs fuel (paintBase t2) rng config []) as [[[td rd] bd]|];
    cbn in Hsc; try contradiction; [|exact I].
  destruct Hsc as (Hc & Hrc & Hbc). cbn in Hc, Hrc, Hbc. subst rd bd.
  pose proof (carveLoops_same fuel _ _ rc config (clearSafeZone_same tc td config Hc)) as Hcl.
  destruct (carveLoops fuel (clearSafeZone tc config) rc config) as [[te re]|],
           (carveLoops fuel (clearSafeZone td config) rc config) as [[tf rf]|];
    cbn in Hcl; try contradiction; [|exact I].
  destruct Hcl as (He & Hre). cbn in He, Hre. subst rf.
  rewrite (countReachable_same fuel _ _ (gc_spawn config) He).
  destruct (countReachable fuel tf (gc_spawn config)); [|exact I].
  cbn. pose proof He as (Hww & Hhh & _).
  rewrite (countWalkable_same _ _ He), (extractMetadata_same _ _ config He), Hww, Hhh.
  split; [reflexivity|exact He].
Qed.

End AttemptFacts.

(** *** The shape of the grid *)

Lemma writeArr_length (l : list Z) (idx v : Z) : length (writeArr l idx v) = length l.
Proof. unfold writeArr. destruct (idx <? 0); [reflexivity|apply length_insert]. Qed.

Lemma setTile_shape (t : TileMap) (x y base : Z) : gridShape (setTile t x y base) = gridShape t.
Proof.
  unfold setTile. destruct (negb (inBounds t x y)); [reflexivity|].
  destruct (negb _); unfold gridShape; cbn; now rewrite writeArr_length.
Qed.

Lemma setWallTile_shape (t : TileMap) (x y hitPoints : Z) (ind : bool) :
  gridShape (setWallTile t x y hitPoints ind) = gridShape t.
Proof.
  unfold setWallTile. destruct (negb (inBounds t x y)); [reflexivity|].
  destruct (negb _); unfold gridShape; cbn; now rewrite !writeArr_length.
Qed.

Lemma tm_wf_shape (t1 t2 : TileMap) : gridShape t1 = gridShape t2 -> tm_wf t2 -> tm_wf t1.
Proof.
  unfold gridShape, tm_wf. intros [= -> -> -> -> ->]. auto.
Qed.

Lemma forZ_pres {St : Type} (P : St -> Prop) (body : Z -> St -> St) (lo hi : Z) (s : St) :
  (forall i s, P s -> P (body i s)) -> P s -> P (forZ lo hi body s).
Proof.
  intros Hb Hs. apply (forZ_rel (fun a (_ : unit) => P a) body (fun _ u => u) lo hi s tt);
    [intros i s1 _; apply Hb|exact Hs].
Qed.

Lemma iterRangeOpt_pres {St : Type} (P : St -> Prop) (body : Z -> St -> option St) :
  (forall i s s', P s -> body i s = Some s' -> P s') ->
  forall n i s s', P s -> iterRangeOpt n i body s = Some s' -> P s'.
Proof.
  intros Hb. induction n as [|n IH]; intros i s s' Hs; cbn.
  - now intros [= <-].
  - destruct (body i s) as [s1|] eqn:E; [|discriminate]. apply IH. eapply Hb; eassumption.
Qed.

Lemma paintBase_shape (t : TileMap) : gridShape (paintBase t) = gridShape t.
Proof.
  unfold paintBase.
  apply (forZ_pres (fun u => gridShape u = gridShape t)); [|reflexivity].
  intros y u Hu. apply (forZ_pres (fun v => gridShape v = gridShape t)); [|exact Hu].
  intros x v Hv. now rewrite setTile_shape.
Qed.

Lemma applyJaggedBorders_shape (t : TileMap) (rng : Z) (config : MapGenerationConfig) :
  gridShape (fst (applyJaggedBorders t rng config)) = gridShape t.
Proof.
  unfold applyJaggedBorders.
  destruct (SeededRng.int rng _ _) as [topT rngA].
  destruct (SeededRng.int rngA _ _) as [bottomT rngB].
  match goal with |- context [forZ 0 (width t) ?body ?init] =>
    pose proof (forZ_pres (fun st : TileMap * Z * Z * Z =>
                  gridShape (fst (fst (fst st))) = gridShape t) body 0 (width t) init) as Hc;
    destruct (forZ 0 (width t) body init) as [[[ta ra] xa] ya]
  end.
  assert (Ha : gridShape ta = gridShape t).
  { apply Hc; [|reflexivity].
    intros x [[[u r] a] b] Hu. cbn in Hu.
    destruct (SeededRng.int r _ _) as [d1 r3]. destruct (SeededRng.int r3 _ _) as [d2 r4]. cbn.
    apply (forZ_pres (fun v => gridShape v = gridShape t));
      [intros; now rewrite setWallTile_shape|].
    apply (forZ_pres (fun v => gridShape v = gridShape t));
      [intros; now rewrite setWallTile_shape|exact Hu]. }
  clear Hc.
  destruct (SeededRng.int ra _ _) as [leftT rngC].
  destruct (SeededRng.int rngC _ _) as [rightT rngD].
  match goal with |- context [forZ 0 (height t) ?body ?init] =>
    pose proof (forZ_pres (fun st : TileMap * Z * Z * Z =>
                  gridShape (fst (fst (fst st))) = gridShape t) body 0 (height t) init) as Hc;
    destruct (forZ 0 (height t) body init) as [[[tc rc] xc] yc]
  end.
  cbn. apply Hc; [|exact Ha].
  intros y [[[u r] a] b] Hu. cbn in Hu.
  destruct (SeededRng.int r _ _) as [d1 r3]. destruct (SeededRng.int r3 _ _) as [d2 r4]. cbn.
  apply (forZ_pres (fun v => gridShape v = gridShape t));
    [intros; now rewrite setWallTile_shape|].
  apply (forZ_pres (fun v => gridShape v = gridShape t));
    [intros; now rewrite setWallTile_shape|exact Hu].
Qed.

Lemma clearSafeZone_shape (t : TileMap) (config : MapGenerationConfig) :
  gridShape (clearSafeZone t config) = gridShape t.
Proof.
  unfold clearSafeZone. destruct (gc_spawn config) as [sx sy].
  apply (forZ_pres (fun u => gridShape u = gridShape t)); [|reflexivity].
  intros y u Hu. apply (forZ_pres (fun v => gridShape v = gridShape t)); [|exact Hu].
  intros x v Hv. destruct (_ <=? _); [now rewrite setTile_shape|exact Hv].
Qed.

Lemma reinforceOuterWall_shape (t : TileMap) : gridShape (reinforceOuterWall t) = gridShape t.
Proof.
  unfold reinforceOuterWall.
  apply (forZ_pres (fun u => gridShape u = gridShape t)).
  - intros y u Hu. now rewrite !setWallTile_shape.
  - apply (forZ_pres (fun u => gridShape u = gridShape t)); [|reflexivity].
    intros x u Hu. now rewrite !setWallTile_shape.
Qed.

Lemma carveDisk_shape (t : TileMap) (cx cy radius : Z) :
  gridShape (carveDisk t cx cy radius) = gridShape t.
Proof.
  unfold carveDisk.
  apply (forZ_pres (fun u => gridShape u = gridShape t)); [|reflexivity].
  intros y u Hu. apply (forZ_pres (fun v => gridShape v = gridShape t)); [|exact Hu].
  intros x v Hv. destruct (_ <? _); [exact Hv|].
  destruct (_ || _); [exact Hv|]. now rewrite setTile_shape.
Qed.

Lemma carveLineLoop_shape (fuel : nat) : forall t x y x1 y1 dx dy sx sy err thickness t',
  carveLineLoop fuel t x y x1 y1 dx dy sx sy err thickness = Some t' ->
  gridShape t' = gridShape t.
Proof.
  induction fuel as [|fuel IH]; intros t x y x1 y1 dx dy sx sy err thickness t';
    cbn [carveLineLoop]; [discriminate|].
  destruct ((x =? x1) && (y =? y1)).
  - intros [= <-]. apply carveDisk_shape.
  - intros Hl. apply IH in Hl. now rewrite Hl, carveDisk_shape.
Qed.

Section ShapeFacts.
Context `{MathLib}.

Lemma paintBlob_shape (t : TileMap) (cx cy radius : Z) (jitter : Q) (rng : Z) :
  gridShape (fst (fst (paintBlob t cx cy radius jitter rng))) = gridShape t.
Proof.
  unfold paintBlob.
  apply (forZ_pres (fun st : TileMap * Z * Z => gridShape (fst (fst st)) = gridShape t));
    [|reflexivity].
  intros y st Hst.
  apply (forZ_pres (fun st : TileMap * Z * Z => gridShape (fst (fst st)) = gridShape t));
    [|exact Hst].
  intros x [[u r] p] Hu. cbn in Hu.
  destruct (_ <? _); [exact Hu|].
  destruct (SeededRng.next r) as [v r'].
  destruct (if radius =? 0 then false else _); [|exact Hu].
  destruct (match getTile u x y with Some _ => _ | None => true end); [|exact Hu].
  cbn. now rewrite setWallTile_shape.
Qed.

Lemma scatterLoop_shape (fuel : nat) :
  forall i blobTargetCount target t rng config painted bounds t' rng' bounds',
  scatterLoop fuel i blobTargetCount target t rng config painted bounds
    = Some (t', rng', bounds') ->
  gridShape t' = gridShape t.
Proof.
  induction fuel as [|fuel IH];
    intros i blobTargetCount target t rng config painted bounds t' rng' bounds';
    cbn [scatterLoop].
  - destruct (negb _); [|discriminate]. now intros [= <- <- <-].
  - destruct (negb _); [now intros [= <- <- <-]|].
    destruct (SeededRng.int rng _ _) as [radius rngA].
    destruct (SeededRng.int rngA _ _) as [cx rngB].
    destruct (SeededRng.int rngB _ _) as [cy rngC].
    pose proof (paintBlob_shape t cx cy radius (blobEdgeJitter config) rngC) as Hp.
    destruct (paintBlob t cx cy radius (blobEdgeJitter config) rngC) as [[u r] p].
    cbn in Hp. destruct (0 <? p); intros Hl; apply IH in Hl; congruence.
Qed.

Lemma scatterBlobs_shape (fuel : nat) (t : TileMap) (rng : Z) (config : MapGenerationConfig)
    (bounds : list MapObstacleBounds) (t' : TileMap) (rng' : Z)
    (bounds' : list MapObstacleBounds) :
  scatterBlobs fuel t rng config bounds = Some (t', rng', bounds') ->
  gridShape t' = gridShape t.
Proof.
  unfold scatterBlobs. destruct (SeededRng.int rng _ _) as [count rngA].
  apply scatterLoop_shape.
Qed.

Lemma carveLoops_shape (fuel : nat) (t : TileMap) (rng : Z) (config : MapGenerationConfig)
    (t' : TileMap) (rng' : Z) :
  carveLoops fuel t rng config = Some (t', rng') -> gridShape t' = gridShape t.
Proof.
  unfold carveLoops, forZOpt. intros Hl.
  apply (iterRangeOpt_pres (fun st : TileMap * Z => gridShape (fst st) = gridShape t))
    in Hl; [exact Hl| |reflexivity].
  intros i [u r] [u' r'] Hu. cbn in Hu.
  destruct (SeededRng.float r _ _) as [jitter r3].
  unfold carveLoop, forZOpt.
  match goal with |- context [iterRangeOpt ?n 1 ?body ?init] =>
    destruct (iterRangeOpt n 1 body init) as [[[[ta ra] xa] ya]|] eqn:E; [|discriminate]
  end.
  intros [= <- <-]. cbn.
  apply (iterRangeOpt_pres (fun st : TileMap * Z * Z * Z =>
           gridShape (fst (fst (fst st))) = gridShape t)) in E; [exact E| |exact Hu].
  intros j [[[v rv] a] b] [[[v' rv'] a'] b'] Hv. cbn in Hv. unfold carveSegment.
  destruct (SeededRng.float rv _ _) as [jit r4].
  destruct (carveLine fuel v a b _ _ _) as [v2|] eqn:El; [|discriminate].
  intros [= <- <- <- <-]. cbn. unfold carveLine in El.
  apply carveLineLoop_shape in El. congruence.
Qed.

Lemma runAttempt_shape (fuel : nat) (t : TileMap) (config : MapGenerationConfig)
    (attemptSeed attempt : Z) (a : Attempt) :
  runAttempt fuel t config attemptSeed attempt = Some a ->
  gridShape (at_tileMap a) = gridShape t.
Proof.
  unfold runAttempt. set (rng := SeededRng.create _).
  pose proof (applyJaggedBorders_shape (paintBase t) rng config) as Hj.
  destruct (applyJaggedBorders (paintBase t) rng config) as [ta ra]. cbn in Hj.
  destruct (scatterBlobs fuel ta ra config []) as [[[tc rc] bc]|] eqn:Es; [|discriminate].
  apply scatterBlobs_shape in Es.
  destruct (carveLoops fuel (clearSafeZone tc config) rc config) as [[te re]|] eqn:Ec;
    [|discriminate].
  apply carveLoops_shape in Ec.
  destruct (countReachable fuel _ _); [|discriminate].
  intros [= <-]. cbn.
  now rewrite reinforceOuterWall_shape, Ec, clearSafeZone_shape, Es, Hj, paintBase_shape.
Qed.


End ShapeFacts.

Lemma buildConfig_dims (t1 t2 : TileMap) (base overrides : PartialConfig) :
  width t1 = width t2 -> height t1 = height t2 ->
  buildConfig t1 base overrides = buildConfig t2 base overrides.
Proof. intros Hw Hh. unfold buildConfig. now rewrite Hw, Hh. Qed.

Section GeneratorClaims.
Context `{MathLib}.

(** C4 (as amended). Two calls of [generate] with the same configuration,
    seed included, on well-formed grids of the same width and height either
    both fail to finish within the fuel or both return, and then they return
    the same result record (seed, tiles lists, collision grid,
    [reachableRatio], [walkableRatio]) and grids with the same base and
    flags on every tile, whatever the two grids held before and whatever the
    ambient random source would have drawn.  On one and the same grid the
    outcome, grid included, does not depend on the ambient source at all. *)
Theorem C4_generate_deterministic
    (fuel : nat) (r1 r2 : Rand) (base overrides : PartialConfig) (t1 t2 : TileMap) :
  tm_wf t1 -> tm_wf t2 ->
  width t1 = width t2 -> height t1 = height t2 ->
  is_Some (seed (buildConfig t1 base overrides)) ->
  bothOr sameResult (generate fuel r1 base t1 overrides) (generate fuel r2 base t2 overrides) /\
  generate fuel r1 base t1 overrides = generate fuel r2 base t1 overrides.
Proof.
  intros W1 W2 Hw Hh [sd Hsd].
  pose proof (paintBase_same t1 t2 W1 W2 Hw Hh) as Hp.
  unfold generate. rewrite <- (buildConfig_dims t1 t2 base overrides Hw Hh), Hsd.
  split; [|reflexivity].
  set (config := buildConfig t1 base overrides).
  pose proof (attemptLoop_same (Z.to_nat (maxAttempts config)) 0 fuel t1 t2 config sd Hp) as Ha.
  destruct (attemptLoop _ 0 fuel t1 config sd) as [[res1 g1]|],
           (attemptLoop _ 0 fuel t2 config sd) as [[res2 g2]|];
    cbn in Ha; try contradiction; [|exact I].
  destruct Ha as (Hres & Hpb & Hacc). cbn in Hres, Hpb, Hacc. subst res2.
  destruct res1 as [res|].
  - split; [reflexivity|]. apply Hacc. now exists res.
  - now apply fallbackPass_same.
Qed.


End GeneratorClaims.

(** C4, as first stated, fails: the same seeded configuration on two grids
    of the same size, one fresh and one carrying a decor overlay, returns
    the same [reachableRatio] but grids whose packed words differ on the
    centre tile (259 against 65795). *)
Lemma C4_counterexample_overlay_survives :
  width freshGrid = width decoratedGrid /\ height freshGrid = height decoratedGrid /\
  exists ra ga rb gb,
    generate (H := standInMath) 50 halfDraws noOverrides freshGrid (plainConfig 0)
      = Some (ra, ga) /\
    generate (H := standInMath) 50 halfDraws noOverrides decoratedGrid (plainConfig 0)
      = Some (rb, gb) /\
    reachableRatio ra = reachableRatio rb /\
    readArr (mask ga) 4 = 259 /\ readArr (mask gb) 4 = 65795 /\
    mask ga <> mask gb.
Proof.
  split; [reflexivity|]. split; [reflexivity|].
  eexists _, _, _, _. split; [vm_compute; reflexivity|].
  split; [vm_compute; reflexivity|].
  split; [reflexivity|]. split; [reflexivity|]. split; [reflexivity|].
  vm_compute. discriminate.
Qed.


(** * Properties beyond the specification *)

(** ** The world grid: packing, tiles, walls, overlays *)

Ltac bits_cmp :=
  repeat match goal with
  | |- context [?a <? ?b] => destruct (Z.ltb_spec a b); try lia
  end.

Ltac bits_step :=
  rewrite ?Z.land_spec, ?Z.lor_spec, ?Z.lxor_spec, ?Z.shiftr_spec, ?Z.shiftl_spec,
    ?Z.lnot_spec by lia;
  repeat match goal with
  | |- context [Z.testbit (Z.ones ?k) ?i] => rewrite (Z.testbit_ones_nonneg k i) by lia
  | |- context [Z.testbit ?a ?i] => rewrite (Z.testbit_neg_r a i) by lia
  end;
  bits_cmp;
  rewrite ?andb_false_r, ?andb_true_r, ?orb_false_r, ?orb_false_l, ?andb_false_l,
    ?andb_true_l, ?orb_true_r, ?orb_true_l.

Ltac bits :=
  apply Z.bits_inj'; intros n Hn;
  repeat (progress bits_step);
  try reflexivity; try (f_equal; lia).

Lemma encode_uint32 (base flags decor effect state : Z) :
  encode base flags decor effect state =
  Z.lor (Z.lor (Z.lor (Z.lor
       (Z.land base (Z.ones 8))
       (Z.land (Z.shiftl flags 8) (Z.shiftl (Z.ones 8) 8)))
       (Z.land (Z.shiftl decor 16) (Z.shiftl (Z.ones 4) 16)))
       (Z.land (Z.shiftl effect 20) (Z.shiftl (Z.ones 4) 20)))
       (Z.land (Z.shiftl state 24) (Z.shiftl (Z.ones 4) 24)).
Proof.
  unfold encode, ToUint32.
  rewrite <- Z.land_ones by lia.
  change MASK_BASE with (Z.ones 8). change MASK_FLAGS with (Z.shiftl (Z.ones 8) 8).
  change MASK_DECOR with (Z.shiftl (Z.ones 4) 16).
  change MASK_EFFECT with (Z.shiftl (Z.ones 4) 20).
  change MASK_STATE with (Z.shiftl (Z.ones 4) 24).
  change SHIFT_FLAGS with 8. change SHIFT_DECOR with 16. change SHIFT_EFFECT with 20.
  change SHIFT_STATE with 24.
  bits.
Qed.

Lemma decode_encode (base flags decor effect state : Z) :
  decodeBase (encode base flags decor effect state) = Z.land base 255 /\
  decodeFlags (encode base flags decor effect state) = Z.land flags 255 /\
  decodeDecor (encode base flags decor effect state) = Z.land decor 15 /\
  decodeEffect (encode base flags decor effect state) = Z.land effect 15 /\
  decodeState (encode base flags decor effect state) = Z.land state 15.
Proof.
  rewrite encode_uint32.
  unfold decodeBase, decodeFlags, decodeDecor, decodeEffect, decodeState.
  change MASK_BASE with (Z.ones 8). change MASK_FLAGS with (Z.shiftl (Z.ones 8) 8).
  change MASK_DECOR with (Z.shiftl (Z.ones 4) 16).
  change MASK_EFFECT with (Z.shiftl (Z.ones 4) 20).
  change MASK_STATE with (Z.shiftl (Z.ones 4) 24).
  change SHIFT_FLAGS with 8. change SHIFT_DECOR with 16. change SHIFT_EFFECT with 20.
  change SHIFT_STATE with 24.
  change 255 with (Z.ones 8). change 15 with (Z.ones 4).
  repeat split; bits.
Qed.

(** X1. Packing and unpacking a tile is a round trip: for a base and flags in
    0..255 and a decor, effect and state in 0..15, the word that encode builds
    is an unsigned 32-bit integer and decodeBase, decodeFlags, decodeDecor,
    decodeEffect and decodeState read back exactly the five fields. *)
Theorem encode_decode_round_trip (base flags decor effect state : Z) :
  0 <= base < 256 -> 0 <= flags < 256 -> 0 <= decor < 16 -> 0 <= effect < 16 ->
  0 <= state < 16 ->
  let m := encode base flags decor effect state in
  ToUint32 m = m /\
  decodeBase m = base /\ decodeFlags m = flags /\ decodeDecor m = decor /\
  decodeEffect m = effect /\ decodeState m = state.
Proof.
  intros Hb Hf Hd He Hs m.
  assert (H8 : forall v, 0 <= v < 256 -> Z.land v 255 = v).
  { intros v Hv. change 255 with (Z.ones 8). rewrite Z.land_ones by lia. apply Z.mod_small. lia. }
  assert (H4 : forall v, 0 <= v < 16 -> Z.land v 15 = v).
  { intros v Hv. change 15 with (Z.ones 4). rewrite Z.land_ones by lia. apply Z.mod_small. lia. }
  destruct (decode_encode base flags decor effect state) as (E1 & E2 & E3 & E4 & E5).
  fold m in E1, E2, E3, E4, E5.
  rewrite E1, E2, E3, E4, E5, !H8, !H4 by assumption.
  split; [|repeat split]. unfold m, encode, ToUint32. apply Z.mod_mod. lia.
Qed.

Lemma readArr_writeArr_eq (l : list Z) (idx v : Z) :
  0 <= idx < Z.of_nat (length l) -> readArr (writeArr l idx v) idx = v.
Proof.
  intros Hi. unfold readArr, writeArr. destruct (Z.ltb_spec idx 0); [lia|].
  rewrite list_lookup_insert_eq by lia. reflexivity.
Qed.

Lemma readArr_writeArr_ne (l : list Z) (idx idx' v : Z) :
  0 <= idx' -> idx <> idx' -> readArr (writeArr l idx v) idx' = readArr l idx'.
Proof.
  intros Hi Hne. unfold readArr, writeArr. destruct (Z.ltb_spec idx 0); [reflexivity|].
  rewrite list_lookup_insert_ne by lia. reflexivity.
Qed.

Lemma inBounds_spec (tm : TileMap) (x y : Z) :
  inBounds tm x y = true <-> 0 <= x < width tm /\ 0 <= y < height tm.
Proof.
  unfold inBounds. rewrite !andb_true_iff, !Z.leb_le, !Z.ltb_lt. lia.
Qed.

Lemma index_inj (tm : TileMap) (x y x' y' : Z) :
  inBounds tm x y = true -> inBounds tm x' y' = true ->
  index tm x y = index tm x' y' -> x = x' /\ y = y'.
Proof.
  rewrite !inBounds_spec. unfold index. intros Hb Hb' He.
  assert (y = y') by nia. subst. lia.
Qed.

Lemma index_range (tm : TileMap) (x y : Z) :
  tm_wf tm -> inBounds tm x y = true ->
  0 <= index tm x y < Z.of_nat (length (mask tm)) /\
  0 <= index tm x y < Z.of_nat (length (hp tm)) /\
  0 <= index tm x y < Z.of_nat (length (durability tm)).
Proof.
  intros (Hw & Hh & Hm & Hp & Hd) Hb. pose proof (index_inBounds tm x y Hb).
  rewrite Hm, Hp, Hd. lia.
Qed.

Lemma decode_idem (m : Z) :
  Z.land (decodeBase m) 255 = decodeBase m /\
  Z.land (decodeFlags m) 255 = decodeFlags m /\
  Z.land (decodeDecor m) 15 = decodeDecor m /\
  Z.land (decodeEffect m) 15 = decodeEffect m /\
  Z.land (decodeState m) 15 = decodeState m.
Proof.
  unfold decodeBase, decodeFlags, decodeDecor, decodeEffect, decodeState.
  change MASK_BASE with (Z.ones 8). change MASK_FLAGS with (Z.shiftl (Z.ones 8) 8).
  change MASK_DECOR with (Z.shiftl (Z.ones 4) 16).
  change MASK_EFFECT with (Z.shiftl (Z.ones 4) 20).
  change MASK_STATE with (Z.shiftl (Z.ones 4) 24).
  change SHIFT_FLAGS with 8. change SHIFT_DECOR with 16. change SHIFT_EFFECT with 20.
  change SHIFT_STATE with 24.
  change 255 with (Z.ones 8). change 15 with (Z.ones 4).
  repeat split; bits.
Qed.

(** X2. On a grid whose arrays have the size of the grid, after setTile(x, y,
    base) at a tile inside the grid getTile(x, y) returns the base (its low 8
    bits) with the default flags of that base and the decor, effect, state,
    hp, durability, usage and occupants the tile had before; getTile at every
    other coordinate returns what it did before. *)
Theorem setTile_getTile (tm : TileMap) (x y base : Z) :
  tm_wf tm -> inBounds tm x y = true ->
  (exists old,
     getTile tm x y = Some old /\
     getTile (setTile tm x y base) x y =
       Some (mkTileSnapshot (Z.land base 255) (defaultFlagsForBase base) (ts_decor old)
               (ts_effect old) (ts_state old) (ts_hp old) (ts_durability old)
               (ts_usage old) (ts_occupants old))) /\
  (forall x' y', (x', y') <> (x, y) ->
     getTile (setTile tm x y base) x' y' = getTile tm x' y').
Proof.
  intros Hwf Hb. pose proof (index_range tm x y Hwf Hb) as (Hm & _ & _).
  assert (Hfl : Z.land (defaultFlagsForBase base) 255 = defaultFlagsForBase base).
  { unfold defaultFlagsForBase. destruct (base =? _); [reflexivity|].
    destruct (base =? _); reflexivity. }
  split.
  - eexists. split; [unfold getTile; rewrite Hb; reflexivity|].
    unfold getTile, setTile. rewrite Hb. cbn [negb].
    set (m := readArr (mask tm) (index tm x y)).
    set (m' := encode base (defaultFlagsForBase base) (decodeDecor m) (decodeEffect m) (decodeState m)).
    assert (Hr : forall t, inBounds t x y = inBounds tm x y -> index t x y = index tm x y ->
                mask t = writeArr (mask tm) (index tm x y) m' ->
                hp t = hp tm -> durability t = durability tm -> usage t = usage tm ->
                occupants t = occupants tm ->
                (if negb (inBounds t x y) then None else
                 Some (mkTileSnapshot (decodeBase (readArr (mask t) (index t x y)))
                   (decodeFlags (readArr (mask t) (index t x y)))
                   (decodeDecor (readArr (mask t) (index t x y)))
                   (decodeEffect (readArr (mask t) (index t x y)))
                   (decodeState (readArr (mask t) (index t x y)))
                   (readArr (hp t) (index t x y)) (readArr (durability t) (index t x y))
                   (readArr (usage t) (index t x y))
                   (default [] (occupants t !! Z.to_nat (index t x y))))) =
                Some (mkTileSnapshot (Z.land base 255) (defaultFlagsForBase base)
                   (decodeDecor m) (decodeEffect m) (decodeState m)
                   (readArr (hp tm) (index tm x y)) (readArr (durability tm) (index tm x y))
                   (readArr (usage tm) (index tm x y))
                   (default [] (occupants tm !! Z.to_nat (index tm x y))))).
    { intros t Hbt Hit Hmt Hht Hdt Hut Hot. rewrite Hbt, Hb, Hit, Hmt, Hht, Hdt, Hut, Hot.
      cbn [negb]. rewrite readArr_writeArr_eq by exact Hm. unfold m'.
      pose proof (decode_encode base (defaultFlagsForBase base) (decodeDecor m)
                    (decodeEffect m) (decodeState m)) as (E1 & E2 & E3 & E4 & E5).
      pose proof (decode_idem m) as (_ & _ & I3 & I4 & I5).
      rewrite E1, E2, E3, E4, E5, Hfl, I3, I4, I5. reflexivity. }
    destruct (negb (base =? decodeBase m)); apply Hr; reflexivity.
  - intros x' y' Hne. unfold setTile. rewrite Hb. cbn [negb].
    assert (Hr : forall t, width t = width tm -> height t = height tm ->
                mask t = writeArr (mask tm) (index tm x y)
                  (encode base (defaultFlagsForBase base)
                     (decodeDecor (readArr (mask tm) (index tm x y)))
                     (decodeEffect (readArr (mask tm) (index tm x y)))
                     (decodeState (readArr (mask tm) (index tm x y)))) ->
                hp t = hp tm -> durability t = durability tm -> usage t = usage tm ->
                occupants t = occupants tm -> getTile t x' y' = getTile tm x' y').
    { intros t Hwt Hht Hmt Hpt Hdt Hut Hot. unfold getTile.
      assert (Hbt : inBounds t x' y' = inBounds tm x' y') by (unfold inBounds; now rewrite Hwt, Hht).
      rewrite Hbt. destruct (inBounds tm x' y') eqn:Hb'; [|reflexivity]. cbn [negb].
      assert (Hit : index t x' y' = index tm x' y') by (unfold index; now rewrite Hwt).
      rewrite Hit, Hmt, Hpt, Hdt, Hut, Hot.
      rewrite readArr_writeArr_ne; [reflexivity|apply (index_inBounds tm x' y' Hb')|].
      intros He. apply (index_inj tm x y x' y' Hb Hb') in He as [-> ->]. now apply Hne. }
    destruct (negb _); apply Hr; reflexivity.
Qed.

Lemma ToInt16_id (v : Z) : -32768 <= v <= 32767 -> ToInt16 v = v.
Proof. intros Hv. unfold ToInt16. rewrite Z.mod_small; lia. Qed.

Lemma flag_test (f k : Z) : 0 <= k -> negb (Z.land f (2 ^ k) =? 0) = Z.testbit f k.
Proof.
  intros Hk. destruct (Z.testbit f k) eqn:E.
  - destruct (Z.eqb_spec (Z.land f (2 ^ k)) 0) as [E0|]; [|reflexivity].
    assert (Hb : Z.testbit (Z.land f (2 ^ k)) k = true)
      by (rewrite Z.land_spec, E, Z.pow2_bits_true by lia; reflexivity).
    rewrite E0, Z.bits_0 in Hb. discriminate.
  - replace (Z.land f (2 ^ k)) with 0; [reflexivity|].
    symmetry. apply Z.bits_inj'. intros n Hn.
    rewrite Z.land_spec, Z.bits_0, Z.pow2_bits_eqb by lia.
    destruct (Z.eqb_spec k n); [subst; now rewrite E|apply andb_false_r].
Qed.

Lemma isWalkable_flags (tm : TileMap) (x y : Z) :
  inBounds tm x y = true ->
  isWalkable tm x y = Z.testbit (decodeFlags (readArr (mask tm) (index tm x y))) 0.
Proof.
  intros Hb. unfold isWalkable. rewrite Hb. cbn [negb]. apply (flag_test _ 0). lia.
Qed.

Lemma isBlocked_flags (tm : TileMap) (x y : Z) :
  inBounds tm x y = true ->
  isBlocked tm x y = Z.testbit (decodeFlags (readArr (mask tm) (index tm x y))) 1.
Proof.
  intros Hb. unfold isBlocked. rewrite Hb. cbn [negb]. apply (flag_test _ 1). lia.
Qed.

Ltac tm_proj :=
  cbn [width height virtualPixelScale mask hp durability usage overlayTTL occupants dirtyTiles
       set_mask set_hp set_durability set_dirtyTiles set_overlayTTL markDirty].

Lemma damageWallTile_destroys (tm : TileMap) (x y amount : Z) :
  tm_wf tm -> inBounds tm x y = true ->
  decodeBase (readArr (mask tm) (index tm x y)) = BaseType.Wall ->
  readArr (durability tm) (index tm x y) < 200 ->
  -32768 <= readArr (hp tm) (index tm x y) <= 32767 ->
  readArr (hp tm) (index tm x y) <= amount ->
  let idx := index tm x y in
  let m := readArr (mask tm) idx in
  let r := damageWallTile tm x y amount in
  fst r = true /\
  width (snd r) = width tm /\ height (snd r) = height tm /\
  mask (snd r) = writeArr (mask tm) idx
            (encode BaseType.Floor FlagBits.Walkable (decodeDecor m) (decodeEffect m)
               (decodeState m)) /\
  hp (snd r) = writeArr (writeArr (hp tm) idx (Z.max (-32768) (readArr (hp tm) idx - amount))) idx 0 /\
  durability (snd r) = writeArr (durability tm) idx 0 /\
  dirtyTiles (snd r) = dirtyTiles tm ++ [idx; idx].
Proof.
  intros Hwf Hb Hbase Hdur Hhp Hle. pose proof (index_range tm x y Hwf Hb) as (Hm & Hp & Hd).
  cbv zeta. unfold damageWallTile. rewrite Hb, Hbase. cbn [negb].
  change (BaseType.Wall =? BaseType.Wall) with true. cbn [negb].
  destruct (Z.leb_spec 200 (readArr (durability tm) (index tm x y))); [lia|].
  cbv zeta. tm_proj.
  rewrite readArr_writeArr_eq by exact Hp.
  rewrite ToInt16_id by lia.
  destruct (Z.leb_spec (Z.max (-32768) (Z.min 32767 (readArr (hp tm) (index tm x y) - amount))) 0); [|lia].
  unfold setTile. change (inBounds (set_hp tm _) x y) with (inBounds tm x y).
  rewrite Hb. cbn [negb]. cbv zeta.
  change (index (set_hp tm _) x y) with (index tm x y). tm_proj.
  rewrite Hbase. change (BaseType.Floor =? BaseType.Wall) with false. cbn [negb fst snd]. tm_proj.
  replace (Z.min 32767 (readArr (hp tm) (index tm x y) - amount))
    with (readArr (hp tm) (index tm x y) - amount) by lia.
  rewrite <- app_assoc. repeat split.
Qed.

Lemma damageWallTile_survives (tm : TileMap) (x y amount : Z) :
  tm_wf tm -> inBounds tm x y = true ->
  decodeBase (readArr (mask tm) (index tm x y)) = BaseType.Wall ->
  readArr (durability tm) (index tm x y) < 200 ->
  -32768 <= readArr (hp tm) (index tm x y) <= 32767 ->
  amount < readArr (hp tm) (index tm x y) ->
  damageWallTile tm x y amount =
    (false, set_hp tm (writeArr (hp tm) (index tm x y)
                         (Z.min 32767 (readArr (hp tm) (index tm x y) - amount)))).
Proof.
  intros Hwf Hb Hbase Hdur Hhp Hlt. pose proof (index_range tm x y Hwf Hb) as (Hm & Hp & Hd).
  unfold damageWallTile. rewrite Hb, Hbase. cbn [negb].
  change (BaseType.Wall =? BaseType.Wall) with true. cbn [negb].
  destruct (Z.leb_spec 200 (readArr (durability tm) (index tm x y))); [lia|].
  cbv zeta. tm_proj.
  rewrite readArr_writeArr_eq by exact Hp.
  rewrite ToInt16_id by lia.
  destruct (Z.leb_spec (Z.max (-32768) (Z.min 32767 (readArr (hp tm) (index tm x y) - amount))) 0); [lia|].
  replace (Z.max (-32768) (Z.min 32767 (readArr (hp tm) (index tm x y) - amount)))
    with (Z.min 32767 (readArr (hp tm) (index tm x y) - amount)) by lia.
  reflexivity.
Qed.

Lemma getTile_inBounds (tm : TileMap) (x y : Z) :
  inBounds tm x y = true ->
  getTile tm x y =
    Some (mkTileSnapshot (decodeBase (readArr (mask tm) (index tm x y)))
            (decodeFlags (readArr (mask tm) (index tm x y)))
            (decodeDecor (readArr (mask tm) (index tm x y)))
            (decodeEffect (readArr (mask tm) (index tm x y)))
            (decodeState (readArr (mask tm) (index tm x y)))
            (readArr (hp tm) (index tm x y)) (readArr (durability tm) (index tm x y))
            (readArr (usage tm) (index tm x y))
            (default [] (occupants tm !! Z.to_nat (index tm x y)))).
Proof. intros Hb. unfold getTile. now rewrite Hb. Qed.

Lemma inBounds_dims (t tm : TileMap) (x y : Z) :
  width t = width tm -> height t = height tm -> inBounds t x y = inBounds tm x y.
Proof. intros Hw Hh. unfold inBounds. now rewrite Hw, Hh. Qed.

Lemma index_dims (t tm : TileMap) (x y : Z) :
  width t = width tm -> index t x y = index tm x y.
Proof. intros Hw. unfold index. now rewrite Hw. Qed.

Lemma walkable_tile_flags (t : TileMap) (x y base decor effect state : Z) :
  inBounds t x y = true ->
  readArr (mask t) (index t x y) = encode base FlagBits.Walkable decor effect state ->
  isWalkable t x y = true /\ isBlocked t x y = false.
Proof.
  intros Hb Hread.
  pose proof (decode_encode base FlagBits.Walkable decor effect state) as (_ & E2 & _).
  rewrite isWalkable_flags, isBlocked_flags, Hread, E2 by exact Hb. split; reflexivity.
Qed.

Lemma damageWallTile_destroyed_read (tm : TileMap) (x y amount : Z) :
  tm_wf tm -> inBounds tm x y = true ->
  decodeBase (readArr (mask tm) (index tm x y)) = BaseType.Wall ->
  readArr (durability tm) (index tm x y) < 200 ->
  -32768 <= readArr (hp tm) (index tm x y) <= 32767 ->
  readArr (hp tm) (index tm x y) <= amount ->
  let m := readArr (mask tm) (index tm x y) in
  let r := damageWallTile tm x y amount in
  inBounds (snd r) x y = true /\ index (snd r) x y = index tm x y /\
  readArr (mask (snd r)) (index (snd r) x y) =
    encode BaseType.Floor FlagBits.Walkable (decodeDecor m) (decodeEffect m) (decodeState m).
Proof.
  intros Hwf Hb Hbase Hdur Hhp Hle m r.
  pose proof (index_range tm x y Hwf Hb) as (Hm & _ & _).
  destruct (damageWallTile_destroys tm x y amount Hwf Hb Hbase Hdur Hhp Hle)
    as (_ & Hw & Hh & Hmk & _).
  fold r m in Hw, Hh, Hmk.
  assert (Hi : index (snd r) x y = index tm x y) by (now apply index_dims).
  split; [rewrite (inBounds_dims _ tm) by assumption; exact Hb|]. split; [exact Hi|].
  rewrite Hi, Hmk. now apply readArr_writeArr_eq.
Qed.

(** X3. For a Wall tile inside the grid with durability below 200,
    damageWallTile(x, y, amount) returns true exactly when hp <= amount. In
    that case the tile becomes a walkable, unblocked Floor with hp 0 and
    durability 0 that keeps its decor, effect and state, and its index is
    pushed on the dirty list twice; otherwise only the hp of the tile changes,
    to min(32767, hp - amount). *)
Theorem damageWallTile_destructible_wall (tm : TileMap) (x y amount : Z) :
  tm_wf tm -> inBounds tm x y = true ->
  decodeBase (readArr (mask tm) (index tm x y)) = BaseType.Wall ->
  readArr (durability tm) (index tm x y) < 200 ->
  -32768 <= readArr (hp tm) (index tm x y) <= 32767 ->
  let idx := index tm x y in
  let r := damageWallTile tm x y amount in
  fst r = (readArr (hp tm) idx <=? amount) /\
  (readArr (hp tm) idx <= amount ->
     isWalkable (snd r) x y = true /\ isBlocked (snd r) x y = false /\
     (exists old new, getTile tm x y = Some old /\ getTile (snd r) x y = Some new /\
        ts_base new = BaseType.Floor /\ ts_hp new = 0 /\ ts_durability new = 0 /\
        ts_decor new = ts_decor old /\ ts_effect new = ts_effect old /\
        ts_state new = ts_state old) /\
     dirtyTiles (snd r) = dirtyTiles tm ++ [idx; idx]) /\
  (amount < readArr (hp tm) idx ->
     snd r = set_hp tm (writeArr (hp tm) idx (Z.min 32767 (readArr (hp tm) idx - amount))) /\
     readArr (hp (snd r)) idx = Z.min 32767 (readArr (hp tm) idx - amount)).
Proof.
  intros Hwf Hb Hbase Hdur Hhp idx r.
  pose proof (index_range tm x y Hwf Hb) as (Hm & Hp & Hd). fold idx in Hm, Hp, Hd.
  split; [|split].
  - destruct (Z.leb_spec (readArr (hp tm) idx) amount) as [Hle|Hgt].
    + apply (damageWallTile_destroys tm x y amount Hwf Hb Hbase Hdur Hhp Hle).
    + unfold r. now rewrite (damageWallTile_survives tm x y amount Hwf Hb Hbase Hdur Hhp Hgt).
  - intros Hle.
    destruct (damageWallTile_destroys tm x y amount Hwf Hb Hbase Hdur Hhp Hle)
      as (_ & Hw & Hh & Hmk & Hhp' & Hdu & Hdirty).
    fold r idx in Hw, Hh, Hmk, Hhp', Hdu, Hdirty.
    assert (Hb' : inBounds (snd r) x y = true) by (rewrite (inBounds_dims _ tm) by assumption; exact Hb).
    assert (Hi : index (snd r) x y = idx) by (now apply index_dims).
    pose proof (decode_encode BaseType.Floor FlagBits.Walkable
                  (decodeDecor (readArr (mask tm) idx)) (decodeEffect (readArr (mask tm) idx))
                  (decodeState (readArr (mask tm) idx))) as (E1 & E2 & E3 & E4 & E5).
    pose proof (decode_idem (readArr (mask tm) idx)) as (_ & _ & I3 & I4 & I5).
    assert (Hread : readArr (mask (snd r)) (index (snd r) x y) =
                    encode BaseType.Floor FlagBits.Walkable
                      (decodeDecor (readArr (mask tm) idx)) (decodeEffect (readArr (mask tm) idx))
                      (decodeState (readArr (mask tm) idx))).
    { rewrite Hi, Hmk. now apply readArr_writeArr_eq. }
    repeat split.
    + rewrite isWalkable_flags, Hread, E2 by exact Hb'. reflexivity.
    + rewrite isBlocked_flags, Hread, E2 by exact Hb'. reflexivity.
    + eexists _, _. split; [now apply getTile_inBounds|].
      split; [now apply getTile_inBounds|]. cbn [ts_base ts_hp ts_durability ts_decor ts_effect ts_state].
      rewrite Hread, Hi, Hhp', Hdu, E1, E3, E4, E5, I3, I4, I5.
      rewrite !readArr_writeArr_eq by (rewrite ?writeArr_length; assumption).
      repeat split.
    + exact Hdirty.
  - intros Hgt. unfold r.
    rewrite (damageWallTile_survives tm x y amount Hwf Hb Hbase Hdur Hhp Hgt).
    cbn [snd]. split; [reflexivity|].
    tm_proj. now apply readArr_writeArr_eq.
Qed.

Lemma setWallTile_obs (tm : TileMap) (x y hitPoints : Z) (ind : bool) :
  inBounds tm x y = true ->
  let idx := index tm x y in
  let m := readArr (mask tm) idx in
  let t := setWallTile tm x y hitPoints ind in
  width t = width tm /\ height t = height tm /\
  mask t = writeArr (mask tm) idx
             (encode BaseType.Wall (Z.lor FlagBits.Blocked FlagBits.LosBlock)
                (decodeDecor m) (decodeEffect m) (decodeState m)) /\
  hp t = writeArr (hp tm) idx (ToInt16 (if ind then 32767 else hitPoints)) /\
  durability t = writeArr (durability tm) idx (ToUint8 (if ind then 255 else hitPoints)).
Proof.
  intros Hb. cbv zeta. unfold setWallTile. rewrite Hb. cbn [negb]. cbv zeta.
  destruct (negb _); tm_proj; repeat split.
Qed.

Lemma setWallTile_wf (tm : TileMap) (x y hitPoints : Z) (ind : bool) :
  tm_wf tm -> tm_wf (setWallTile tm x y hitPoints ind).
Proof. apply tm_wf_shape, setWallTile_shape. Qed.

(** X4. A wall placed by setWallTile with indestructible = true, or with a
    hitPoints value whose low 8 bits are 200 or more (e.g. hitPoints = 200
    with indestructible = false), is blocked and not walkable, and
    damageWallTile on it returns false and leaves the map unchanged for every
    amount. *)
Theorem setWallTile_indestructible (tm : TileMap) (x y hitPoints amount : Z) (ind : bool) :
  tm_wf tm -> inBounds tm x y = true ->
  ind = true \/ 200 <= hitPoints mod 256 ->
  let wall := setWallTile tm x y hitPoints ind in
  isBlocked wall x y = true /\ isWalkable wall x y = false /\
  damageWallTile wall x y amount = (false, wall).
Proof.
  intros Hwf Hb Hind wall.
  destruct (setWallTile_obs tm x y hitPoints ind Hb) as (Hw & Hh & Hmk & Hhp & Hdu).
  fold wall in Hw, Hh, Hmk, Hhp, Hdu.
  pose proof (index_range tm x y Hwf Hb) as (Hm & Hp & Hd).
  assert (Hb' : inBounds wall x y = true) by (rewrite (inBounds_dims _ tm) by assumption; exact Hb).
  assert (Hi : index wall x y = index tm x y) by (now apply index_dims).
  set (m := readArr (mask tm) (index tm x y)) in *.
  pose proof (decode_encode BaseType.Wall (Z.lor FlagBits.Blocked FlagBits.LosBlock)
                (decodeDecor m) (decodeEffect m) (decodeState m)) as (E1 & E2 & _).
  assert (Hread : readArr (mask wall) (index wall x y) =
                  encode BaseType.Wall (Z.lor FlagBits.Blocked FlagBits.LosBlock)
                    (decodeDecor m) (decodeEffect m) (decodeState m)).
  { rewrite Hi, Hmk. now apply readArr_writeArr_eq. }
  repeat split.
  - rewrite isBlocked_flags, Hread, E2 by exact Hb'. reflexivity.
  - rewrite isWalkable_flags, Hread, E2 by exact Hb'. reflexivity.
  - unfold damageWallTile. rewrite Hb', Hread, E1. cbn [negb].
    change (Z.land BaseType.Wall 255 =? BaseType.Wall) with true. cbn [negb].
    rewrite Hi, Hdu, readArr_writeArr_eq by exact Hd.
    assert (Hge : 200 <= ToUint8 (if ind then 255 else hitPoints)).
    { destruct Hind as [-> | Hge]; [cbv; discriminate|].
      destruct ind; [cbv; discriminate|]. exact Hge. }
    destruct (Z.leb_spec 200 (ToUint8 (if ind then 255 else hitPoints))); [reflexivity|lia].
Qed.

Lemma hitWall_S (tm : TileMap) (x y : Z) (k : nat) :
  hitWall tm x y (S k) = snd (damageWallTile (hitWall tm x y k) x y 1).
Proof. reflexivity. Qed.

Lemma hitWall_standing (tm : TileMap) (x y n : Z) (k : nat) :
  tm_wf tm -> inBounds tm x y = true -> 1 <= n < 200 -> Z.of_nat k < n ->
  let wall := setWallTile tm x y n false in
  let t := hitWall wall x y k in
  tm_wf t /\ width t = width tm /\ height t = height tm /\
  mask t = mask wall /\ durability t = durability wall /\
  readArr (hp t) (index tm x y) = n - Z.of_nat k.
Proof.
  intros Hwf Hb Hn Hk wall.
  destruct (setWallTile_obs tm x y n false Hb) as (Hw & Hh & Hmk & Hhp & Hdu).
  fold wall in Hw, Hh, Hmk, Hhp, Hdu.
  pose proof (index_range tm x y Hwf Hb) as (Hm & Hp & Hd).
  assert (Hwall : tm_wf wall) by now apply setWallTile_wf.
  induction k as [|k IH]; intros t.
  - change t with wall. split; [exact Hwall|]. repeat split; try assumption.
    rewrite Hhp, readArr_writeArr_eq by exact Hp. rewrite ToInt16_id by lia. lia.
  - destruct IH as (Hwf' & Hw' & Hh' & Hmk' & Hdu' & Hhp'); [lia|].
    set (t0 := hitWall wall x y k) in *.
    assert (Hb0 : inBounds t0 x y = true) by (rewrite (inBounds_dims _ tm) by assumption; exact Hb).
    assert (Hi0 : index t0 x y = index tm x y) by (now apply index_dims).
    set (m := readArr (mask tm) (index tm x y)) in *.
    pose proof (decode_encode BaseType.Wall (Z.lor FlagBits.Blocked FlagBits.LosBlock)
                  (decodeDecor m) (decodeEffect m) (decodeState m)) as (E1 & _).
    assert (Hstep : damageWallTile t0 x y 1 =
              (false, set_hp t0 (writeArr (hp t0) (index t0 x y)
                                   (Z.min 32767 (readArr (hp t0) (index t0 x y) - 1))))).
    { apply damageWallTile_survives; try assumption.
      - rewrite Hi0, Hmk', Hmk, readArr_writeArr_eq by exact Hm. exact E1.
      - rewrite Hi0, Hdu', Hdu, readArr_writeArr_eq by exact Hd. unfold ToUint8.
        rewrite Z.mod_small; lia.
      - rewrite Hi0, Hhp'. lia.
      - rewrite Hi0, Hhp'. lia. }
    unfold t. rewrite hitWall_S. fold t0.
    rewrite Hstep. cbn [snd]. tm_proj.
    assert (Hlen : 0 <= index tm x y < Z.of_nat (length (hp t0))).
    { destruct Hwf' as (_ & _ & _ & Hl & _). rewrite Hl, Hw', Hh'.
      destruct Hwf as (_ & _ & _ & Hl0 & _). rewrite <- Hl0. exact Hp. }
    split; [|repeat split; try assumption].
    + destruct Hwf' as (H1 & H2 & H3 & H4 & H5). unfold tm_wf. tm_proj.
      rewrite writeArr_length. repeat split; assumption.
    + rewrite Hi0, readArr_writeArr_eq, Hhp' by exact Hlen. lia.
Qed.

(** X5. A wall placed by setWallTile(x, y, n, false) with 1 <= n < 200 takes
    exactly n hits of 1 damage: it is still blocked after fewer than n hits,
    each of the first n - 1 calls of damageWallTile returns false and the n-th
    returns true, after which the tile is walkable and not blocked. *)
Theorem wall_falls_at_its_hit_points (tm : TileMap) (x y n : Z) :
  tm_wf tm -> inBounds tm x y = true -> 1 <= n < 200 ->
  let wall := setWallTile tm x y n false in
  (forall k : nat, Z.of_nat k < n ->
     isBlocked (hitWall wall x y k) x y = true /\
     fst (damageWallTile (hitWall wall x y k) x y 1) = (Z.of_nat k + 1 =? n)) /\
  isWalkable (hitWall wall x y (Z.to_nat n)) x y = true /\
  isBlocked (hitWall wall x y (Z.to_nat n)) x y = false.
Proof.
  intros Hwf Hb Hn wall.
  destruct (setWallTile_obs tm x y n false Hb) as (Hw & Hh & Hmk & Hhp & Hdu).
  fold wall in Hw, Hh, Hmk, Hhp, Hdu.
  pose proof (index_range tm x y Hwf Hb) as (Hm & Hp & Hd).
  set (m := readArr (mask tm) (index tm x y)) in *.
  pose proof (decode_encode BaseType.Wall (Z.lor FlagBits.Blocked FlagBits.LosBlock)
                (decodeDecor m) (decodeEffect m) (decodeState m)) as (E1 & E2 & _).
  assert (Hpre : forall k : nat, Z.of_nat k < n ->
            let t := hitWall wall x y k in
            tm_wf t /\ inBounds t x y = true /\ index t x y = index tm x y /\
            readArr (mask t) (index t x y) =
              encode BaseType.Wall (Z.lor FlagBits.Blocked FlagBits.LosBlock)
                (decodeDecor m) (decodeEffect m) (decodeState m) /\
            readArr (durability t) (index t x y) < 200 /\
            readArr (hp t) (index t x y) = n - Z.of_nat k).
  { intros k Hk t.
    destruct (hitWall_standing tm x y n k Hwf Hb Hn Hk) as (Hwf' & Hw' & Hh' & Hmk' & Hdu' & Hhp').
    fold wall in Hwf', Hw', Hh', Hmk', Hdu', Hhp'. fold t in Hwf', Hw', Hh', Hmk', Hdu', Hhp'.
    assert (Hi0 : index t x y = index tm x y) by (now apply index_dims).
    split; [exact Hwf'|]. repeat split.
    - rewrite (inBounds_dims _ tm) by assumption. exact Hb.
    - exact Hi0.
    - rewrite Hi0, Hmk', Hmk. now apply readArr_writeArr_eq.
    - rewrite Hi0, Hdu', Hdu, readArr_writeArr_eq by exact Hd. unfold ToUint8.
      rewrite Z.mod_small; lia.
    - rewrite Hi0. exact Hhp'. }
  split.
  - intros k Hk. destruct (Hpre k Hk) as (Hwf' & Hb' & Hi' & Hmk' & Hdu' & Hhp').
    split.
    + rewrite isBlocked_flags, Hmk', E2 by exact Hb'. reflexivity.
    + assert (Hbase : decodeBase (readArr (mask (hitWall wall x y k)) (index (hitWall wall x y k) x y))
                      = BaseType.Wall) by (rewrite Hmk'; exact E1).
      assert (Hrange : -32768 <= readArr (hp (hitWall wall x y k)) (index (hitWall wall x y k) x y)
                       <= 32767) by (rewrite Hhp'; lia).
      destruct (Z.eqb_spec (Z.of_nat k + 1) n) as [Hlast|Hmore].
      * apply (damageWallTile_destroys _ x y 1 Hwf' Hb' Hbase Hdu' Hrange). rewrite Hhp'. lia.
      * rewrite (damageWallTile_survives _ x y 1 Hwf' Hb' Hbase Hdu' Hrange); [reflexivity|].
        rewrite Hhp'. lia.
  - assert (Hlast : Z.to_nat n = S (Z.to_nat (n - 1))) by lia.
    rewrite Hlast, hitWall_S.
    destruct (Hpre (Z.to_nat (n - 1))) as (Hwf' & Hb' & Hi' & Hmk' & Hdu' & Hhp'); [lia|].
    assert (Hbase : decodeBase (readArr (mask (hitWall wall x y (Z.to_nat (n - 1))))
                      (index (hitWall wall x y (Z.to_nat (n - 1))) x y)) = BaseType.Wall)
      by (rewrite Hmk'; exact E1).
    assert (Hrange : -32768 <= readArr (hp (hitWall wall x y (Z.to_nat (n - 1))))
                       (index (hitWall wall x y (Z.to_nat (n - 1))) x y) <= 32767)
      by (rewrite Hhp'; lia).
    assert (Hle : readArr (hp (hitWall wall x y (Z.to_nat (n - 1))))
                    (index (hitWall wall x y (Z.to_nat (n - 1))) x y) <= 1)
      by (rewrite Hhp'; lia).
    destruct (damageWallTile_destroyed_read _ x y 1 Hwf' Hb' Hbase Hdu' Hrange Hle)
      as (Hb2 & _ & Hread).
    exact (walkable_tile_flags _ x y _ _ _ _ Hb2 Hread).
Qed.

Lemma setFlags_obs (tm : TileMap) (x y flags : Z) :
  tm_wf tm -> inBounds tm x y = true ->
  let m := readArr (mask tm) (index tm x y) in
  let t := set_mask tm (writeArr (mask tm) (index tm x y)
             (encode (decodeBase m) flags (decodeDecor m) (decodeEffect m) (decodeState m))) in
  isWalkable t x y = Z.testbit (Z.land flags 255) 0 /\
  isBlocked t x y = Z.testbit (Z.land flags 255) 1 /\
  (exists old, getTile tm x y = Some old /\
     getTile t x y = Some (mkTileSnapshot (ts_base old) (Z.land flags 255) (ts_decor old)
                             (ts_effect old) (ts_state old) (ts_hp old) (ts_durability old)
                             (ts_usage old) (ts_occupants old))).
Proof.
  intros Hwf Hb m t. pose proof (index_range tm x y Hwf Hb) as (Hm & _ & _).
  assert (Hb' : inBounds t x y = true) by exact Hb.
  pose proof (decode_encode (decodeBase m) flags (decodeDecor m) (decodeEffect m)
                (decodeState m)) as (E1 & E2 & E3 & E4 & E5).
  pose proof (decode_idem m) as (I1 & _ & I3 & I4 & I5).
  assert (Hread : readArr (mask t) (index t x y) =
            encode (decodeBase m) flags (decodeDecor m) (decodeEffect m) (decodeState m)).
  { unfold t. tm_proj. change (index (set_mask tm _) x y) with (index tm x y).
    now apply readArr_writeArr_eq. }
  split; [|split].
  - rewrite isWalkable_flags, Hread, E2 by exact Hb'. reflexivity.
  - rewrite isBlocked_flags, Hread, E2 by exact Hb'. reflexivity.
  - eexists. split; [now apply getTile_inBounds|].
    rewrite (getTile_inBounds t x y Hb'), Hread, E1, E2, E3, E4, E5, I1, I3, I4, I5.
    reflexivity.
Qed.

(** X6. setWalkable(x, y, b) makes isWalkable(x, y) equal to b and changes
    neither isBlocked(x, y) nor the base type of the tile; setBlocked(x, y, b)
    makes isBlocked(x, y) equal to b and changes neither isWalkable(x, y) nor
    the base type. The two flags are independent: a tile can be walkable and
    blocked at once. *)
Theorem setWalkable_setBlocked_independent (tm : TileMap) (x y : Z) (b : bool) :
  tm_wf tm -> inBounds tm x y = true ->
  (isWalkable (setWalkable tm x y b) x y = b /\
   isBlocked (setWalkable tm x y b) x y = isBlocked tm x y /\
   (ts_base <$> getTile (setWalkable tm x y b) x y) = (ts_base <$> getTile tm x y)) /\
  (isBlocked (setBlocked tm x y b) x y = b /\
   isWalkable (setBlocked tm x y b) x y = isWalkable tm x y /\
   (ts_base <$> getTile (setBlocked tm x y b) x y) = (ts_base <$> getTile tm x y)).
Proof.
  intros Hwf Hb.
  pose proof (decode_idem (readArr (mask tm) (index tm x y))) as (_ & I2 & _).
  set (f := decodeFlags (readArr (mask tm) (index tm x y))) in *.
  assert (Hf0 : isWalkable tm x y = Z.testbit f 0) by now apply isWalkable_flags.
  assert (Hf1 : isBlocked tm x y = Z.testbit f 1) by now apply isBlocked_flags.
  assert (H255 : forall g i, 0 <= i < 8 -> Z.testbit (Z.land g 255) i = Z.testbit g i).
  { intros g i Hi. change 255 with (Z.ones 8).
    rewrite Z.land_spec, Z.testbit_ones_nonneg by lia.
    destruct (Z.ltb_spec i 8); [apply andb_true_r|lia]. }
  split.
  - unfold setWalkable. rewrite Hb. cbn [negb]. cbv zeta. fold f.
    destruct (setFlags_obs tm x y
                (if b then Z.lor f FlagBits.Walkable else Z.land f (Z.lnot FlagBits.Walkable))
                Hwf Hb) as (Hw & Hbl & old & Hold & Hnew).
    rewrite Hw, Hbl, Hnew, Hold, Hf1, !H255 by lia.
    change FlagBits.Walkable with 1.
    destruct b; rewrite ?Z.lor_spec, ?Z.land_spec, ?Z.lnot_spec by lia; cbn.
    + repeat split. apply orb_true_r. apply orb_false_r.
    + repeat split. apply andb_false_r. apply andb_true_r.
  - unfold setBlocked. rewrite Hb. cbn [negb]. cbv zeta. fold f.
    destruct (setFlags_obs tm x y
                (if b then Z.lor f FlagBits.Blocked else Z.land f (Z.lnot FlagBits.Blocked))
                Hwf Hb) as (Hw & Hbl & old & Hold & Hnew).
    rewrite Hw, Hbl, Hnew, Hold, Hf0, !H255 by lia.
    change FlagBits.Blocked with 2.
    destruct b; rewrite ?Z.lor_spec, ?Z.land_spec, ?Z.lnot_spec by lia; cbn.
    + repeat split. apply orb_true_r. apply orb_false_r.
    + repeat split. apply andb_false_r. apply andb_true_r.
Qed.

(** X7. After setTile(x, y, base) at a tile inside the grid, consumeDirtyTiles
    returns the coordinates that were already pending, followed by (x, y) if
    the base differs from the one the tile had and by nothing if it is the
    same; a second consumeDirtyTiles right after the first returns the empty
    list. *)
Theorem consumeDirtyTiles_reports_changed_tile (tm : TileMap) (x y base : Z) :
  inBounds tm x y = true ->
  let changed := setTile tm x y base in
  fst (consumeDirtyTiles changed) =
    fst (consumeDirtyTiles tm) ++
    (if base =? decodeBase (readArr (mask tm) (index tm x y)) then [] else [(x, y)]) /\
  fst (consumeDirtyTiles (snd (consumeDirtyTiles changed))) = [].
Proof.
  intros Hb changed. split; [|reflexivity].
  pose proof Hb as Hr. apply inBounds_spec in Hr as (Hx & Hy).
  unfold changed, setTile. rewrite Hb. cbn [negb]. cbv zeta.
  destruct (Z.eqb_spec base (decodeBase (readArr (mask tm) (index tm x y)))) as [E|E];
    cbn [negb]; unfold consumeDirtyTiles; cbn [fst]; tm_proj.
  - now rewrite app_nil_r.
  - rewrite map_app. cbn [List.map]. unfold index.
    rewrite Z.div_add_l, Z.div_small by lia.
    do 3 f_equal. lia. lia.
Qed.







Lemma getNeighbors_filter (tm : TileMap) (x y : Z) :
  getNeighbors tm x y =
  List.filter (fun p => inBounds tm (fst p) (snd p))
    [ (x + -1, y + -1); (x + 0, y + -1); (x + 1, y + -1);
      (x + -1, y + 0); (x + 1, y + 0);
      (x + -1, y + 1); (x + 0, y + 1); (x + 1, y + 1) ].
Proof.
  unfold getNeighbors, forZ. change (Z.to_nat (2 - -1)) with 3%nat.
  cbn [iterRange List.filter fst snd]. 
  change (-1 + 1) with 0. change (0 + 1) with 1.
  change (-1 =? 0) with false. change (0 =? 0) with true. change (1 =? 0) with false.
  cbn [andb].
  destruct (inBounds tm (x + -1) (y + -1)), (inBounds tm (x + 0) (y + -1)),
    (inBounds tm (x + 1) (y + -1)), (inBounds tm (x + -1) (y + 0)),
    (inBounds tm (x + 1) (y + 0)), (inBounds tm (x + -1) (y + 1)),
    (inBounds tm (x + 0) (y + 1)), (inBounds tm (x + 1) (y + 1)); reflexivity.
Qed.

(** X10. getNeighbors(x, y) lists exactly the tiles inside the grid, other
    than (x, y) itself, whose two coordinates differ from x and y by at most
    1. *)
Theorem getNeighbors_spec (tm : TileMap) (x y : Z) (p : Z * Z) :
  p ∈ getNeighbors tm x y <->
  inBounds tm (fst p) (snd p) = true /\ p <> (x, y) /\
  Z.abs (fst p - x) <= 1 /\ Z.abs (snd p - y) <= 1.
Proof.
  rewrite getNeighbors_filter, list_elem_of_In, filter_In. destruct p as [a b].
  cbn [fst snd In].
  split.
  - intros (Hin & Hb). split; [exact Hb|].
    repeat destruct Hin as [Hin|Hin]; try contradiction; injection Hin as <- <-;
      (split; [intros Heq; injection Heq; lia|lia]).
  - intros (Hb & Hne & Ha & Hc). split; [|exact Hb].
    assert (Hxa : a = x + -1 \/ a = x + 0 \/ a = x + 1) by lia.
    assert (Hyb : b = y + -1 \/ b = y + 0 \/ b = y + 1) by lia.
    destruct Hxa as [ -> | [ -> | -> ] ]; destruct Hyb as [ -> | [ -> | -> ] ]; auto 10.
    exfalso. apply Hne. f_equal; lia.
Qed.

(** ** Components, the entity store and the combat system *)




Lemma Qltb_spec (a b : Q) : (Qltb a b = true /\ (a < b)%Q) \/ (Qltb a b = false /\ (b <= a)%Q).
Proof.
  unfold Qltb. destruct (Qle_bool b a) eqn:E.
  - right. split; [reflexivity|now apply Qle_bool_iff].
  - left. split; [reflexivity|now apply Qle_bool_false].
Qed.





(** X13. After addComponent(c), getComponent under the name of c returns c and
    under any other name returns what it returned before; adding c replaces an
    earlier component of the same name; after removeComponent of that name the
    lookup returns undefined. Adding a component that is not the Health
    component does not change the Health component. *)
Theorem component_round_trip (e : Entity) (c : Component) (name : string) :
  getComponent (addComponent e c) (component_name c) = Some c /\
  (name <> component_name c ->
   getComponent (addComponent e c) name = getComponent e name) /\
  (forall c', component_name c' = component_name c ->
   addComponent (addComponent e c') c = addComponent e c) /\
  getComponent (removeComponent (addComponent e c) (component_name c)) (component_name c) = None /\
  (forall h, getHealth (addComponent e (CHealth h)) = Some h) /\
  (forall t, getHealth (addComponent e (CTransform t)) = getHealth e).
Proof.
  unfold getHealth, getComponent, addComponent, removeComponent. cbn [e_components].
  repeat split.
  - apply lookup_insert_eq.
  - intros Hne. now apply lookup_insert_ne.
  - intros c' Hc. cbn [e_id e_type e_active e_flags e_components]. f_equal.
    rewrite Hc. apply insert_insert_eq.
  - apply lookup_delete_eq.
  - intros h. cbn [component_name]. now rewrite lookup_insert_eq.
  - intros t. cbn [component_name]. now rewrite lookup_insert_ne.
Qed.

Lemma filter_isNot_fresh (r : loc) (l : list loc) :
  (r ∉ l) -> List.filter (isNot r) l = l.
Proof.
  induction l as [|a l IH]; intros Hn; [reflexivity|]. cbn.
  apply not_elem_of_cons in Hn as [Hne Hn]. unfold isNot at 1.
  destruct (Nat.eqb_spec a r); [congruence|]. cbn. now rewrite IH.
Qed.

Lemma filter_isNot_snoc (r : loc) (l : list loc) :
  (r ∉ l) -> List.filter (isNot r) (l ++ [r]) = l.
Proof.
  intros Hn. rewrite List.filter_app, filter_isNot_fresh by exact Hn. cbn.
  unfold isNot. rewrite Nat.eqb_refl. cbn. apply app_nil_r.
Qed.

Lemma filter_isNot_subset (r x : loc) (l : list loc) :
  x ∈ List.filter (isNot r) l -> x ∈ l.
Proof. intros Hin. apply list_elem_of_In, filter_In in Hin. apply list_elem_of_In, Hin. Qed.

Lemma createEntity_wf (s : Store) (type : string) :
  store_wf s -> store_wf (snd (createEntity s type)).
Proof.
  intros (He & Hen & Hp & Hpl & Ho). unfold store_wf, createEntity.
  cbn [snd em nextLoc objs entities enemies pickups player nextId].
  repeat split.
  - intros r Hr. apply elem_of_app in Hr as [Hr|Hr]; [apply He in Hr; lia|].
    apply list_elem_of_singleton in Hr. lia.
  - intros r Hr. destruct (String.eqb type "enemy"); [|apply Hen in Hr; lia].
    apply elem_of_app in Hr as [Hr|Hr]; [apply Hen in Hr; lia|].
    apply list_elem_of_singleton in Hr. lia.
  - intros r Hr. destruct (String.eqb type "pickup"); [|apply Hp in Hr; lia].
    apply elem_of_app in Hr as [Hr|Hr]; [apply Hp in Hr; lia|].
    apply list_elem_of_singleton in Hr. lia.
  - intros r Hr. destruct (String.eqb type "player"); [injection Hr as <-; lia|].
    apply Hpl in Hr. lia.
  - destruct (decide (r = nextLoc s)) as [->|Hne]; [lia|].
    rewrite lookup_insert_ne in H by congruence. apply Ho in H. lia.
  - destruct (decide (r = nextLoc s)) as [->|Hne].
    + rewrite lookup_insert_eq in H. injection H as <-. cbn. lia.
    + rewrite lookup_insert_ne in H by congruence. apply Ho in H. lia.
Qed.

Lemma removeEntity_wf (s : Store) (r : loc) : store_wf s -> store_wf (removeEntity s r).
Proof.
  intros (He & Hen & Hp & Hpl & Ho). unfold store_wf, removeEntity.
  cbn [em nextLoc objs entities enemies pickups player nextId].
  repeat split.
  - intros x Hx. apply He. eapply filter_isNot_subset, Hx.
  - intros x Hx. apply Hen. eapply filter_isNot_subset, Hx.
  - intros x Hx. apply Hp. eapply filter_isNot_subset, Hx.
  - intros x Hx. destruct (decide (player (em s) = Some r)); [discriminate|]. now apply Hpl.
  - apply lookup_alter_Some in H as [(<- & e' & He' & _)|(_ & He')]; eapply Ho; eassumption.
  - apply lookup_alter_Some in H as [(<- & e' & He' & ->)|(_ & He')].
    + cbn. eapply Ho; eassumption.
    + eapply Ho; eassumption.
Qed.

(** X14. In a consistent entity store createEntity returns a new object whose
    id no existing entity has. Removing that entity right away restores the
    entities, enemies and pickups lists, while nextId stays advanced by 1; if
    the type was 'player' the player slot ends up null even when a player
    existed before, for any other type it is unchanged. *)
Theorem createEntity_removeEntity_round_trip (s : Store) (type : string) :
  store_wf s ->
  let r := fst (createEntity s type) in
  let s1 := snd (createEntity s type) in
  let s2 := removeEntity s1 r in
  store_wf s1 /\ store_wf s2 /\
  objs s !! r = None /\
  objs s1 !! r = Some (newEntity (nextId (em s)) type) /\
  (forall r' e, objs s !! r' = Some e -> e_id e <> nextId (em s)) /\
  entities (em s2) = entities (em s) /\
  enemies (em s2) = enemies (em s) /\
  pickups (em s2) = pickups (em s) /\
  player (em s2) = (if String.eqb type "player" then None else player (em s)) /\
  nextId (em s2) = nextId (em s) + 1.
Proof.
  intros Hwf r s1 s2. pose proof Hwf as (He & Hen & Hp & Hpl & Ho).
  assert (Hfresh : forall l : list loc, (forall x, x ∈ l -> (x < nextLoc s)%nat) -> nextLoc s ∉ l).
  { intros l Hl Hin. apply Hl in Hin. lia. }
  split; [now apply createEntity_wf|]. split; [now apply removeEntity_wf, createEntity_wf|].
  unfold s2, s1, r, removeEntity, createEntity.
  cbn [fst snd em nextLoc objs entities enemies pickups player nextId].
  repeat split.
  - destruct (objs s !! nextLoc s) as [e|] eqn:E; [|reflexivity]. apply Ho in E. lia.
  - apply lookup_insert_eq.
  - intros r' e Hr' Hid. apply Ho in Hr'. lia.
  - apply filter_isNot_snoc, Hfresh, He.
  - destruct (String.eqb type "enemy").
    + apply filter_isNot_snoc, Hfresh, Hen.
    + apply filter_isNot_fresh, Hfresh, Hen.
  - destruct (String.eqb type "pickup").
    + apply filter_isNot_snoc, Hfresh, Hp.
    + apply filter_isNot_fresh, Hfresh, Hp.
  - destruct (String.eqb type "player").
    + destruct (decide (Some (nextLoc s) = Some (nextLoc s))); [reflexivity|congruence].
    + destruct (decide (player (em s) = Some (nextLoc s))) as [E|E]; [|reflexivity].
      apply Hpl in E. lia.
Qed.

Lemma pushLog_fields (c : CombatSystem) (entry : DamageLogEntry) :
  cs_flags (pushLog c entry) = cs_flags c /\ maxLogs (pushLog c entry) = maxLogs c /\
  killCount (pushLog c entry) = killCount c /\ statuses (pushLog c entry) = statuses c /\
  damageModifier (pushLog c entry) = damageModifier c.
Proof. repeat split. Qed.

(** X15. When applyDamage returns false it changes neither the combat system
    nor the entities. When it returns true and the target's health is then
    dead, killCount grows by 1 if the target's type is 'enemy' and by 0
    otherwise, the target's status effects are deleted, and the target is
    removed from the manager and deactivated; when the target survives,
    killCount, the statuses, the manager and the target's active flag are
    unchanged. *)
Theorem applyDamage_kill_accounting
    (c : CombatSystem) (s : Store) (target : loc) (amount : Q) (source : option loc) :
  let r := applyDamage c s target amount source in
  let c' := fst (snd r) in
  let s' := snd (snd r) in
  (fst r = false -> c' = c /\ s' = s) /\
  (fst r = true ->
   exists ent h',
     objs s !! target = Some ent /\
     (objs s' !! target ≫= getHealth) = Some h' /\
     if isDead h' then
       killCount c' = killCount c + (if String.eqb (e_type ent) "enemy" then 1 else 0) /\
       statuses c' = delete (e_id ent) (statuses c) /\
       em s' = em (removeEntity s target) /\
       (e_active <$> objs s' !! target) = Some false
     else
       killCount c' = killCount c /\ statuses c' = statuses c /\ em s' = em s /\
       (e_active <$> objs s' !! target) = Some (e_active ent)).
Proof.
  cbv zeta. unfold applyDamage.
  destruct (objs s !! target) as [ent|] eqn:Hent; [|split; [auto|discriminate]].
  destruct (getHealth ent) as [h|] eqn:Hh; [|split; [auto|discriminate]].
  destruct (String.eqb (e_type ent) "player" && infinitePlayerHealth (cs_flags c));
    [split; [auto|discriminate]|].
  destruct (Qltb 0 (h_invulnTimer h)); [split; [auto|discriminate]|].
  set (dmg := if oneHitKillEnemies (cs_flags c) && String.eqb (e_type ent) "enemy"
              then h_current h else _).
  destruct (Qle_bool dmg 0); [split; [auto|discriminate]|].
  set (c1 := if logDamage (cs_flags c) then pushLog c _ else c).
  assert (Hc1 : killCount c1 = killCount c /\ statuses c1 = statuses c)
    by (unfold c1; destruct (logDamage (cs_flags c)); split; reflexivity).
  destruct Hc1 as (Hk & Hst).
  destruct (isDead (takeDamage h dmg)) eqn:Hdead;
    cbn [fst snd handleDeath removeEntity objs updateEntity em];
    (split; [discriminate|]); intros _; exists ent, (takeDamage h dmg).
  - rewrite !lookup_alter_eq, Hent. cbn [fmap option_fmap option_map mbind option_bind].
    rewrite getHealth_set_active, getHealth_setHealth, Hdead.
    split; [reflexivity|]. split; [reflexivity|].
    cbn [killCount statuses]. rewrite Hk, Hst.
    destruct (String.eqb (e_type ent) "enemy"); repeat split; lia.
  - rewrite lookup_alter_eq, Hent. cbn [fmap option_fmap option_map mbind option_bind].
    rewrite getHealth_setHealth, Hdead. repeat split; assumption.
Qed.

(** X16. If the damage log holds at most maxLogs entries before applyDamage,
    it holds at most maxLogs entries after it; applyDamage changes neither
    maxLogs nor the flags, and with logDamage off it leaves the log as it is. *)
Theorem damage_log_bounded
    (c : CombatSystem) (s : Store) (target : loc) (amount : Q) (source : option loc) :
  (length (damageLog c) <= maxLogs c)%nat ->
  let c' := fst (snd (applyDamage c s target amount source)) in
  (length (damageLog c') <= maxLogs c')%nat /\
  maxLogs c' = maxLogs c /\ cs_flags c' = cs_flags c /\
  (logDamage (cs_flags c) = false -> damageLog c' = damageLog c).
Proof.
  intros Hlen. cbv zeta. unfold applyDamage.
  destruct (objs s !! target) as [ent|]; [|cbn; auto].
  destruct (getHealth ent) as [h|]; [|cbn; auto].
  destruct (String.eqb (e_type ent) "player" && infinitePlayerHealth (cs_flags c)); [cbn; auto|].
  destruct (Qltb 0 (h_invulnTimer h)); [cbn; auto|].
  set (dmg := if oneHitKillEnemies (cs_flags c) && String.eqb (e_type ent) "enemy"
              then h_current h else _).
  destruct (Qle_bool dmg 0); [cbn; auto|].
  set (entry := mkLogEntry _ _ _ _).
  assert (Hpush : (length (damageLog (pushLog c entry)) <= maxLogs c)%nat).
  { unfold pushLog. cbn [damageLog].
    destruct (Nat.ltb_spec (maxLogs c) (length (damageLog c ++ [entry]))) as [Hgt|Hle].
    - assert (Htl : forall l : list DamageLogEntry, length (tail l) = Nat.pred (length l))
        by (intros [|? ?]; reflexivity).
      rewrite Htl, length_app. cbn. lia.
    - exact Hle. }
  destruct (isDead (takeDamage h dmg)); cbn [fst snd handleDeath damageLog maxLogs cs_flags];
    destruct (logDamage (cs_flags c)); repeat split; try assumption; try discriminate.
Qed.

(** ** The generator: carving, flood fill, the outer wall *)

Lemma opens_refl (tm : TileMap) : opens tm tm.
Proof. split; auto. Qed.

Lemma opens_trans (t1 t2 t3 : TileMap) : opens t1 t2 -> opens t2 t3 -> opens t1 t3.
Proof. intros (S1 & W1) (S2 & W2). split; [congruence|auto]. Qed.

Lemma gridShape_dims (t tm : TileMap) :
  gridShape t = gridShape tm -> width t = width tm /\ height t = height tm.
Proof. unfold gridShape. intros [= -> -> _ _ _]. auto. Qed.

Lemma setTile_floor_opens (t : TileMap) (x y : Z) :
  tm_wf t -> opens t (setTile t x y BaseType.Floor) /\
  (inBounds t x y = true -> isWalkable (setTile t x y BaseType.Floor) x y = true).
Proof.
  intros Hwf. destruct (inBounds t x y) eqn:Hb.
  2:{ unfold setTile. rewrite Hb. cbn [negb]. split; [apply opens_refl|discriminate]. }
  pose proof (index_range t x y Hwf Hb) as (Hm & _ & _).
  pose proof (setTile_shape t x y BaseType.Floor) as Hs.
  pose proof (gridShape_dims _ _ Hs) as (Hw & Hh).
  assert (Hmask : mask (setTile t x y BaseType.Floor) =
            writeArr (mask t) (index t x y)
              (encode BaseType.Floor FlagBits.Walkable
                 (decodeDecor (readArr (mask t) (index t x y)))
                 (decodeEffect (readArr (mask t) (index t x y)))
                 (decodeState (readArr (mask t) (index t x y))))).
  { unfold setTile. rewrite Hb. cbn [negb]. cbv zeta. destruct (negb _); reflexivity. }
  assert (Hhere : isWalkable (setTile t x y BaseType.Floor) x y = true).
  { assert (Hb' : inBounds (setTile t x y BaseType.Floor) x y = true)
      by (rewrite (inBounds_dims _ t) by assumption; exact Hb).
    eapply walkable_tile_flags; [exact Hb'|].
    rewrite (index_dims _ t) by assumption. rewrite Hmask.
    now apply readArr_writeArr_eq. }
  split; [|intros _; exact Hhere]. split; [exact Hs|].
  intros x' y' Hwk. destruct (decide ((x', y') = (x, y))) as [[= -> ->]|Hne]; [exact Hhere|].
  assert (Hb1 : inBounds t x' y' = true)
    by (unfold isWalkable in Hwk; destruct (inBounds t x' y'); [reflexivity|discriminate]).
  assert (Hb2 : inBounds (setTile t x y BaseType.Floor) x' y' = true)
    by (rewrite (inBounds_dims _ t) by assumption; exact Hb1).
  rewrite isWalkable_flags in * by assumption.
  rewrite (index_dims _ t) by assumption. rewrite Hmask, readArr_writeArr_ne; [exact Hwk| |].
  - apply (index_inBounds t x' y' Hb1).
  - intros He. apply (index_inj t x y x' y' Hb Hb1) in He as [-> ->]. now apply Hne.
Qed.

Lemma tm_wf_opens (t t' : TileMap) : tm_wf t -> opens t t' -> tm_wf t'.
Proof. intros Hwf (Hs & _). eapply tm_wf_shape; eassumption. Qed.

Lemma carveDisk_opens (tm : TileMap) (cx cy radius : Z) :
  tm_wf tm -> 0 <= radius ->
  opens tm (carveDisk tm cx cy radius) /\
  (inBounds tm cx cy = true -> isWalkable (carveDisk tm cx cy radius) cx cy = true).
Proof.
  intros Hwf Hr. unfold carveDisk.
  pose (P := fun (y : Z) (t : TileMap) =>
    opens tm t /\ (inBounds tm cx cy = true -> cy < y -> isWalkable t cx cy = true)).
  assert (HP : P (cy + radius + 1)
    (forZ (cy - radius) (cy + radius + 1) (fun y t =>
       forZ (cx - radius) (cx + radius + 1) (fun x t =>
         let dx := x - cx in let dy := y - cy in
         if radius * radius <? dx * dx + dy * dy then t
         else if (x <? 0) || (y <? 0) || (width t <=? x) || (height t <=? y) then t
         else setTile t x y BaseType.Floor) t) tm)).
  { apply (forZ_inv P); [lia| |].
    - split; [apply opens_refl|]. intros _ Hlt. lia.
    - intros y t Hy (Hop & Hc).
      pose (Q := fun (x : Z) (u : TileMap) =>
        opens tm u /\
        (inBounds tm cx cy = true -> cy < y \/ (y = cy /\ cx < x) -> isWalkable u cx cy = true)).
      assert (HQ : Q (cx + radius + 1)
        (forZ (cx - radius) (cx + radius + 1) (fun x t =>
           let dx := x - cx in let dy := y - cy in
           if radius * radius <? dx * dx + dy * dy then t
           else if (x <? 0) || (y <? 0) || (width t <=? x) || (height t <=? y) then t
           else setTile t x y BaseType.Floor) t)).
      { apply (forZ_inv Q); [lia| |].
        - split; [exact Hop|]. intros Hb [Hlt|[_ Hlt]]; [now apply Hc|lia].
        - intros x u Hx (Hou & Hcu). cbv zeta.
          assert (Hwu : tm_wf u) by (eapply tm_wf_opens; eassumption).
          destruct (setTile_floor_opens u x y Hwu) as (Hos & Hhere).
          pose proof (gridShape_dims _ _ (proj1 Hou)) as (Hw & Hh).
          destruct (Z.ltb_spec (radius * radius) ((x - cx) * (x - cx) + (y - cy) * (y - cy)))
            as [Hfar|Hnear].
          + split; [exact Hou|]. intros Hb [Hlt|[-> Hlt]]; [apply Hcu; auto| ].
            destruct (Z.eq_dec x cx) as [->|Hne]; [nia|]. apply Hcu; [exact Hb|]. right. split; lia.
          + destruct ((x <? 0) || (y <? 0) || (width u <=? x) || (height u <=? y)) eqn:Hout.
            * split; [exact Hou|]. intros Hb [Hlt|[-> Hlt]]; [apply Hcu; auto|].
              destruct (Z.eq_dec x cx) as [->|Hne].
              -- exfalso. apply inBounds_spec in Hb. rewrite Hw, Hh in Hout.
                 rewrite !orb_true_iff, !Z.ltb_lt, !Z.leb_le in Hout. lia.
              -- apply Hcu; [exact Hb|]. right. split; lia.
            * split; [eapply opens_trans; eassumption|].
              intros Hb [Hlt|[-> Hlt]].
              -- apply (proj2 Hos). apply Hcu; auto.
              -- destruct (Z.eq_dec x cx) as [->|Hne].
                 ++ apply Hhere. rewrite (inBounds_dims _ tm) by assumption. exact Hb.
                 ++ apply (proj2 Hos). apply Hcu; [exact Hb|]. right. split; lia. }
      destruct HQ as (Ho2 & Hc2). split; [exact Ho2|].
      intros Hb Hlt. apply Hc2; [exact Hb|].
      destruct (Z.eq_dec y cy) as [->|Hne]; [right; split; lia|left; lia]. }
  destruct HP as (Hop & Hc). split; [exact Hop|]. intros Hb. apply Hc; [exact Hb|lia].
Qed.

Lemma carveLineLoop_total (x1 y1 dx dy sx sy thickness : Z) :
  0 <= thickness -> (sx = 1 \/ sx = -1) -> (sy = 1 \/ sy = -1) ->
  forall (fuel : nat) (tm : TileMap) (x y err : Z),
    tm_wf tm ->
    0 <= sx * (x1 - x) <= dx -> 0 <= sy * (y1 - y) <= dy ->
    err = dx - dy + dy * (sx * (x1 - x)) - dx * (sy * (y1 - y)) ->
    sx * (x1 - x) + sy * (y1 - y) < Z.of_nat fuel ->
    exists tm',
      carveLineLoop fuel tm x y x1 y1 dx dy sx sy err thickness = Some tm' /\
      opens tm tm' /\
      (inBounds tm x y = true -> isWalkable tm' x y = true) /\
      (inBounds tm x1 y1 = true -> isWalkable tm' x1 y1 = true).
Proof.
  intros Hth Hsx Hsy.
  induction fuel as [|fuel IH]; intros tm x y err Hwf Ha Hb Herr Hfuel; [lia|].
  cbn [carveLineLoop].
  destruct (carveDisk_opens tm x y thickness Hwf Hth) as (Hod & Hhere).
  assert (Hop' : tm_wf (carveDisk tm x y thickness)) by (eapply tm_wf_opens; eassumption).
  pose proof (gridShape_dims _ _ (proj1 Hod)) as (Hw & Hh).
  assert (Hfin : forall tm',
    opens (carveDisk tm x y thickness) tm' ->
    (inBounds (carveDisk tm x y thickness) x1 y1 = true -> isWalkable tm' x1 y1 = true) ->
    opens tm tm' /\
    (inBounds tm x y = true -> isWalkable tm' x y = true) /\
    (inBounds tm x1 y1 = true -> isWalkable tm' x1 y1 = true)).
  { intros tm' Ho Hend. split; [eapply opens_trans; eassumption|]. split.
    - intros Hin. apply Ho. now apply Hhere.
    - intros Hin. apply Hend. rewrite (inBounds_dims _ tm) by assumption. exact Hin. }
  destruct (Z.eqb_spec x x1) as [Hx|Hx]; [destruct (Z.eqb_spec y y1) as [Hy|Hy]|]; cbn [andb].
  - subst. eexists. split; [reflexivity|]. auto.
  - set (a := sx * (x1 - x)) in *. set (b := sy * (y1 - y)) in *.
    assert (Ha0 : a = 0) by (unfold a; subst; lia).
    assert (Hb0 : 0 < b) by (unfold b in *; destruct Hsy; subst; lia).
    destruct (Z.ltb_spec (- dy) (err * 2)) as [HsX|HsX]; [exfalso; nia|].
    destruct (Z.ltb_spec (err * 2) dx) as [HsY|HsY]; [|exfalso; nia].
    assert (Hb' : sy * (y1 - (y + sy)) = b - 1) by (destruct Hsy; subst sy; unfold b; lia).
    destruct (IH (carveDisk tm x y thickness) x (y + sy) (err + dx) Hop')
      as (tm' & Hrun & Ho & _ & Hend).
    + fold a. lia.
    + rewrite Hb'. lia.
    + fold a. rewrite Hb'. nia.
    + fold a. rewrite Hb'. lia.
    + exists tm'. split; [exact Hrun|]. now apply Hfin.
  - set (a := sx * (x1 - x)) in *. set (b := sy * (y1 - y)) in *.
    assert (Ha0 : 0 < a) by (unfold a in *; destruct Hsx; subst; lia).
    assert (Ha' : sx * (x1 - (x + sx)) = a - 1) by (destruct Hsx; subst sx; unfold a; lia).
    destruct (Z.ltb_spec (- dy) (err * 2)) as [HsX|HsX];
      destruct (Z.ltb_spec (err * 2) dx) as [HsY|HsY].
    + assert (Hb0 : 0 < b) by nia.
      assert (Hb' : sy * (y1 - (y + sy)) = b - 1) by (destruct Hsy; subst sy; unfold b; lia).
      destruct (IH (carveDisk tm x y thickness) (x + sx) (y + sy) (err - dy + dx) Hop')
        as (tm' & Hrun & Ho & _ & Hend).
      * rewrite Ha'. lia.
      * rewrite Hb'. lia.
      * rewrite Ha', Hb'. nia.
      * rewrite Ha', Hb'. lia.
      * exists tm'. split; [exact Hrun|]. now apply Hfin.
    + destruct (IH (carveDisk tm x y thickness) (x + sx) y (err - dy) Hop')
        as (tm' & Hrun & Ho & _ & Hend).
      * rewrite Ha'. lia.
      * fold b. lia.
      * fold b. rewrite Ha'. nia.
      * fold b. rewrite Ha'. lia.
      * exists tm'. split; [exact Hrun|]. now apply Hfin.
    + assert (Hb0 : 0 < b) by nia.
      assert (Hb' : sy * (y1 - (y + sy)) = b - 1) by (destruct Hsy; subst sy; unfold b; lia).
      destruct (IH (carveDisk tm x y thickness) x (y + sy) (err + dx) Hop')
        as (tm' & Hrun & Ho & _ & Hend).
      * fold a. lia.
      * rewrite Hb'. lia.
      * fold a. rewrite Hb'. nia.
      * fold a. rewrite Hb'. lia.
      * exists tm'. split; [exact Hrun|]. now apply Hfin.
    + exfalso. nia.
Qed.

(** X17. carveLine terminates: its loop returns within |x1 - x0| + |y1 - y0| +
    1 turns. For a thickness >= 0 the grid keeps its size, every tile that was
    walkable stays walkable, and both end points of the line are walkable
    afterwards when they lie inside the grid. *)
Theorem carveLine_terminates_and_opens
    (fuel : nat) (tm : TileMap) (x0 y0 x1 y1 thickness : Z) :
  tm_wf tm -> 0 <= thickness ->
  Z.abs (x1 - x0) + Z.abs (y1 - y0) < Z.of_nat fuel ->
  exists tm',
    carveLine fuel tm x0 y0 x1 y1 thickness = Some tm' /\
    opens tm tm' /\
    (inBounds tm x0 y0 = true -> isWalkable tm' x0 y0 = true) /\
    (inBounds tm x1 y1 = true -> isWalkable tm' x1 y1 = true).
Proof.
  intros Hwf Hth Hfuel. unfold carveLine.
  apply carveLineLoop_total; try assumption.
  - destruct (x0 <? x1); auto.
  - destruct (y0 <? y1); auto.
  - destruct (Z.ltb_spec x0 x1); lia.
  - destruct (Z.ltb_spec y0 y1); lia.
  - destruct (Z.ltb_spec x0 x1), (Z.ltb_spec y0 y1); nia.
  - destruct (Z.ltb_spec x0 x1), (Z.ltb_spec y0 y1); lia.
Qed.

Lemma unvisited_insert (v : list Z) (i : nat) (w : Z) :
  v !! i = Some 0 -> w <> 0 -> S (unvisited (<[i := w]> v)) = unvisited v.
Proof.
  unfold unvisited. revert i. induction v as [|a v IH]; intros i Hi Hw; [discriminate|].
  destruct i as [|i]; cbn in *.
  - injection Hi as ->. cbn. destruct (Z.eqb_spec w 0); [contradiction|reflexivity].
  - destruct (a =? 0); cbn; now rewrite <- (IH i Hi Hw).
Qed.

Lemma unvisited_replicate (n : nat) : unvisited (replicate n 0) = n.
Proof. unfold unvisited. induction n as [|n IH]; cbn; [reflexivity|now rewrite IH]. Qed.

Lemma visitNeighbor_measure (tm : TileMap) (q : list (Z * Z)) (v : list Z) (n : Z * Z) :
  0 <= width tm -> 0 <= height tm -> length v = Z.to_nat (width tm * height tm) ->
  let st := visitNeighbor tm (q, v) n in
  length (snd st) = length v /\
  (unvisited (snd st) + length (fst st) = unvisited v + length q)%nat /\
  (length q <= length (fst st))%nat.
Proof.
  intros Hw Hh Hlen. cbv zeta. unfold visitNeighbor.
  destruct ((fst n <? 0) || (snd n <? 0) || (width tm <=? fst n) || (height tm <=? snd n)) eqn:Hout;
    [auto|].
  destruct (Z.eqb_spec (readArr v (snd n * width tm + fst n)) 0) as [Hz|Hz]; cbn [negb]; [|auto].
  destruct (isWalkable tm (fst n) (snd n)); cbn [negb]; [|auto]. cbn [fst snd].
  rewrite !orb_false_iff, !Z.ltb_ge, !Z.leb_gt in Hout. destruct Hout as (((H1 & H2) & H3) & H4).
  assert (Hidx : 0 <= snd n * width tm + fst n < width tm * height tm) by nia.
  rewrite writeArr_length. split; [reflexivity|].
  unfold writeArr. destruct (Z.ltb_spec (snd n * width tm + fst n) 0); [lia|].
  assert (Hlook : v !! Z.to_nat (snd n * width tm + fst n) = Some 0).
  { unfold readArr in Hz.
    destruct (v !! Z.to_nat (snd n * width tm + fst n)) as [z|] eqn:E; [cbn in Hz; now subst|].
    apply lookup_ge_None in E. lia. }
  rewrite length_app. cbn [length].
  pose proof (unvisited_insert v _ (ToUint8 1) Hlook) as Hins.
  assert (Hne : ToUint8 1 <> 0) by (cbv; discriminate). specialize (Hins Hne). lia.
Qed.

Lemma visitNeighbors_measure (tm : TileMap) (ns : list (Z * Z)) :
  0 <= width tm -> 0 <= height tm ->
  forall (q : list (Z * Z)) (v : list Z),
    length v = Z.to_nat (width tm * height tm) ->
    let st := fold_left (visitNeighbor tm) ns (q, v) in
    length (snd st) = length v /\
    (unvisited (snd st) + length (fst st) = unvisited v + length q)%nat /\
    (length q <= length (fst st))%nat.
Proof.
  intros Hw Hh. induction ns as [|n ns IH]; intros q v Hlen; cbn [fold_left]; [auto|].
  destruct (visitNeighbor_measure tm q v n Hw Hh Hlen) as (Hl1 & Hm1 & Hq1).
  destruct (visitNeighbor tm (q, v) n) as [q1 v1] eqn:E. cbn [fst snd] in *.
  destruct (IH q1 v1) as (Hl2 & Hm2 & Hq2); [congruence|]. cbv zeta in *.
  split; [congruence|lia].
Qed.

Lemma floodFill_total (tm : TileMap) :
  0 <= width tm -> 0 <= height tm ->
  forall (fuel : nat) (queue : list (Z * Z)) (visited : list Z) (count : Z),
    length visited = Z.to_nat (width tm * height tm) ->
    (unvisited visited + length queue <= fuel)%nat ->
    exists n, floodFill fuel tm queue visited count = Some n /\
      count + Z.of_nat (length queue) <= n <=
      count + Z.of_nat (unvisited visited + length queue).
Proof.
  intros Hw Hh. induction fuel as [|fuel IH]; intros queue visited count Hlen Hm.
  - destruct queue as [|c q]; [|cbn in Hm; lia]. exists count. cbn. split; [reflexivity|lia].
  - destruct queue as [|c q]; [exists count; cbn; split; [reflexivity|lia]|].
    cbn [floodFill].
    pose proof (visitNeighbors_measure tm
      [(fst c + 1, snd c); (fst c - 1, snd c); (fst c, snd c + 1); (fst c, snd c - 1)]
      Hw Hh q visited Hlen) as Hvm. cbv zeta in Hvm.
    destruct (fold_left (visitNeighbor tm) _ (q, visited)) as [q2 v2]. cbn [fst snd] in Hvm.
    destruct Hvm as (Hl2 & Hm2 & Hq2). cbn [length] in *.
    destruct (IH q2 v2 (count + 1)) as (n & Hrun & Hn); [congruence|lia|].
    exists n. split; [exact Hrun|]. lia.
Qed.

(** X18. The flood fill of countReachable terminates within width * height
    turns of its queue loop; the count it returns lies between 0 and width *
    height, and it is 0 exactly when the spawn tile is not walkable. *)
Theorem countReachable_terminates_within_grid (fuel : nat) (tm : TileMap) (spawn : Z * Z) :
  0 <= width tm -> 0 <= height tm ->
  (Z.to_nat (width tm * height tm) <= fuel)%nat ->
  exists n,
    countReachable fuel tm spawn = Some n /\
    0 <= n <= width tm * height tm /\
    (n = 0 <-> isWalkable tm (fst spawn) (snd spawn) = false).
Proof.
  intros Hw Hh Hfuel. unfold countReachable.
  destruct (isWalkable tm (fst spawn) (snd spawn)) eqn:Hwk; cbn [negb].
  2:{ exists 0. split; [reflexivity|]. split; [nia|]. split; auto. }
  assert (Hb : inBounds tm (fst spawn) (snd spawn) = true)
    by (unfold isWalkable in Hwk; destruct (inBounds tm _ _); [reflexivity|discriminate]).
  pose proof (index_inBounds tm _ _ Hb) as Hidx. unfold index in Hidx.
  set (N := Z.to_nat (width tm * height tm)) in *.
  set (v0 := writeArr (replicate N 0) (snd spawn * width tm + fst spawn) (ToUint8 1)).
  assert (Hlen : length v0 = N) by (unfold v0; now rewrite writeArr_length, length_replicate).
  assert (Hun : S (unvisited v0) = N).
  { unfold v0, writeArr. destruct (Z.ltb_spec (snd spawn * width tm + fst spawn) 0); [lia|].
    rewrite unvisited_insert; [apply unvisited_replicate| |cbv; discriminate].
    apply lookup_replicate_2. lia. }
  destruct (floodFill_total tm Hw Hh fuel [spawn] v0 0 Hlen) as (n & Hrun & Hn).
  - cbn [length]. lia.
  - exists n. split; [exact Hrun|]. cbn [length] in Hn. split; [lia|]. split; [lia|discriminate].
Qed.

Lemma setWallTile_solid (t : TileMap) (x y : Z) :
  tm_wf t ->
  let t' := setWallTile t x y 999 true in
  gridShape t' = gridShape t /\
  (inBounds t x y = true -> solidWall t' x y) /\
  (forall x' y', solidWall t x' y' -> solidWall t' x' y') /\
  (forall x' y', (x', y') <> (x, y) -> getTile t' x' y' = getTile t x' y').
Proof.
  intros Hwf t'. pose proof (setWallTile_shape t x y 999 true) as Hs. fold t' in Hs.
  pose proof (gridShape_dims _ _ Hs) as (Hw & Hh).
  split; [exact Hs|].
  destruct (inBounds t x y) eqn:Hb.
  2:{ unfold t', setWallTile. rewrite Hb. cbn [negb].
      split; [intros; discriminate|]. split; auto. }
  destruct (setWallTile_obs t x y 999 true Hb) as (_ & _ & Hmk & Hhp & Hdu).
  fold t' in Hmk, Hhp, Hdu.
  pose proof (index_range t x y Hwf Hb) as (Hm & Hp & Hd).
  set (m := readArr (mask t) (index t x y)) in *.
  pose proof (decode_encode BaseType.Wall (Z.lor FlagBits.Blocked FlagBits.LosBlock)
                (decodeDecor m) (decodeEffect m) (decodeState m)) as (E1 & E2 & _).
  assert (Hhere : solidWall t' x y).
  { unfold solidWall. rewrite (inBounds_dims _ t), (index_dims _ t) by assumption.
    rewrite Hmk, Hhp, Hdu, !readArr_writeArr_eq by assumption. rewrite E1, E2.
    repeat split; try reflexivity. exact Hb. }
  split; [intros _; exact Hhere|]. split.
  - intros x' y' (Hb' & S1 & S2 & S3 & S4).
    destruct (decide ((x', y') = (x, y))) as [[= -> ->]|Hne]; [exact Hhere|].
    assert (Hidx : index t x y <> index t x' y').
    { intros He. apply (index_inj t x y x' y' Hb Hb') in He as [-> ->]. now apply Hne. }
    pose proof (index_inBounds t x' y' Hb') as Hr.
    unfold solidWall. rewrite (inBounds_dims _ t), (index_dims _ t) by assumption.
    rewrite Hmk, Hhp, Hdu, !readArr_writeArr_ne by (lia || assumption).
    repeat split; assumption.
  - intros x' y' Hne. unfold getTile. rewrite (inBounds_dims _ t) by assumption.
    destruct (inBounds t x' y') eqn:Hb'; [|reflexivity]. cbn [negb].
    assert (Hidx : index t x y <> index t x' y').
    { intros He. apply (index_inj t x y x' y' Hb Hb') in He as [-> ->]. now apply Hne. }
    pose proof (index_inBounds t x' y' Hb') as Hr.
    rewrite (index_dims _ t) by assumption.
    rewrite Hmk, Hhp, Hdu, !readArr_writeArr_ne by (lia || assumption).
    assert (Hus : usage t' = usage t /\ occupants t' = occupants t).
    { unfold t', setWallTile. rewrite Hb. cbn [negb]. cbv zeta. destruct (negb _); split; reflexivity. }
    destruct Hus as (-> & ->). reflexivity.
Qed.

Lemma solidWall_dims (t t' : TileMap) (x y : Z) :
  gridShape t' = gridShape t -> inBounds t x y = true -> inBounds t' x y = true.
Proof.
  intros Hs Hb. pose proof (gridShape_dims _ _ Hs) as (Hw & Hh).
  rewrite (inBounds_dims _ t) by assumption. exact Hb.
Qed.

Lemma solidWall_immune (t : TileMap) (x y : Z) :
  solidWall t x y ->
  isBlocked t x y = true /\ isWalkable t x y = false /\
  forall amount, damageWallTile t x y amount = (false, t).
Proof.
  intros (Hb & S1 & S2 & S3 & S4). repeat split.
  - rewrite isBlocked_flags, S2 by exact Hb. reflexivity.
  - rewrite isWalkable_flags, S2 by exact Hb. reflexivity.
  - intros amount. unfold damageWallTile. rewrite Hb, S1, S4. reflexivity.
Qed.

Lemma reinforceOuterWall_solid (tm : TileMap) :
  tm_wf tm ->
  let t := reinforceOuterWall tm in
  (forall x y, inBounds tm x y = true -> onBorder tm x y -> solidWall t x y) /\
  (forall x y, ~ onBorder tm x y -> getTile t x y = getTile tm x y).
Proof.
  intros Hwf. cbv zeta. unfold reinforceOuterWall.
  set (w := width tm). set (h := height tm).
  pose proof Hwf as (Hw0 & Hh0 & _).
  pose (P1 := fun (k : Z) (t : TileMap) =>
    tm_wf t /\ gridShape t = gridShape tm /\
    (forall x y, inBounds tm x y = true -> x < k -> (y = 0 \/ y = h - 1) -> solidWall t x y) /\
    (forall x y, ~ onBorder tm x y -> getTile t x y = getTile tm x y)).
  assert (H1 : P1 w (forZ 0 w (fun x t =>
                  setWallTile (setWallTile t x 0 999 true) x (h - 1) 999 true) tm)).
  { apply (forZ_inv P1); [exact Hw0| |].
    - split; [exact Hwf|]. split; [reflexivity|]. split; [|reflexivity].
      intros x y Hb Hlt. apply inBounds_spec in Hb. lia.
    - intros k t Hk (Hwt & Hst & Hsol & Hint).
      destruct (setWallTile_solid t k 0 Hwt) as (Hs1 & Hat1 & Hkeep1 & Hother1).
      set (t1 := setWallTile t k 0 999 true) in *.
      assert (Hwt1 : tm_wf t1) by (eapply tm_wf_shape; eassumption).
      destruct (setWallTile_solid t1 k (h - 1) Hwt1) as (Hs2 & Hat2 & Hkeep2 & Hother2).
      set (t2 := setWallTile t1 k (h - 1) 999 true) in *.
      split; [eapply tm_wf_shape; eassumption|]. split; [congruence|]. split.
      + intros x y Hb Hlt Hy. destruct (Z.eq_dec x k) as [->|Hne].
        * destruct Hy as [->| ->].
          -- apply Hkeep2, Hat1. eapply solidWall_dims; eassumption.
          -- apply Hat2. eapply solidWall_dims; [|eassumption]. congruence.
        * apply Hkeep2, Hkeep1, Hsol; [exact Hb|lia|exact Hy].
      + intros x y Hnb. rewrite Hother2, Hother1; [now apply Hint| |].
        * intros [= -> ->]. apply Hnb. unfold onBorder. auto.
        * intros [= -> ->]. apply Hnb. unfold onBorder. fold h. auto. }
  destruct H1 as (Hwf1 & Hs1 & Hsol1 & Hint1).
  set (tm1 := forZ 0 w _ tm) in *.
  pose (P2 := fun (k : Z) (t : TileMap) =>
    tm_wf t /\ gridShape t = gridShape tm /\
    (forall x y, inBounds tm x y = true -> (y = 0 \/ y = h - 1) -> solidWall t x y) /\
    (forall x y, inBounds tm x y = true -> y < k -> (x = 0 \/ x = w - 1) -> solidWall t x y) /\
    (forall x y, ~ onBorder tm x y -> getTile t x y = getTile tm x y)).
  assert (H2 : P2 h (forZ 0 h (fun y t =>
                  setWallTile (setWallTile t 0 y 999 true) (w - 1) y 999 true) tm1)).
  { apply (forZ_inv P2); [exact Hh0| |].
    - split; [exact Hwf1|]. split; [exact Hs1|]. split; [|split; [|exact Hint1]].
      + intros x y Hb Hy. apply Hsol1; [exact Hb| |exact Hy]. apply inBounds_spec in Hb.
        fold w in Hb. lia.
      + intros x y Hb Hlt. apply inBounds_spec in Hb. lia.
    - intros k t Hk (Hwt & Hst & Hrows & Hsol & Hint).
      destruct (setWallTile_solid t 0 k Hwt) as (Hsa & Hat1 & Hkeep1 & Hother1).
      set (t1 := setWallTile t 0 k 999 true) in *.
      assert (Hwt1 : tm_wf t1) by (eapply tm_wf_shape; eassumption).
      destruct (setWallTile_solid t1 (w - 1) k Hwt1) as (Hsb & Hat2 & Hkeep2 & Hother2).
      set (t2 := setWallTile t1 (w - 1) k 999 true) in *.
      split; [eapply tm_wf_shape; eassumption|]. split; [congruence|]. split; [|split].
      + intros x y Hb Hy. apply Hkeep2, Hkeep1, Hrows; assumption.
      + intros x y Hb Hlt Hx. destruct (Z.eq_dec y k) as [->|Hne].
        * destruct Hx as [->| ->].
          -- apply Hkeep2, Hat1. eapply solidWall_dims; eassumption.
          -- apply Hat2. eapply solidWall_dims; [|eassumption]. congruence.
        * apply Hkeep2, Hkeep1, Hsol; [exact Hb|lia|exact Hx].
      + intros x y Hnb. rewrite Hother2, Hother1; [now apply Hint| |].
        * intros [= -> ->]. apply Hnb. unfold onBorder. auto.
        * intros [= -> ->]. apply Hnb. unfold onBorder. fold w. auto. }
  destruct H2 as (_ & _ & Hrows & Hcols & Hint). split; [|exact Hint].
  intros x y Hb [Hx|[Hx|[Hy|Hy]]].
  - apply Hcols; [exact Hb| |auto]. apply inBounds_spec in Hb. fold h in Hb. lia.
  - apply Hcols; [exact Hb| |fold w in Hx; auto]. apply inBounds_spec in Hb. fold h in Hb. lia.
  - apply Hrows; auto.
  - apply Hrows; [exact Hb|fold h in Hy; auto].
Qed.

(** X19. After reinforceOuterWall every tile of the outer ring of the grid is
    blocked, not walkable, and immune to damageWallTile (which returns false
    and changes nothing for every amount); every tile that is not on the outer
    ring reads as before. *)
Theorem reinforceOuterWall_seals_the_border (tm : TileMap) (x y : Z) :
  tm_wf tm ->
  let t := reinforceOuterWall tm in
  (inBounds tm x y = true -> onBorder tm x y ->
   isBlocked t x y = true /\ isWalkable t x y = false /\
   forall amount, damageWallTile t x y amount = (false, t)) /\
  (~ onBorder tm x y -> getTile t x y = getTile tm x y).
Proof.
  intros Hwf t. destruct (reinforceOuterWall_solid tm Hwf) as (Hsol & Hint). split.
  - intros Hb Hon. apply solidWall_immune, Hsol; assumption.
  - apply Hint.
Qed.

Section SealedFacts.
Context `{MathLib}.

Lemma runAttempt_sealed (fuel : nat) (t : TileMap) (config : MapGenerationConfig)
    (attemptSeed attempt : Z) (a : Attempt) :
  tm_wf t ->
  runAttempt fuel t config attemptSeed attempt = Some a ->
  forall x y, inBounds t x y = true -> onBorder t x y -> solidWall (at_tileMap a) x y.
Proof.
  intros Hwf. unfold runAttempt. set (rng := SeededRng.create _).
  pose proof (applyJaggedBorders_shape (paintBase t) rng config) as Hj.
  destruct (applyJaggedBorders (paintBase t) rng config) as [ta ra]. cbn in Hj.
  destruct (scatterBlobs fuel ta ra config []) as [[[tc rc] bc]|] eqn:Es; [|discriminate].
  apply scatterBlobs_shape in Es.
  destruct (carveLoops fuel (clearSafeZone tc config) rc config) as [[te re]|] eqn:Ec;
    [|discriminate].
  apply carveLoops_shape in Ec.
  destruct (countReachable fuel _ _); [|discriminate].
  intros [= <-] x y Hb Hon. cbn [at_tileMap].
  assert (Hse : gridShape te = gridShape t)
    by (now rewrite Ec, clearSafeZone_shape, Es, Hj, paintBase_shape).
  pose proof (gridShape_dims _ _ Hse) as (Hw & Hh).
  assert (Hwe : tm_wf te) by (eapply tm_wf_shape; eassumption).
  apply (reinforceOuterWall_solid te Hwe).
  - rewrite (inBounds_dims _ t) by assumption. exact Hb.
  - unfold onBorder in *. now rewrite Hw, Hh.
Qed.

Lemma attemptLoop_accepted (n : nat) : forall attempt fuel t config attemptSeed res t',
  tm_wf t ->
  attemptLoop n attempt fuel t config attemptSeed = Some (Some res, t') ->
  Qle_bool (requiredConnectedRatio config) (reachableRatio res) = true /\
  forall x y, inBounds t x y = true -> onBorder t x y -> solidWall t' x y.
Proof.
  induction n as [|n IH]; intros attempt fuel t config attemptSeed res t' Hwf;
    cbn [attemptLoop]; [discriminate|].
  destruct (runAttempt fuel t config attemptSeed attempt) as [a|] eqn:Ea; [|discriminate].
  pose proof (runAttempt_sealed _ _ _ _ _ _ Hwf Ea) as Hsealed.
  pose proof (runAttempt_shape _ _ _ _ _ _ Ea) as Hs.
  destruct (Qle_bool (requiredConnectedRatio config) (at_reachableRatio a)) eqn:Hq.
  - intros [= <- <-]. split; [exact Hq|exact Hsealed].
  - intros Hl. pose proof (gridShape_dims _ _ Hs) as (Hw & Hh).
    apply IH in Hl; [|eapply tm_wf_shape; eassumption].
    destruct Hl as (Hr & Hsol). split; [exact Hr|].
    intros x y Hb Hon. apply Hsol.
    + rewrite (inBounds_dims _ t) by assumption. exact Hb.
    + unfold onBorder in *. now rewrite Hw, Hh.
Qed.

(** X20. When one of the attempts of generate is accepted, generate returns
    the result of that attempt; its reachableRatio is at least
    requiredConnectedRatio, and every tile of the outer ring of the generated
    map is blocked, not walkable and immune to damageWallTile. *)
Theorem accepted_map_is_connected_and_sealed
    (fuel : nat) (r : Rand) (baseConfig overrides : PartialConfig) (tileMap : TileMap)
    (res : MapGenerationResult) (tm' : TileMap) :
  tm_wf tileMap ->
  let config := buildConfig tileMap baseConfig overrides in
  let attemptSeed := match seed config with
                     | Some v => v
                     | None => Math_floor (fst (Math_random r) * 2147483647)
                     end in
  attemptLoop (Z.to_nat (maxAttempts config)) 0 fuel tileMap config attemptSeed
    = Some (Some res, tm') ->
  generate fuel r baseConfig tileMap overrides = Some (res, tm') /\
  Qle_bool (requiredConnectedRatio config) (reachableRatio res) = true /\
  forall x y, inBounds tileMap x y = true -> onBorder tileMap x y ->
    isBlocked tm' x y = true /\ isWalkable tm' x y = false /\
    forall amount, damageWallTile tm' x y amount = (false, tm').
Proof.
  intros Hwf config attemptSeed Hloop.
  split; [unfold generate; fold config attemptSeed; now rewrite Hloop|].
  destruct (attemptLoop_accepted _ _ _ _ _ _ _ _ Hwf Hloop) as (Hq & Hsol).
  split; [exact Hq|]. intros x y Hb Hon. apply solidWall_immune, Hsol; assumption.
Qed.

End SealedFacts.

(** ** The seeded generator of random numbers and the metadata *)

Lemma high_bits_clear (a : Z) (n i : Z) :
  0 <= a < 2 ^ n -> 0 <= n -> n <= i -> Z.testbit a i = false.
Proof.
  intros Ha Hn Hi. destruct (Z.eq_dec a 0) as [->|Hne]; [apply Z.bits_0|].
  apply Z.bits_above_log2; [lia|]. 
  assert (Z.log2 a < n) by (apply Z.log2_lt_pow2; lia). lia.
Qed.

Lemma word_of_bits (a n : Z) :
  0 <= a -> 0 <= n -> (forall i, n <= i -> Z.testbit a i = false) -> a < 2 ^ n.
Proof.
  intros Ha Hn Hbits. destruct (Z.eq_dec a 0) as [->|Hne]; [apply Z.pow_pos_nonneg; lia|].
  apply Z.log2_lt_pow2; [lia|]. apply Z.lt_nge. intros Hge.
  pose proof (Z.bit_log2 a ltac:(lia)) as Hb. rewrite Hbits in Hb by lia. discriminate.
Qed.

Lemma lxor_word (a b n : Z) :
  0 <= a < 2 ^ n -> 0 <= b < 2 ^ n -> 0 <= n -> 0 <= Z.lxor a b < 2 ^ n.
Proof.
  intros Ha Hb Hn. split; [apply Z.lxor_nonneg; lia|].
  apply word_of_bits; [apply Z.lxor_nonneg; lia|exact Hn|].
  intros i Hi. rewrite Z.lxor_spec, (high_bits_clear a n i), (high_bits_clear b n i) by lia.
  reflexivity.
Qed.

Lemma shl_fixpoint_zero (x k : Z) :
  0 <= x < 2 ^ 32 -> 0 < k -> Z.lxor x (ToUint32 (Z.shiftl x k)) = 0 -> x = 0.
Proof.
  intros Hx Hk Hz. apply Z.lxor_eq in Hz.
  assert (Hall : forall m, 0 <= m -> forall n, 0 <= n < m -> Z.testbit x n = false).
  { intros m Hm. pattern m. apply natlike_ind; [intros; lia| |exact Hm].
    intros j Hj IH n Hn. destruct (Z.eq_dec n j) as [->|Hne]; [|apply IH; lia].
    rewrite Hz. unfold ToUint32.
    destruct (Z.lt_ge_cases j 32) as [Hlt|Hge].
    - rewrite Z.mod_pow2_bits_low, Z.shiftl_spec by lia.
      destruct (Z.lt_ge_cases (j - k) 0); [now apply Z.testbit_neg_r|apply IH; lia].
    - apply Z.mod_pow2_bits_high. lia. }
  apply Z.bits_inj'. intros n Hn. rewrite Z.bits_0. apply (Hall (n + 1)); lia.
Qed.

Lemma shr_fixpoint_zero (x : Z) :
  0 <= x < 2 ^ 32 -> Z.lxor x (Z.shiftr x 17) = 0 -> x = 0.
Proof.
  intros Hx Hz. apply Z.lxor_eq in Hz.
  assert (Hstep : forall n, 0 <= n -> Z.testbit x n = Z.testbit x (n + 17)).
  { intros n Hn. rewrite Hz at 1. now rewrite Z.shiftr_spec. }
  apply Z.bits_inj'. intros n Hn. rewrite Z.bits_0, Hstep, Hstep by lia.
  apply (high_bits_clear x 32); lia.
Qed.

Lemma ToUint32_range (v : Z) : 0 <= ToUint32 v < 2 ^ 32.
Proof. unfold ToUint32. apply Z.mod_pos_bound. lia. Qed.

Lemma shiftr_word (x k : Z) : 0 <= x < 2 ^ 32 -> 0 <= k -> 0 <= Z.shiftr x k < 2 ^ 32.
Proof.
  intros Hx Hk. rewrite Z.shiftr_div_pow2 by lia.
  assert (0 < 2 ^ k) by (apply Z.pow_pos_nonneg; lia).
  split; [apply Z.div_pos; lia|].
  apply Z.div_lt_upper_bound; [lia|]. nia.
Qed.

Lemma next_state (state : Z) :
  0 < state < 2 ^ 32 -> 0 < snd (SeededRng.next state) < 2 ^ 32.
Proof.
  intros Hs. unfold SeededRng.next. cbv zeta. cbn [snd].
  set (x1 := Z.lxor state (ToUint32 (Z.shiftl state 13))).
  set (x2 := Z.lxor x1 (Z.shiftr x1 17)).
  set (x3 := Z.lxor x2 (ToUint32 (Z.shiftl x2 5))).
  assert (H1 : 0 <= x1 < 2 ^ 32)
    by (apply lxor_word; [lia|apply ToUint32_range|lia]).
  assert (H2 : 0 <= x2 < 2 ^ 32)
    by (apply lxor_word; [lia|apply shiftr_word; lia|lia]).
  assert (H3 : 0 <= x3 < 2 ^ 32)
    by (apply lxor_word; [lia|apply ToUint32_range|lia]).
  assert (N1 : x1 <> 0) by (intros E; apply shl_fixpoint_zero in E; lia).
  assert (N2 : x2 <> 0) by (intros E; apply shr_fixpoint_zero in E; lia).
  assert (N3 : x3 <> 0) by (intros E; apply shl_fixpoint_zero in E; lia).
  unfold ToUint32. rewrite Z.mod_small by lia. lia.
Qed.

Lemma next_value (state : Z) :
  fst (SeededRng.next state) = (inject_Z (snd (SeededRng.next state)) / 4294967295)%Q.
Proof. reflexivity. Qed.

Lemma unit_fraction (st : Z) :
  0 < st < 2 ^ 32 ->
  (0 < inject_Z st / 4294967295)%Q /\ (inject_Z st / 4294967295 <= 1)%Q /\
  (st < 4294967295 -> (inject_Z st / 4294967295 < 1)%Q).
Proof.
  intros Hs.
  assert (Hc : (0 < 4294967295)%Q) by reflexivity.
  assert (H0 : (0 < inject_Z st)%Q) by (change 0%Q with (inject_Z 0); rewrite <- Zlt_Qlt; lia).
  assert (H1 : (inject_Z st <= 4294967295)%Q)
    by (change 4294967295%Q with (inject_Z 4294967295); rewrite <- Zle_Qle; lia).
  split; [apply Qlt_shift_div_l; [exact Hc|lra]|].
  split; [apply Qle_shift_div_r; [exact Hc|lra]|].
  intros Hlt. apply Qlt_shift_div_r; [exact Hc|].
  assert (H2 : (inject_Z st < 4294967295)%Q)
    by (change 4294967295%Q with (inject_Z 4294967295); rewrite <- Zlt_Qlt; lia).
  lra.
Qed.

(** X21. The state of SeededRng is never 0: the constructor gives a state in
    1..2^32-1 for every seed and next() keeps it in that range. next() returns
    a value in (0, 1], so int(min, max) with min <= max returns a value in
    min..max+1, and it returns max + 1 exactly when the new state is
    0xffffffff. *)
Theorem SeededRng_stays_in_range (seed state min max : Z) :
  0 < SeededRng.create seed < 2 ^ 32 /\
  (0 < state < 2 ^ 32 ->
   let u := fst (SeededRng.next state) in
   let st := snd (SeededRng.next state) in
   0 < st < 2 ^ 32 /\ (0 < u)%Q /\ (u <= 1)%Q /\
   (min <= max ->
    let v := fst (SeededRng.int state min max) in
    snd (SeededRng.int state min max) = st /\
    min <= v <= max + 1 /\ (v = max + 1 <-> st = 4294967295))).
Proof.
  split.
  - unfold SeededRng.create. pose proof (ToUint32_range seed).
    destruct (Z.eqb_spec (ToUint32 seed) 0); lia.
  - intros Hs u st. pose proof (next_state state Hs) as Hst. fold st in Hst.
    destruct (unit_fraction st Hst) as (U0 & U1 & Ult).
    assert (Hu : u = (inject_Z st / 4294967295)%Q) by reflexivity.
    split; [exact Hst|]. split; [now rewrite Hu|]. split; [now rewrite Hu|].
    intros Hmm v.
    assert (Hv : v = Qfloor (u * inject_Z (max - min + 1)) + min) by reflexivity.
    split; [reflexivity|].
    set (n := max - min + 1) in *.
    assert (Hn : (1 <= inject_Z n)%Q)
      by (change 1%Q with (inject_Z 1); rewrite <- Zle_Qle; lia).
    rewrite <- Hu in U0, U1, Ult.
    assert (Hlo : (0 <= u * inject_Z n)%Q) by nra.
    assert (Hhi : (u * inject_Z n <= inject_Z n)%Q) by nra.
    pose proof (Qfloor_resp_le _ _ Hlo) as F0. change (Qfloor 0) with 0 in F0.
    pose proof (Qfloor_resp_le _ _ Hhi) as F1. rewrite Qfloor_Z in F1.
    split; [lia|]. split.
    + intros Hmax. assert (Hfl : Qfloor (u * inject_Z n) = n) by lia.
      destruct (Z.eq_dec st 4294967295) as [E|E]; [exact E|exfalso].
      assert (Hlt : (u < 1)%Q) by (apply Ult; lia).
      pose proof (Qfloor_le (u * inject_Z n)) as Hfle. rewrite Hfl in Hfle. nra.
    + intros E.
      assert (Hone : (u * inject_Z n == inject_Z n)%Q).
      { rewrite Hu, E. field. }
      rewrite Hv, (Qfloor_comp _ _ Hone), Qfloor_Z. lia.
Qed.

Lemma recorded_ext (tm : TileMap) (config : MapGenerationConfig) (D D' : Z * Z -> Prop)
    (n n' : Z) (md : Metadata) :
  (forall p, D p <-> D' p) -> n = n' ->
  recorded tm config D n md -> recorded tm config D' n' md.
Proof.
  intros HD -> (Hin & HW & HO & HS & Hlen & Hgrid & Hcount). unfold recorded.
  split; [intros p Hp; apply Hin, HD, Hp|].
  split; [intros p; rewrite HW, HD; reflexivity|].
  split; [intros p; rewrite HO, HD; reflexivity|].
  split; [intros p; rewrite HS, HD; reflexivity|].
  split; [exact Hlen|]. split; [intros p Hp; apply Hgrid, HD, Hp|exact Hcount].
Qed.

Lemma recorded_step (tm : TileMap) (config : MapGenerationConfig) (D : Z * Z -> Prop)
    (n x y : Z) (md : Metadata) :
  recorded tm config D n md -> ~ D (x, y) -> 0 <= x < width tm -> 0 <= y < height tm ->
  recorded tm config (fun p => D p \/ p = (x, y)) (n + 1)
    (let idx := y * width tm + x in
     let walkable := isWalkable tm x y in
     let grid := writeArr (md_collisionGrid md) idx (ToUint8 (if walkable then 0 else 1)) in
     if walkable then
       let dx := x - fst (gc_spawn config) in
       let dy := y - snd (gc_spawn config) in
       mkMetadata (md_walkableTiles md ++ [(x, y)]) (md_obstacleTiles md)
         (if (safeZoneRadius config * safeZoneRadius config + 9 <? dx * dx + dy * dy)
             && hasClearNeighbors tm x y
          then md_spawnableTiles md ++ [(x, y)] else md_spawnableTiles md)
         grid
     else
       mkMetadata (md_walkableTiles md) (md_obstacleTiles md ++ [(x, y)])
         (md_spawnableTiles md) grid).
Proof.
  intros (Hin & HW & HO & HS & Hlen & Hgrid & Hcount) Hnew Hx Hy. cbv zeta.
  assert (Hidx : 0 <= y * width tm + x < width tm * height tm) by nia.
  assert (Hgrid' : forall v p, D p \/ p = (x, y) ->
            readArr (writeArr (md_collisionGrid md) (y * width tm + x) v)
              (snd p * width tm + fst p)
            = if decide (p = (x, y)) then v else
              if isWalkable tm (fst p) (snd p) then 0 else 1).
  { intros v p Hp. destruct (decide (p = (x, y))) as [->|Hne].
    - cbn [fst snd]. apply readArr_writeArr_eq. rewrite Hlen. lia.
    - destruct Hp as [Hp|Hp]; [|contradiction]. pose proof (Hin p Hp) as Hr.
      rewrite readArr_writeArr_ne; [now apply Hgrid|nia|].
      intros He. apply Hne. destruct p as [a b]. cbn [fst snd] in *.
      assert (b = y) by nia. subst. f_equal. lia. }
  assert (Hsp : spawnable tm config (x, y) =
            isWalkable tm x y &&
            (safeZoneRadius config * safeZoneRadius config + 9 <?
               (x - fst (gc_spawn config)) * (x - fst (gc_spawn config)) +
               (y - snd (gc_spawn config)) * (y - snd (gc_spawn config))) &&
            hasClearNeighbors tm x y) by reflexivity.
  destruct (isWalkable tm x y) eqn:Hwk; unfold recorded;
    cbn [md_walkableTiles md_obstacleTiles md_spawnableTiles md_collisionGrid].
  - split; [intros p [Hp| ->]; [now apply Hin|cbn; lia]|].
    split. { intros p. rewrite elem_of_app, list_elem_of_singleton, HW.
             split; [intros [[? ?]| ->]; [tauto|cbn; tauto]|].
             intros [[?| ->] ?]; [tauto|tauto]. }
    split. { intros p. rewrite HO. split; [tauto|].
             intros [[?| ->] Hf]; [tauto|]. cbn in Hf. congruence. }
    split. { intros p. cbn [andb] in Hsp.
             destruct ((_ <? _) && hasClearNeighbors tm x y) eqn:Hc.
             - rewrite elem_of_app, list_elem_of_singleton, HS.
               split; [intros [[? ?]| ->]; [tauto|tauto]|]. intros [[?| ->] ?]; tauto.
             - rewrite HS. split; [tauto|]. intros [[?| ->] Hf]; [tauto|congruence]. }
    split; [now rewrite writeArr_length|].
    split. { intros p Hp. rewrite (Hgrid' _ p Hp).
             destruct (decide (p = (x, y))) as [->|]; [cbn; now rewrite Hwk|reflexivity]. }
    rewrite length_app. cbn [length]. lia.
  - split; [intros p [Hp| ->]; [now apply Hin|cbn; lia]|].
    split. { intros p. rewrite HW. split; [tauto|].
             intros [[?| ->] Hf]; [tauto|]. cbn in Hf. congruence. }
    split. { intros p. rewrite elem_of_app, list_elem_of_singleton, HO.
             split; [intros [[? ?]| ->]; [tauto|cbn; tauto]|].
             intros [[?| ->] ?]; [tauto|tauto]. }
    split. { intros p. rewrite HS. split; [tauto|].
             intros [[?| ->] Hf]; [tauto|]. cbn [andb] in Hsp. congruence. }
    split; [now rewrite writeArr_length|].
    split. { intros p Hp. rewrite (Hgrid' _ p Hp).
             destruct (decide (p = (x, y))) as [->|]; [cbn; now rewrite Hwk|reflexivity]. }
    rewrite length_app. cbn [length]. lia.
Qed.

Lemma extractMetadata_recorded (tm : TileMap) (config : MapGenerationConfig) :
  0 <= width tm -> 0 <= height tm ->
  recorded tm config (fun p => 0 <= fst p < width tm /\ 0 <= snd p < height tm)
    (width tm * height tm) (extractMetadata tm config).
Proof.
  intros Hw Hh.
  pose (P := fun (k : Z) (md : Metadata) =>
    recorded tm config (fun p => 0 <= fst p < width tm /\ 0 <= snd p < k) (k * width tm) md).
  apply (recorded_ext tm config
           (fun p => 0 <= fst p < width tm /\ 0 <= snd p < height tm)
           (fun p => 0 <= fst p < width tm /\ 0 <= snd p < height tm)
           (height tm * width tm)); [intros p; reflexivity|lia|].
  change (P (height tm) (extractMetadata tm config)). unfold extractMetadata.
  apply (forZ_inv P); [exact Hh| |].
  - unfold P, recorded. cbn [md_walkableTiles md_obstacleTiles md_spawnableTiles md_collisionGrid].
    split; [intros p; lia|]. 
    split; [intros p; split; [intros Hp; now apply not_elem_of_nil in Hp|lia]|].
    split; [intros p; split; [intros Hp; now apply not_elem_of_nil in Hp|lia]|].
    split; [intros p; split; [intros Hp; now apply not_elem_of_nil in Hp|lia]|].
    split; [apply length_replicate|]. split; [intros p; lia|reflexivity].
  - intros y md Hy Hrec. unfold P in *.
    pose (Q := fun (j : Z) (md : Metadata) =>
      recorded tm config
        (fun p => 0 <= fst p < width tm /\ (0 <= snd p < y \/ (snd p = y /\ fst p < j)))
        (y * width tm + j) md).
    assert (HQ : Q (width tm) (forZ 0 (width tm) (fun x md =>
      let idx := y * width tm + x in
      let walkable := isWalkable tm x y in
      let grid := writeArr (md_collisionGrid md) idx (ToUint8 (if walkable then 0 else 1)) in
      if walkable then
        let dx := x - fst (gc_spawn config) in
        let dy := y - snd (gc_spawn config) in
        mkMetadata (md_walkableTiles md ++ [(x, y)]) (md_obstacleTiles md)
          (if (safeZoneRadius config * safeZoneRadius config + 9 <? dx * dx + dy * dy)
              && hasClearNeighbors tm x y
           then md_spawnableTiles md ++ [(x, y)] else md_spawnableTiles md)
          grid
      else
        mkMetadata (md_walkableTiles md) (md_obstacleTiles md ++ [(x, y)])
          (md_spawnableTiles md) grid) md)).
    { apply (forZ_inv Q); [exact Hw| |].
      - unfold Q. eapply recorded_ext; [| |exact Hrec]; [|lia].
        intros p. lia.
      - intros x md' Hx Hrec'. unfold Q in *.
        eapply recorded_ext; [| |apply (recorded_step tm config _ _ x y md' Hrec')].
        + intros [a b]. cbn [fst snd]. split.
          * intros [Hd|[= -> ->]]; lia.
          * intros (Ha & [Hb|(-> & Hlt)]); [left; lia|].
            destruct (Z.eq_dec a x) as [->|Hne]; [right; reflexivity|left; lia].
        + lia.
        + cbn [fst snd]. lia.
        + lia.
        + lia. }
    unfold Q in HQ. eapply recorded_ext; [| |exact HQ]; [|lia].
    intros p. lia.
Qed.

(** X22. extractMetadata lists in walkableTiles exactly the walkable tiles, in
    obstacleTiles exactly the tiles of the grid that are not walkable, and in
    spawnableTiles exactly the walkable tiles outside the widened safe zone
    whose four neighbours are walkable; collisionGrid holds 0 at a walkable
    tile and 1 at any other, and walkableTiles and obstacleTiles together have
    width * height entries. *)
Theorem extractMetadata_lists
    (tm : TileMap) (config : MapGenerationConfig) (x y : Z) :
  0 <= width tm -> 0 <= height tm ->
  let md := extractMetadata tm config in
  ((x, y) ∈ md_walkableTiles md <-> isWalkable tm x y = true) /\
  ((x, y) ∈ md_obstacleTiles md <-> inBounds tm x y = true /\ isWalkable tm x y = false) /\
  ((x, y) ∈ md_spawnableTiles md <-> spawnable tm config (x, y) = true) /\
  (inBounds tm x y = true ->
   readArr (md_collisionGrid md) (index tm x y) = if isWalkable tm x y then 0 else 1) /\
  Z.of_nat (length (md_walkableTiles md) + length (md_obstacleTiles md))
    = width tm * height tm.
Proof.
  intros Hw Hh md.
  destruct (extractMetadata_recorded tm config Hw Hh) as (_ & HW & HO & HS & _ & Hgrid & Hcount).
  fold md in HW, HO, HS, Hgrid, Hcount.
  assert (Hwb : isWalkable tm x y = true -> inBounds tm x y = true)
    by (unfold isWalkable; destruct (inBounds tm x y); [reflexivity|discriminate]).
  split; [|split; [|split; [|split]]].
  - rewrite HW. cbn [fst snd]. split; [tauto|]. intros Hwk. split; [|exact Hwk].
    apply inBounds_spec. auto.
  - rewrite HO. cbn [fst snd]. rewrite inBounds_spec. tauto.
  - rewrite HS. cbn [fst snd]. split; [tauto|]. intros Hsp. split; [|exact Hsp].
    apply inBounds_spec, Hwb. unfold spawnable in Hsp. cbn [fst snd] in Hsp.
    destruct (isWalkable tm x y); [reflexivity|discriminate].
  - intros Hb. apply (Hgrid (x, y)). cbn [fst snd]. now apply inBounds_spec.
  - exact Hcount.
Qed.

(** ** The periodic spawner *)

Section SpawnerFacts.
Context `{MathLib}.

Lemma spawnOne_count depth sc tm s r forced res s1 r1 :
  spawnOne depth sc tm s r forced = Some (res, (s1, r1)) ->
  currentEnemies s1 = currentEnemies s + match res with Some _ => 1 | None => 0 end.
Proof.
  unfold spawnOne.
  destruct (match forced with Some t => (Some t, r) | None => pickEnemyType sc r end)
    as [[et|] r0].
  2:{ intros [= <- <- <-]. lia. }
  destruct (pickSizeScale sc et r0) as [sizeScale r2].
  destruct (pickSpawnPosition depth sc tm s r2) as [[spawnPos r3]|]; [|discriminate].
  pose proof (createEntity_enemy s) as Hc.
  destruct (createEntity s "enemy") as [enemy s'].
  intros [= <- <- <-]. exact Hc.
Qed.

Lemma spawnBatchLoop_bound n : forall depth sc tm s r sc' s' r',
  spawnBatchLoop n depth sc tm s r = Some (sc', s', r') ->
  currentEnemies s <= currentEnemies s' <= currentEnemies s + Z.of_nat n /\
  config sc' = config sc /\ initialized sc' = initialized sc /\
  spawnTimerMs sc' = spawnTimerMs sc /\ registry sc' = registry sc.
Proof.
  induction n as [|n IH]; intros depth sc tm s r sc' s' r'; cbn [spawnBatchLoop].
  - intros [= <- <- <-]. repeat split; lia.
  - destruct (spawnOne depth sc tm s r None) as [[res [s1 r1]]|] eqn:E; [|discriminate].
    apply spawnOne_count in E.
    destruct res as [key|]; [|intros [= <- <- <-]; repeat split; lia].
    destruct (String.eqb key ""); [intros [= <- <- <-]; repeat split; lia|].
    intros Hl. apply IH in Hl as (Hb & Hc & Hi & Ht & Hr). cbn in *. repeat split; (lia || assumption).
Qed.

Lemma spawnBatch_bound depth sc tm s r count sc' s' r' :
  spawnBatch depth sc tm s r count = Some (sc', s', r') ->
  currentEnemies s <= currentEnemies s' <= currentEnemies s + Z.max 0 count /\
  (0 < maxEnemies (config sc) -> currentEnemies s <= maxEnemies (config sc) ->
   currentEnemies s' <= maxEnemies (config sc)) /\
  config sc' = config sc /\ initialized sc' = initialized sc /\
  spawnTimerMs sc' = spawnTimerMs sc /\ registry sc' = registry sc.
Proof.
  unfold spawnBatch. destruct (Z.leb_spec count 0) as [Hle|Hgt].
  { intros [= <- <- <-]. repeat split; lia. }
  set (toSpawn := if 0 <? maxEnemies (config sc) then _ else count).
  destruct (Z.leb_spec toSpawn 0) as [Hle|Hpos].
  { intros [= <- <- <-]. repeat split; lia. }
  intros Hl. apply spawnBatchLoop_bound in Hl as (Hb & Hc & Hi & Ht & Hr).
  assert (Hts : toSpawn <= count).
  { unfold toSpawn. destruct (0 <? maxEnemies (config sc)); lia. }
  split; [lia|]. split; [|auto].
  intros Hcap Hcur. unfold toSpawn in *.
  destruct (Z.ltb_spec 0 (maxEnemies (config sc))); lia.
Qed.

Lemma spawnBatchLoop_no_map n : forall depth sc s r,
  (0 < depth)%nat -> is_Some (spawnBatchLoop n depth sc None s r).
Proof.
  induction n as [|n IH]; intros depth sc s r Hd; cbn [spawnBatchLoop].
  - eexists; reflexivity.
  - destruct (spawnOne_no_map depth sc s r None Hd) as [[res [s1 r1]] ->].
    destruct res as [key|]; [|eexists; reflexivity].
    destruct (String.eqb key ""); [eexists; reflexivity|]. now apply IH.
Qed.

Lemma spawnBatch_no_map depth sc s r count :
  (0 < depth)%nat -> is_Some (spawnBatch depth sc None s r count).
Proof.
  intros Hd. unfold spawnBatch. destruct (count <=? 0); [eexists; reflexivity|].
  destruct (_ <=? 0); [eexists; reflexivity|]. now apply spawnBatchLoop_no_map.
Qed.

(** X23. With maxEnemies > 0 and at most maxEnemies enemies alive, one
    SpawnController.update removes no enemy and never brings the number of
    enemies above maxEnemies; it leaves the controller initialized, with the
    same config and registry. Without a tile map the update always completes. *)
Theorem spawnUpdate_respects_cap
    (depth : nat) (sc : SpawnController) (tm : option TileMap) (s : Store) (r : Rand) (dt : Q) :
  0 < maxEnemies (config sc) -> currentEnemies s <= maxEnemies (config sc) ->
  (forall sc' s' r',
     spawnUpdate depth sc tm s r dt = Some (sc', s', r') ->
     currentEnemies s <= currentEnemies s' <= maxEnemies (config sc) /\
     initialized sc' = true /\ config sc' = config sc /\ registry sc' = registry sc) /\
  (tm = None -> (0 < depth)%nat -> is_Some (spawnUpdate depth sc tm s r dt)).
Proof.
  intros Hcap Hcur.
  assert (Hinit : forall sc1 s1 r1,
    (if negb (initialized sc) then initialize depth sc tm s r else Some (sc, s, r))
      = Some (sc1, s1, r1) ->
    currentEnemies s <= currentEnemies s1 <= maxEnemies (config sc) /\
    initialized sc1 = true /\ config sc1 = config sc /\ registry sc1 = registry sc).
  { intros sc1 s1 r1. unfold initialize. destruct (initialized sc) eqn:Hi; cbn [negb].
    - intros [= <- <- <-]. repeat split; (lia || assumption).
    - destruct (0 <? initialSpawnCount (config (set_initialized sc true))).
      + intros Hb. apply spawnBatch_bound in Hb as (Hb & Hc & Hcfg & Hin & _ & Hr).
        cbn in *. repeat split; try assumption; try lia; now apply Hc.
      + intros [= <- <- <-]. repeat split; lia. }
  split.
  - intros sc' s' r'. unfold spawnUpdate.
    destruct (if negb (initialized sc) then _ else _) as [[[sc1 s1] r1]|] eqn:E; [|discriminate].
    destruct (Hinit _ _ _ eq_refl) as (Hb1 & Hi1 & Hc1 & Hr1).
    destruct (Qle_bool (spawnIntervalMs (config sc1)) 0).
    { intros [= <- <- <-]. auto. }
    destruct (Qle_bool (spawnIntervalMs (config sc1)) _).
    2:{ intros [= <- <- <-]. cbn. auto. }
    unfold spawnToFill. cbn [config set_spawnTimerMs]. rewrite Hc1.
    destruct (Z.leb_spec (maxEnemies (config sc)) 0); [lia|].
    destruct (Z.leb_spec (maxEnemies (config sc)) (currentEnemies s1)).
    { intros [= <- <- <-]. cbn. auto. }
    intros Hb. apply spawnBatch_bound in Hb as (Hb & Hc & Hcfg & Hin & _ & Hr).
    cbn in *. rewrite Hc1 in *.
    assert (currentEnemies s' <= maxEnemies (config sc)) by (apply Hc; lia).
    repeat split; try congruence; try lia.
  - intros -> Hd. unfold spawnUpdate.
    assert (Hi : is_Some (if negb (initialized sc) then initialize depth sc None s r
                          else Some (sc, s, r))).
    { destruct (initialized sc) eqn:Hi; cbn [negb]; [eexists; reflexivity|].
      unfold initialize. rewrite Hi. destruct (0 <? _); [|eexists; reflexivity].
      now apply spawnBatch_no_map. }
    destruct Hi as [[[sc1 s1] r1] ->].
    destruct (Qle_bool _ 0); [eexists; reflexivity|].
    destruct (Qle_bool _ _); [|eexists; reflexivity].
    unfold spawnToFill. destruct (_ <=? 0); [now apply spawnBatch_no_map|].
    destruct (_ <=? _); [eexists; reflexivity|now apply spawnBatch_no_map].
Qed.

End SpawnerFacts.

Section CountFacts.
Context `{MathLib}.



End CountFacts.

(** ** Waves: the mix, the timed events, the start of a wave *)

Lemma rollMix_member (entries : WaveEnemyMix) : forall roll t,
  rollMix entries roll = Some t -> exists w, (t, w) ∈ entries.
Proof.
  induction entries as [|[ty w] rest IH]; intros roll t; cbn [rollMix]; [discriminate|].
  destruct (Qle_bool (roll - w) 0).
  - intros [= <-]. exists w. apply list_elem_of_here.
  - intros Hr. apply IH in Hr as [w' Hin]. exists w'. now apply list_elem_of_further.
Qed.

Lemma last_member {A : Type} (l : list A) (x : A) : last l = Some x -> x ∈ l.
Proof.
  induction l as [|a l IH]; [discriminate|]. destruct l as [|b l].
  - intros [= <-]. apply list_elem_of_here.
  - intros Hl. apply list_elem_of_further, IH, Hl.
Qed.

(** X25. pickFromMix returns null exactly when no entry of the mix has a
    positive weight; otherwise it returns a type that occurs in the mix with a
    positive weight. It consumes one random draw when it returns a type and
    none when it returns null. *)
Theorem pickFromMix_picks_positive_weights (mix : WaveEnemyMix) (r : Rand) :
  let picked := fst (pickFromMix mix r) in
  let r' := snd (pickFromMix mix r) in
  (picked = None <-> forall t w, (t, w) ∈ mix -> (w <= 0)%Q) /\
  (forall t, picked = Some t -> exists w, (t, w) ∈ mix /\ (0 < w)%Q) /\
  draws r' = draws r /\
  cursor r' = (cursor r + match picked with Some _ => 1 | None => 0 end)%nat.
Proof.
  cbv zeta. unfold pickFromMix.
  set (entries := List.filter (fun e => Qltb 0 (snd e)) mix).
  assert (Hent : forall t w, (t, w) ∈ entries <-> (t, w) ∈ mix /\ (0 < w)%Q).
  { intros t w. unfold entries. rewrite !list_elem_of_In, filter_In. cbn [snd].
    destruct (Qltb_spec 0 w) as [[-> Hlt]|[-> Hle]]; split; intros [? ?]; split; auto;
      try discriminate. lra. }
  destruct entries as [|e0 rest] eqn:He; cbn [length Nat.eqb fst snd].
  - split; [|split; [discriminate|split; [reflexivity|lia]]].
    split; [|reflexivity]. intros _ t w Hin.
    destruct (Qltb_spec 0 w) as [[_ Hlt]|[_ Hle]]; [|exact Hle].
    exfalso. apply (not_elem_of_nil (t, w)). apply Hent. auto.
  - unfold Math_random. cbv iota beta. set (roll := (draws r (cursor r) * _)%Q).
    assert (Hsome : exists t w, (match rollMix (e0 :: rest) roll with
                               | Some type => Some type
                               | None => fst <$> last (e0 :: rest)
                               end) = Some t /\ (t, w) ∈ e0 :: rest).
    { destruct (rollMix (e0 :: rest) roll) as [t|] eqn:Hr.
      - apply rollMix_member in Hr as [w Hin]. eauto.
      - destruct (last (e0 :: rest)) as [[t w]|] eqn:Hl.
        + exists t, w. split; [reflexivity|]. now apply last_member.
        + exfalso. clear -Hl. revert e0 Hl. induction rest as [|b rest IH]; intros e0 Hl.
          * discriminate.
          * apply (IH b). exact Hl. }
    destruct Hsome as (t & w & Hpick & Hin).
    rewrite Hpick. cbn [fst snd draws cursor].
    split; [|split; [|split; [reflexivity|lia]]].
    + split; [discriminate|]. intros Hall. exfalso.
      apply Hent in Hin as (Hm & Hpos). specialize (Hall t w Hm). lra.
    + intros t' [= <-]. exists w. now apply Hent.
Qed.

Section EventFacts.
Context `{MathLib}.

Lemma processEventsFrom_spec (evs : list TimedWaveEvent) :
  forall i depth tm ctx env ctx' env',
    processEventsFrom i evs depth tm ctx env = Some (ctx', env') ->
    wave ctx' = wave ctx /\ waveIndex ctx' = waveIndex ctx /\ elapsed ctx' = elapsed ctx /\
    budget ctx' = budget ctx /\ costs ctx' = costs ctx /\
    (forall k, k ∈ triggeredEvents ctx -> k ∈ triggeredEvents ctx') /\
    (forall k, k ∈ triggeredEvents ctx' ->
       k ∈ triggeredEvents ctx \/ (i <= k < i + length evs)%nat) /\
    (forall j evt, evs !! j = Some evt ->
       (i + j)%nat ∈ triggeredEvents ctx' <->
       ((i + j)%nat ∈ triggeredEvents ctx \/ Qltb (elapsed ctx) (triggerTime evt) = false)).
Proof.
  induction evs as [|evt rest IH]; intros i depth tm ctx env ctx' env';
    cbn [processEventsFrom].
  - intros [= <- <-]. do 5 (split; [reflexivity|]). split; [auto|]. split; [auto|].
    intros j e Hj. discriminate.
  - destruct (decide (i ∈ triggeredEvents ctx)) as [Hin|Hnin].
    + intros Hr. apply IH in Hr as (H1 & H2 & H3 & H4 & H5 & Hsub & Hnew & Hiff).
      do 5 (split; [assumption|]). split; [exact Hsub|]. split.
      * intros k Hk. destruct (Hnew k Hk) as [?|?]; [auto|right; cbn [length]; lia].
      * intros j e Hj. destruct j as [|j]; cbn in Hj.
        -- rewrite Nat.add_0_r. split; [auto|intros _; now apply Hsub].
        -- replace (i + S j)%nat with (S i + j)%nat by lia. apply Hiff. exact Hj.
    + destruct (Qltb (elapsed ctx) (triggerTime evt)) eqn:Hq.
      * intros Hr. apply IH in Hr as (H1 & H2 & H3 & H4 & H5 & Hsub & Hnew & Hiff).
        do 5 (split; [assumption|]). split; [exact Hsub|]. split.
        -- intros k Hk. destruct (Hnew k Hk) as [?|?]; [auto|right; cbn [length]; lia].
        -- intros j e Hj. destruct j as [|j]; cbn in Hj.
           ++ injection Hj as <-. rewrite Nat.add_0_r. split.
              ** intros Hk. destruct (Hnew i Hk) as [?|?]; [auto|lia].
              ** intros [?|?]; [contradiction|congruence].
           ++ replace (i + S j)%nat with (S i + j)%nat by lia. apply Hiff. exact Hj.
      * destruct (executeEvent depth tm evt env) as [env1|]; [|discriminate].
        intros Hr. apply IH in Hr as (H1 & H2 & H3 & H4 & H5 & Hsub & Hnew & Hiff).
        cbn [wave waveIndex elapsed budget costs triggeredEvents set_triggered] in *.
        do 5 (split; [assumption|]). split; [|split].
        -- intros k Hk. apply Hsub. apply elem_of_union. auto.
        -- intros k Hk. destruct (Hnew k Hk) as [Hu|?]; [|right; cbn [length]; lia].
           apply elem_of_union in Hu as [Hs|?]; [|auto].
           apply elem_of_singleton in Hs. subst. right. cbn [length]. lia.
        -- intros j e Hj. destruct j as [|j]; cbn in Hj.
           ++ injection Hj as <-. rewrite Nat.add_0_r. split; [intros _; right; exact Hq|].
              intros _. apply Hsub. apply elem_of_union. left. now apply elem_of_singleton.
           ++ replace (i + S j)%nat with (S i + j)%nat by lia. split.
              ** intros Hk. apply (Hiff j e Hj) in Hk as [Hu|?]; [|auto].
                 apply elem_of_union in Hu as [Hs|?]; [|auto].
                 apply elem_of_singleton in Hs. lia.
              ** intros Hk. apply (Hiff j e Hj). destruct Hk as [?|?]; [|auto].
                 left. apply elem_of_union. auto.
Qed.

Lemma processEventsFrom_settled (evs : list TimedWaveEvent) :
  forall i depth tm ctx env,
    (forall j evt, evs !! j = Some evt ->
       (i + j)%nat ∈ triggeredEvents ctx \/ Qltb (elapsed ctx) (triggerTime evt) = true) ->
    processEventsFrom i evs depth tm ctx env = Some (ctx, env).
Proof.
  induction evs as [|evt rest IH]; intros i depth tm ctx env Hall; cbn [processEventsFrom];
    [reflexivity|].
  assert (Hrest : forall j e, rest !! j = Some e ->
            (S i + j)%nat ∈ triggeredEvents ctx \/ Qltb (elapsed ctx) (triggerTime e) = true).
  { intros j e Hj. replace (S i + j)%nat with (i + S j)%nat by lia. now apply Hall. }
  destruct (decide (i ∈ triggeredEvents ctx)) as [Hin|Hnin]; [now apply IH|].
  destruct (Hall 0%nat evt eq_refl) as [Hin|Hq].
  - rewrite Nat.add_0_r in Hin. contradiction.
  - rewrite Hq. now apply IH.
Qed.

(** X26. After processEvents, a timed event of the wave is marked as triggered
    exactly when it was marked before or its triggerTime is at most the
    elapsed time; elapsed and budget are unchanged, and a second processEvents
    right after the first changes nothing, so no event fires twice. *)
Theorem processEvents_fires_each_event_once
    (depth : nat) (tm : option TileMap) (ctx ctx' : ActiveWaveContext) (env env' : SpawnEnv) :
  processEvents depth tm ctx env = Some (ctx', env') ->
  (forall j evt, default [] (timedEvents (wave ctx)) !! j = Some evt ->
     j ∈ triggeredEvents ctx' <->
     (j ∈ triggeredEvents ctx \/ (triggerTime evt <= elapsed ctx)%Q)) /\
  elapsed ctx' = elapsed ctx /\ budget ctx' = budget ctx /\
  processEvents depth tm ctx' env' = Some (ctx', env').
Proof.
  unfold processEvents. intros Hr.
  apply processEventsFrom_spec in Hr as (H1 & H2 & H3 & H4 & H5 & Hsub & Hnew & Hiff).
  assert (Hq : forall evt, Qltb (elapsed ctx) (triggerTime evt) = false <->
                           (triggerTime evt <= elapsed ctx)%Q).
  { intros evt. destruct (Qltb_spec (elapsed ctx) (triggerTime evt)) as [[-> Hlt]|[-> Hle]].
    - split; [discriminate|]. intros Hle. lra.
    - split; auto. }
  split; [|split; [exact H3|split; [exact H4|]]].
  - intros j evt Hj. rewrite <- Hq. apply (Hiff j evt Hj).
  - rewrite H1. apply processEventsFrom_settled. intros j evt Hj. cbn [Nat.add].
    rewrite H3. destruct (Qltb (elapsed ctx) (triggerTime evt)) eqn:E; [auto|].
    left. apply (Hiff j evt Hj). auto.
Qed.

End EventFacts.

Lemma filter_isNot_elem (entity x : loc) (l : list loc) :
  x ∈ List.filter (isNot entity) l <-> x ∈ l /\ x <> entity.
Proof.
  rewrite !list_elem_of_In, filter_In. unfold isNot.
  destruct (Nat.eqb_spec x entity); cbn; split; intros [? ?]; split; auto; try discriminate.
Qed.

Lemma fold_removeEntity (l : list loc) : forall s,
  let s' := fold_left removeEntity l s in
  (forall x, x ∈ enemies (em s') <-> x ∈ enemies (em s) /\ x ∉ l) /\
  (forall x, x ∈ entities (em s') <-> x ∈ entities (em s) /\ x ∉ l) /\
  (forall e, objs s' !! e =
     if decide (e ∈ l) then (fun ent => set_active ent false) <$> objs s !! e
     else objs s !! e).
Proof.
  induction l as [|a l IH]; intros s; cbn [fold_left].
  - split; [|split].
    + intros x. split; [intros ?; split; [assumption|apply not_elem_of_nil]|tauto].
    + intros x. split; [intros ?; split; [assumption|apply not_elem_of_nil]|tauto].
    + intros e. destruct (decide (e ∈ [])) as [Hin|_]; [|reflexivity].
      now apply not_elem_of_nil in Hin.
  - destruct (IH (removeEntity s a)) as (Hen & Hall & Hobj). cbv zeta in *.
    split; [|split].
    + intros x. rewrite Hen. cbn [removeEntity em enemies]. rewrite filter_isNot_elem.
      rewrite not_elem_of_cons. tauto.
    + intros x. rewrite Hall. cbn [removeEntity em entities]. rewrite filter_isNot_elem.
      rewrite not_elem_of_cons. tauto.
    + intros e. rewrite Hobj. cbn [removeEntity objs].
      destruct (decide (e = a)) as [->|Hne].
      * rewrite lookup_alter_eq.
        destruct (decide (a ∈ a :: l)) as [_|Hn]; [|exfalso; apply Hn, list_elem_of_here].
        destruct (decide (a ∈ l)); destruct (objs s !! a); reflexivity.
      * rewrite lookup_alter_ne by congruence.
        destruct (decide (e ∈ l)) as [Hin|Hnin].
        -- destruct (decide (e ∈ a :: l)) as [_|Hn]; [reflexivity|].
           exfalso. apply Hn. now apply list_elem_of_further.
        -- destruct (decide (e ∈ a :: l)) as [Hin2|_]; [|reflexivity].
           apply elem_of_cons in Hin2 as [?|?]; contradiction.
Qed.

(** X27. With an empty wave list beginWave fails. Otherwise it activates the
    wave at the index clamped to 0..length-1 with elapsed 0, budget 0, no
    triggered event and intermission timer 0, and with costs in which the
    wave's own entries override the base costs; with clearEnemiesOnWaveStart
    every listed enemy is removed and deactivated and the enemy list is empty,
    without it the entities are unchanged. *)
Theorem beginWave_starts_a_fresh_wave (wm : WaveManager) (s : Store) (index : Z) :
  (waves wm = [] -> beginWave wm s index = None) /\
  (waves wm <> [] ->
   exists wm' s' ctx,
     beginWave wm s index = Some (wm', s') /\ activeWave wm' = Some ctx /\
     waveIndex ctx = Z.max 0 (Z.min index (Z.of_nat (length (waves wm)) - 1)) /\
     0 <= waveIndex ctx < Z.of_nat (length (waves wm)) /\
     waves wm !! Z.to_nat (waveIndex ctx) = Some (wave ctx) /\
     elapsed ctx = 0%Q /\ budget ctx = 0%Q /\ triggeredEvents ctx = ∅ /\
     intermissionTimer wm' = 0%Q /\
     (forall k, costs ctx !! k =
        match enemyCosts (wave ctx) !! k with
        | Some v => Some v
        | None => baseEnemyCosts wm !! k
        end) /\
     (clearEnemiesOnWaveStart wm = true ->
      enemies (em s') = [] /\
      forall e ent, e ∈ enemies (em s) -> objs s !! e = Some ent ->
        objs s' !! e = Some (set_active ent false)) /\
     (clearEnemiesOnWaveStart wm = false -> s' = s)).
Proof.
  split.
  - intros Hw. unfold beginWave. rewrite Hw. reflexivity.
  - intros Hne. unfold beginWave.
    set (n := Z.of_nat (length (waves wm))).
    assert (Hn : 0 < n) by (unfold n; destruct (waves wm); [contradiction|cbn; lia]).
    set (wi := Z.max 0 (Z.min index (n - 1))).
    assert (Hwi : 0 <= wi < n) by lia.
    destruct (waves wm !! Z.to_nat wi) as [w|] eqn:Hlook.
    2:{ apply lookup_ge_None in Hlook. lia. }
    eexists _, _, _. split; [reflexivity|]. cbn [activeWave set_wave_state intermissionTimer].
    split; [reflexivity|]. cbn [waveIndex wave elapsed budget triggeredEvents costs].
    do 7 (split; [first [reflexivity | assumption]|]). split; [|split].
    + intros k. rewrite lookup_union. destruct (enemyCosts w !! k), (baseEnemyCosts wm !! k);
        reflexivity.
    + intros ->. destruct (fold_removeEntity (enemies (em s)) s) as (Hen & _ & Hobj).
      cbv zeta in Hen, Hobj. split.
      * destruct (enemies (em (fold_left removeEntity (enemies (em s)) s))) as [|x l];
          [reflexivity|].
        exfalso. assert (Hx : x ∈ x :: l) by apply list_elem_of_here.
        apply Hen in Hx. tauto.
      * intros e ent Hin Hent. rewrite Hobj, Hent.
        destruct (decide (e ∈ enemies (em s))); [reflexivity|contradiction].
    + intros ->. reflexivity.
Qed.

(** ** The projectile pool *)

Lemma modifyProjectile_bounded (B : nat) (pm : ProjectileManager) (p : ploc)
    (f : Projectile -> Projectile) :
  poolBounded B pm -> poolBounded B (modifyProjectile pm p f).
Proof. intros H. exact H. Qed.

Lemma last_None_nil {A : Type} (l : list A) : last l = None -> l = [].
Proof.
  induction l as [|a l IH]; [reflexivity|]. destruct l as [|b l]; [discriminate|].
  intros Hl. specialize (IH Hl). discriminate.
Qed.

Lemma removelast_length {A : Type} (l : list A) (x : A) :
  last l = Some x -> S (length (removelast l)) = length l.
Proof.
  induction l as [|a l IH]; [discriminate|]. destruct l as [|b l]; [reflexivity|].
  intros Hl. cbn [removelast length] in *. f_equal. now apply IH.
Qed.

Lemma acquireProjectile_bounded (B : nat) (pm : ProjectileManager) :
  poolBounded B pm ->
  pm_config (snd (acquireProjectile pm)) = pm_config pm /\
  match fst (acquireProjectile pm) with
  | Some _ => (S (held (snd (acquireProjectile pm))) <= B)%nat
  | None => snd (acquireProjectile pm) = pm
  end.
Proof.
  intros (Hpool & Hmax & Hheld). unfold acquireProjectile, held in *.
  destruct (last (pool pm)) as [p|] eqn:Hl.
  - cbn. split; [reflexivity|]. apply removelast_length in Hl. lia.
  - apply last_None_nil in Hl. rewrite Hpool. cbn [negb].
    destruct (Z.leb_spec (maxProjectiles (pm_config pm)) (Z.of_nat (length (active pm)))) as [Hfull|Hroom].
    + destruct (reuseOldestWhenFull (pm_config pm)); cbn [negb]; [|split; reflexivity].
      destruct (active pm) as [|oldest rest] eqn:Ha; [split; reflexivity|].
      cbn in *. split; [reflexivity|]. lia.
    + cbn. split; [reflexivity|]. rewrite Hl in *. cbn in *. lia.
Qed.

Lemma releaseAtIndex_bounded (B : nat) (pm : ProjectileManager) (i : nat) :
  poolBounded B pm -> poolBounded B (releaseAtIndex pm i) /\
  held (releaseAtIndex pm i) = held pm.
Proof.
  intros (Hpool & Hmax & Hheld). unfold releaseAtIndex.
  destruct (active pm !! i) as [removed|] eqn:Hi; [|repeat split; assumption].
  rewrite Hpool. unfold poolBounded, held in *. cbn.
  rewrite length_delete by (eexists; exact Hi). apply lookup_lt_Some in Hi.
  rewrite length_app. cbn. repeat split; try assumption; lia.
Qed.

Lemma preallocatePool_held (pm : ProjectileManager) (count : Z) :
  0 <= count ->
  active (preallocatePool pm count) = active pm /\
  length (pool (preallocatePool pm count)) = (length (pool pm) + Z.to_nat count)%nat /\
  pm_config (preallocatePool pm count) = pm_config pm /\
  pm_registry (preallocatePool pm count) = pm_registry pm.
Proof.
  intros Hc. unfold preallocatePool.
  pose (P := fun (k : Z) (q : ProjectileManager) =>
    active q = active pm /\ length (pool q) = (length (pool pm) + Z.to_nat k)%nat /\
    pm_config q = pm_config pm /\ pm_registry q = pm_registry pm).
  apply (forZ_inv P); [exact Hc| |].
  - unfold P. repeat split. cbn. lia.
  - intros k q Hk (Ha & Hp & Hcfg & Hr). unfold P. cbn.
    rewrite length_app. cbn. repeat split; try assumption. lia.
Qed.

Section PoolFacts.
Context `{MathLib}.

Lemma spawn_bounded (B : nat) (pm : ProjectileManager) (s : Store) (key : string)
    (position direction : Q * Q) (source : option loc) (flagPlayer flagEnemy : bool)
    (options : ProjectileSpawnOptions) :
  poolBounded B pm ->
  poolBounded B (snd (spawn pm s key position direction source flagPlayer flagEnemy options)).
Proof.
  intros Hb. unfold spawn.
  destruct (pm_registry pm !! key) as [type|]; [|exact Hb].
  destruct (normalize (fst direction) (snd direction)) as [[nx ny] lenSq].
  destruct (Qeq_bool lenSq 0); [exact Hb|].
  destruct (acquireProjectile_bounded B pm Hb) as (Hcfg & Hacq).
  destruct (acquireProjectile pm) as [[p|] pm1]; cbn [fst snd] in *.
  - destruct Hb as (Hpool & Hmax & _). unfold poolBounded, held in *. cbn.
    rewrite Hcfg, length_app. cbn. repeat split; try assumption. lia.
  - subst pm1. exact Hb.
Qed.

Lemma handleChain_bounded (B : nat) (w : Sim) (p : ploc) (target : loc) :
  poolBounded B (sim_pm w) -> poolBounded B (sim_pm (snd (handleChain w p target))).
Proof.
  intros Hb. unfold handleChain.
  destruct (projs (sim_pm w) !! p) as [projectile|]; [|exact Hb].
  destruct (objs (sim_store w) !! target) as [tgt|]; [|exact Hb].
  destruct (remainingChains projectile <=? 0); [exact Hb|].
  destruct (findNextChainTarget _ _ _ _) as [next|]; [|exact Hb].
  destruct (getTransform tgt) as [transform|]; [|exact Hb].
  destruct (match objs (sim_store w) !! next with Some e => getTransform e | None => None end)
    as [nextTransform|]; [|exact Hb].
  match goal with |- context [spawn ?a ?b ?c ?d ?e ?f ?g ?h ?i] =>
    pose proof (spawn_bounded B a b c d e f g h i) as Hs;
    destruct (spawn a b c d e f g h i) as [[ch|] pm2]
  end; cbn [snd sim_pm set_pm] in *; apply Hs, modifyProjectile_bounded, Hb.
Qed.

Lemma strike_bounded (B : nat) (w : Sim) (target : loc) (q : Projectile) :
  poolBounded B (sim_pm w) -> poolBounded B (sim_pm (strike w target q)).
Proof. intros Hb. now rewrite (proj1 (strike_frame w target q)). Qed.

Lemma checkEnemyHitLoop_bounded (B : nat) (es : list loc) : forall (w : Sim) (p : ploc),
  poolBounded B (sim_pm w) -> poolBounded B (sim_pm (snd (checkEnemyHitLoop es w p))).
Proof.
  induction es as [|enemy rest IH]; intros w p Hb; cbn [checkEnemyHitLoop]; [exact Hb|].
  destruct (objs (sim_store w) !! enemy) as [ent|]; [|now apply IH].
  destruct (projs (sim_pm w) !! p) as [projectile|]; [|now apply IH].
  destruct (negb (e_active ent)); [now apply IH|].
  destruct (bool_decide _); [now apply IH|].
  destruct (getTransform ent) as [transform|]; [|now apply IH].
  destruct (overlaps projectile ent transform); [|now apply IH].
  match goal with |- context [handleChain ?w2 p enemy] =>
    assert (Hb2 : poolBounded B (sim_pm w2))
      by (cbn [sim_pm set_pm]; apply modifyProjectile_bounded, strike_bounded, Hb);
    pose proof (handleChain_bounded B w2 p enemy Hb2) as Hc;
    destruct (handleChain w2 p enemy) as [chained w3]
  end.
  cbn [snd] in Hc. destruct chained; [exact Hc|].
  destruct (projs (sim_pm w3) !! p) as [live|]; [|exact Hc].
  destruct (0 <? p_pierce live).
  - apply IH. cbn [sim_pm set_pm]. now apply modifyProjectile_bounded.
  - cbn [snd sim_pm set_pm]. now apply modifyProjectile_bounded.
Qed.

Lemma checkPlayerHit_bounded (B : nat) (w : Sim) (p : ploc) :
  poolBounded B (sim_pm w) -> poolBounded B (sim_pm (snd (checkPlayerHit w p))).
Proof.
  intros Hb. unfold checkPlayerHit.
  destruct (player (em (sim_store w))) as [pl|]; [|exact Hb].
  destruct (projs (sim_pm w) !! p) as [projectile|]; [|exact Hb].
  destruct (objs (sim_store w) !! pl) as [ent|]; [|exact Hb].
  destruct (negb (e_active ent)); [exact Hb|].
  destruct (getTransform ent) as [transform|]; [|exact Hb].
  destruct (overlaps projectile ent transform); [|exact Hb].
  destruct (bool_decide _); [exact Hb|].
  cbn [snd sim_pm set_pm]. apply modifyProjectile_bounded.
  destruct (_ || _); [now apply strike_bounded|exact Hb].
Qed.

Lemma updateAt_bounded (B : nat) (w : Sim) (i : nat) (dt : Q) :
  poolBounded B (sim_pm w) -> poolBounded B (sim_pm (snd (updateAt w i dt))).
Proof.
  intros Hb. unfold updateAt.
  destruct (active (sim_pm w) !! i) as [p|]; [|exact Hb].
  destruct (projs (sim_pm w) !! p) as [p0|]; [|exact Hb].
  destruct (negb (p_active p0)); [cbn [snd sim_pm set_pm]; now apply releaseAtIndex_bounded|].
  destruct (Qle_bool _ 0).
  { cbn [snd sim_pm set_pm]. apply releaseAtIndex_bounded.
    now do 2 apply modifyProjectile_bounded. }
  destruct (collidesWithWall (sim_tileMap w) _) as [blocked tm'].
  destruct blocked.
  { cbn [snd sim_pm set_pm]. apply releaseAtIndex_bounded.
    now do 3 apply modifyProjectile_bounded. }
  match goal with |- context [mkSim ?pm2 tm' ?c ?s] =>
    set (w2 := mkSim pm2 tm' c s);
    assert (Hb2 : poolBounded B (sim_pm w2))
      by (cbn [sim_pm w2]; now do 2 apply modifyProjectile_bounded)
  end.
  assert (Hb3 : poolBounded B (sim_pm (snd
            (if isPlayerProjectile (p_set_pos (p_x p0 + p_dirX p0 * p_speed p0 * dt)%Q
                                      (p_y p0 + p_dirY p0 * p_speed p0 * dt)%Q
                                      (p_set_lifetime (p_lifetime p0 - dt)%Q p0))
             then checkEnemyHit w2 p
             else if isEnemyProjectile (p_set_pos (p_x p0 + p_dirX p0 * p_speed p0 * dt)%Q
                                      (p_y p0 + p_dirY p0 * p_speed p0 * dt)%Q
                                      (p_set_lifetime (p_lifetime p0 - dt)%Q p0))
                  then checkPlayerHit w2 p else (false, w2))))).
  { destruct (isPlayerProjectile _); [now apply checkEnemyHitLoop_bounded|].
    destruct (isEnemyProjectile _); [now apply checkPlayerHit_bounded|exact Hb2]. }
  destruct (if isPlayerProjectile _ then _ else _) as [hit w3]. cbn [snd] in Hb3.
  destruct (hit || _); [cbn [snd sim_pm set_pm]; now apply releaseAtIndex_bounded|exact Hb3].
Qed.

Lemma updateFrom_bounded (B : nat) (fuel : nat) : forall (w : Sim) (i : nat) (dt : Q) (w' : Sim),
  poolBounded B (sim_pm w) -> updateFrom fuel w i dt = Some w' -> poolBounded B (sim_pm w').
Proof.
  induction fuel as [|fuel IH]; intros w i dt w' Hb; cbn [updateFrom]; [discriminate|].
  destruct (_ <=? i)%nat; [now intros [= <-]|].
  pose proof (updateAt_bounded B w i dt Hb) as Hs.
  destruct (updateAt w i dt) as [i' w1]. cbn [snd] in Hs. now apply IH.
Qed.

(** X28. With object pooling enabled, if maxProjectiles <= B and the manager
    holds at most B projectile objects (active plus pooled), then spawn,
    releaseAtIndex and update keep it that way; releaseAtIndex does not change
    the number of objects held. So the number of active projectiles never
    exceeds B. *)
Theorem projectile_pool_stays_bounded
    (bound : nat) (pm : ProjectileManager) (s : Store) (key : string)
    (position direction : Q * Q) (source : option loc) (flagPlayer flagEnemy : bool)
    (options : ProjectileSpawnOptions) :
  poolBounded bound pm ->
  poolBounded bound
    (snd (spawn pm s key position direction source flagPlayer flagEnemy options)) /\
  (forall i, poolBounded bound (releaseAtIndex pm i) /\
             held (releaseAtIndex pm i) = held pm) /\
  (forall fuel tm c dt w',
     update fuel (mkSim pm tm c s) dt = Some w' ->
     poolBounded bound (sim_pm w') /\ (length (active (sim_pm w')) <= bound)%nat).
Proof.
  intros Hb. split; [now apply spawn_bounded|]. split; [intros i; now apply releaseAtIndex_bounded|].
  intros fuel tm c dt w' Hu. unfold update in Hu.
  apply (updateFrom_bounded bound) in Hu; [|exact Hb]. split; [exact Hu|].
  destruct Hu as (_ & _ & Hh). unfold held in Hh. lia.
Qed.

End PoolFacts.

(** X29. A new ProjectileManager with poolSize >= 0 has no active projectile,
    exactly poolSize pooled objects and the given config; with pooling enabled
    it holds at most max(poolSize, maxProjectiles) objects, the bound that
    spawn, releaseAtIndex and update then preserve. *)
Theorem newProjectileManager_fills_the_pool
    (reg : list ProjectileTypeDefinition) (cfg : ProjectileSystemConfig) :
  0 <= poolSize cfg ->
  let pm := newProjectileManager reg cfg in
  active pm = [] /\ length (pool pm) = Z.to_nat (poolSize cfg) /\ pm_config pm = cfg /\
  (enableObjectPooling cfg = true ->
   poolBounded (Z.to_nat (Z.max (poolSize cfg) (maxProjectiles cfg))) pm).
Proof.
  intros Hp pm. unfold pm, newProjectileManager.
  destruct (preallocatePool_held
              (mkPM (list_to_map ((fun t => (pt_key t, t)) <$> reverse reg)) cfg [] [] 1 ∅ 0%nat)
              (poolSize cfg) Hp) as (Ha & Hl & Hc & _).
  cbn [active pool pm_config length] in Ha, Hl, Hc.
  split; [exact Ha|]. split; [exact Hl|]. split; [exact Hc|].
  intros Hpool. unfold poolBounded, held. rewrite Hc, Ha, Hl. cbn [length].
  split; [exact Hpool|]. split; lia.
Qed.

(** * Instances *)

(** ** The theorems at concrete inputs *)

Lemma C9_witness_out_of_bounds :
  damageWallTile freshGrid 5 5 1 = (false, freshGrid).
Proof.
  apply (proj1 (C9_damageWallTile_guards freshGrid 5 5 1)). left. reflexivity.
Defined.

Lemma C10_witness_player_cleared :
  player (em (removeEntity playerStore 0%nat)) = None /\
  removeEntity (removeEntity playerStore 0%nat) 0%nat = removeEntity playerStore 0%nat.
Proof.
  pose proof (C10_removeEntity_idempotent playerStore 0%nat) as Hc. cbv zeta in Hc.
  destruct Hc as (_ & _ & _ & _ & Hp & _ & Hi).
  split; [apply Hp; reflexivity|exact Hi].
Defined.


Lemma C8_witness_uncapped_slots :
  getAvailableSlots uncappedController emptyStore = 9007199254740991.
Proof.
  apply (C8_cap_disabled (H := standInMath) 1 uncappedController None emptyStore halfDraws 1).
  vm_compute. discriminate.
Defined.

Lemma C7_witness_unknown_type :
  spawnEnemyType (H := standInMath) 1 capped300Controller None emptyStore halfDraws "Dragon" 1
    = Some (0, (capped300Controller, emptyStore, halfDraws)).
Proof.
  apply (proj1 (C7_spawnEnemyType_capacity (H := standInMath) 1 capped300Controller None
                  emptyStore halfDraws "Dragon" 1)).
  reflexivity.
Defined.

Lemma C2_witness_one_overspend :
  exists ctx' env',
    processContinuousSpawns (H := standInMath) 1 None accruedContext
      (capped300Controller, emptyStore, threeQuarterDraws) = Some (ctx', env') /\
    (budget ctx' = budget accruedContext \/
     exists cheapest prev ty c,
       getCheapestEnemyCost (costs accruedContext) = Some cheapest /\
       (0 < cheapest)%Q /\
       (forall ty' v, costs accruedContext !! ty' = Some v -> (0 < v)%Q -> (cheapest <= v)%Q) /\
       costs accruedContext !! ty = Some c /\
       (cheapest <= prev)%Q /\
       budget ctx' = (prev - c)%Q).
Proof.
  eexists _, _. split; [vm_compute; reflexivity|].
  eapply (proj2 C2_budget_can_go_negative standInMath 1%nat None accruedContext
            (capped300Controller, emptyStore, threeQuarterDraws)).
  vm_compute. reflexivity.
Defined.

Lemma C1_witness_wall_blocks :
  collidesSamples (wallGrid 3) true ([] ++ [(6 # 1, 6 # 1)%Q]) =
    (if fst (damageWallTile (wallGrid 3) 1 1 1)
     then collidesSamples (snd (damageWallTile (wallGrid 3) 1 1 1)) true []
     else (true, snd (damageWallTile (wallGrid 3) 1 1 1))).
Proof.
  apply (C1_wall_hit_blocks_unless_destroyed (H := standInMath) (wallGrid 3) true [] []
           (6 # 1, 6 # 1)%Q 1 1).
  - constructor.
  - reflexivity.
  - reflexivity.
  - reflexivity.
  - reflexivity.
Defined.


Lemma freshGrid_wf : tm_wf freshGrid.
Proof. repeat split; try reflexivity; vm_compute; discriminate. Defined.

Lemma decoratedGrid_wf : tm_wf decoratedGrid.
Proof. repeat split; try reflexivity; vm_compute; discriminate. Defined.

Lemma C4_witness_overlay_grids :
  bothOr sameResult
    (generate (H := standInMath) 50 halfDraws noOverrides freshGrid (plainConfig 0))
    (generate (H := standInMath) 50 threeQuarterDraws noOverrides decoratedGrid (plainConfig 0)) /\
  generate (H := standInMath) 50 halfDraws noOverrides freshGrid (plainConfig 0)
    = generate (H := standInMath) 50 threeQuarterDraws noOverrides freshGrid (plainConfig 0).
Proof.
  apply (C4_generate_deterministic (H := standInMath) 50 halfDraws threeQuarterDraws
           noOverrides (plainConfig 0) freshGrid decoratedGrid).
  - exact freshGrid_wf.
  - exact decoratedGrid_wf.
  - reflexivity.
  - reflexivity.
  - eexists. reflexivity.
Defined.


(** ** The properties beyond the specification at concrete inputs *)

Lemma encode_decode_round_trip_witness :
  decodeBase (encode BaseType.Wall 6 3 2 9) = BaseType.Wall /\
  decodeFlags (encode BaseType.Wall 6 3 2 9) = 6 /\
  decodeState (encode BaseType.Wall 6 3 2 9) = 9.
Proof.
  pose proof (encode_decode_round_trip BaseType.Wall 6 3 2 9) as Hc. cbv zeta in Hc.
  destruct Hc as (_ & Hb & Hf & _ & _ & Hs).
  - vm_compute. split; [discriminate|reflexivity].
  - lia.
  - lia.
  - lia.
  - lia.
  - split; [exact Hb|]. split; [exact Hf|exact Hs].
Defined.

Lemma setTile_getTile_witness :
  getTile (setTile freshGrid 1 1 BaseType.Wall) 0 2 = getTile freshGrid 0 2.
Proof.
  apply (proj2 (setTile_getTile freshGrid 1 1 BaseType.Wall freshGrid_wf eq_refl)).
  discriminate.
Defined.

Lemma wallGrid_wf : tm_wf (wallGrid 3).
Proof. repeat split; try reflexivity; vm_compute; discriminate. Defined.

Lemma damageWallTile_destructible_wall_witness :
  fst (damageWallTile (wallGrid 3) 1 1 5) = true /\
  isWalkable (snd (damageWallTile (wallGrid 3) 1 1 5)) 1 1 = true.
Proof.
  pose proof (damageWallTile_destructible_wall (wallGrid 3) 1 1 5) as Hc. cbv zeta in Hc.
  destruct Hc as (Hres & Hdes & _).
  - exact wallGrid_wf.
  - reflexivity.
  - reflexivity.
  - vm_compute. reflexivity.
  - vm_compute. split; discriminate.
  - split; [exact Hres|]. apply Hdes. vm_compute. discriminate.
Defined.

Lemma wall_falls_at_its_hit_points_witness :
  isWalkable (hitWall (setWallTile freshGrid 1 1 3 false) 1 1 3) 1 1 = true.
Proof.
  pose proof (wall_falls_at_its_hit_points freshGrid 1 1 3) as Hc. cbv zeta in Hc.
  destruct Hc as (_ & Hw & _).
  - exact freshGrid_wf.
  - reflexivity.
  - lia.
  - exact Hw.
Defined.

Lemma setWallTile_indestructible_witness :
  damageWallTile (setWallTile freshGrid 0 0 999 true) 0 0 1000
    = (false, setWallTile freshGrid 0 0 999 true).
Proof.
  pose proof (setWallTile_indestructible freshGrid 0 0 999 1000 true) as Hc. cbv zeta in Hc.
  destruct Hc as (_ & _ & Hd).
  - exact freshGrid_wf.
  - reflexivity.
  - left. reflexivity.
  - exact Hd.
Defined.

Lemma setWalkable_setBlocked_independent_witness :
  isWalkable (setWalkable (wallGrid 3) 1 1 true) 1 1 = true /\
  isBlocked (setWalkable (wallGrid 3) 1 1 true) 1 1 = isBlocked (wallGrid 3) 1 1.
Proof.
  destruct (setWalkable_setBlocked_independent (wallGrid 3) 1 1 true wallGrid_wf eq_refl)
    as ((Hw & Hb & _) & _).
  split; [exact Hw|exact Hb].
Defined.

Lemma consumeDirtyTiles_reports_changed_tile_witness :
  fst (consumeDirtyTiles (setTile freshGrid 2 1 BaseType.Water)) =
    fst (consumeDirtyTiles freshGrid) ++ [(2, 1)].
Proof.
  apply (proj1 (consumeDirtyTiles_reports_changed_tile freshGrid 2 1 BaseType.Water eq_refl)).
Defined.




Lemma emptyStore_wf : store_wf emptyStore.
Proof.
  repeat split; cbn; intros; try (exfalso; eapply not_elem_of_nil; eassumption);
    try discriminate; rewrite lookup_empty in *; discriminate.
Defined.

Lemma createEntity_removeEntity_witness :
  enemies (em (removeEntity (snd (createEntity emptyStore "enemy"))
                 (fst (createEntity emptyStore "enemy")))) = [] /\
  nextId (em (removeEntity (snd (createEntity emptyStore "enemy"))
                (fst (createEntity emptyStore "enemy")))) = 2.
Proof.
  pose proof (createEntity_removeEntity_round_trip emptyStore "enemy" emptyStore_wf) as Hc.
  cbv zeta in Hc. destruct Hc as (_ & _ & _ & _ & _ & _ & He & _ & _ & Hn).
  split; [exact He|exact Hn].
Defined.

Lemma damage_log_bounded_witness :
  (length (damageLog (fst (snd (applyDamage newCombatSystem enemyStore 0%nat 15 None)))) <= 8)%nat.
Proof.
  pose proof (damage_log_bounded newCombatSystem enemyStore 0%nat 15 None) as Hc.
  cbv zeta in Hc. destruct Hc as (Hl & _); [cbn; lia|exact Hl].
Defined.

Lemma carveLine_witness :
  exists tm',
    carveLine 4 freshGrid 0 0 2 1 0 = Some tm' /\
    opens freshGrid tm' /\
    (inBounds freshGrid 0 0 = true -> isWalkable tm' 0 0 = true) /\
    (inBounds freshGrid 2 1 = true -> isWalkable tm' 2 1 = true).
Proof.
  apply (carveLine_terminates_and_opens 4 freshGrid 0 0 2 1 0 freshGrid_wf);
    [vm_compute; discriminate|vm_compute; reflexivity].
Defined.

Lemma countReachable_witness :
  exists n,
    countReachable 9 (wallGrid 3) (0, 0) = Some n /\
    0 <= n <= width (wallGrid 3) * height (wallGrid 3) /\
    (n = 0 <-> isWalkable (wallGrid 3) (fst (0, 0)) (snd (0, 0)) = false).
Proof.
  apply (countReachable_terminates_within_grid 9 (wallGrid 3) (0, 0));
    [vm_compute; discriminate|vm_compute; discriminate|vm_compute; lia].
Defined.

Lemma reinforceOuterWall_witness :
  isBlocked (reinforceOuterWall freshGrid) 2 1 = true /\
  isWalkable (reinforceOuterWall freshGrid) 2 1 = false.
Proof.
  pose proof (reinforceOuterWall_seals_the_border freshGrid 2 1 freshGrid_wf) as Hc.
  cbv zeta in Hc. destruct Hc as (Hb & _).
  destruct Hb as (H1 & H2 & _); [reflexivity|right; left; reflexivity|].
  split; [exact H1|exact H2].
Defined.

Lemma accepted_map_witness :
  exists res tm',
    generate (H := standInMath) 50 halfDraws noOverrides freshGrid (plainConfig 0)
      = Some (res, tm') /\
    isBlocked tm' 0 0 = true.
Proof.
  assert (Hrun : exists res tm',
    attemptLoop (H := standInMath)
      (Z.to_nat (maxAttempts (buildConfig freshGrid noOverrides (plainConfig 0)))) 0 50 freshGrid
      (buildConfig freshGrid noOverrides (plainConfig 0))
      (match seed (buildConfig freshGrid noOverrides (plainConfig 0)) with
       | Some v => v
       | None => Math_floor (fst (Math_random halfDraws) * 2147483647)
       end) = Some (Some res, tm')).
  { vm_compute. eexists _, _. reflexivity. }
  destruct Hrun as (res & tm' & Hrun).
  pose proof (accepted_map_is_connected_and_sealed (H := standInMath) 50 halfDraws noOverrides
                (plainConfig 0) freshGrid res tm' freshGrid_wf) as Hc.
  cbv zeta in Hc. destruct (Hc Hrun) as (Hg & _ & Hs).
  exists res, tm'. split; [exact Hg|].
  apply (Hs 0 0); [reflexivity|left; reflexivity].
Defined.

Lemma extractMetadata_witness :
  (1, 1) ∈ md_obstacleTiles (extractMetadata (wallGrid 3) DEFAULT_GEN_CONFIG) /\
  Z.of_nat (length (md_walkableTiles (extractMetadata (wallGrid 3) DEFAULT_GEN_CONFIG)) +
            length (md_obstacleTiles (extractMetadata (wallGrid 3) DEFAULT_GEN_CONFIG))) = 9.
Proof.
  pose proof (extractMetadata_lists (wallGrid 3) DEFAULT_GEN_CONFIG 1 1) as Hc.
  cbv zeta in Hc. destruct Hc as (_ & Ho & _ & _ & Hn).
  - vm_compute. discriminate.
  - vm_compute. discriminate.
  - split; [apply Ho; split; reflexivity|exact Hn].
Defined.

Lemma spawnUpdate_witness :
  is_Some (spawnUpdate (H := standInMath) 1 fullController None enemyStore halfDraws 1).
Proof.
  apply (spawnUpdate_respects_cap (H := standInMath) 1 fullController None enemyStore halfDraws 1);
    [reflexivity|vm_compute; discriminate|reflexivity|lia].
Defined.


Lemma processEvents_witness :
  exists ctx' env',
    processEvents (H := standInMath) 1 None burstContext
      (capped300Controller, emptyStore, halfDraws) = Some (ctx', env') /\
    processEvents (H := standInMath) 1 None ctx' env' = Some (ctx', env').
Proof.
  assert (Hrun : exists ctx' env',
    processEvents (H := standInMath) 1 None burstContext
      (capped300Controller, emptyStore, halfDraws) = Some (ctx', env')).
  { destruct (processEvents (H := standInMath) 1 None burstContext
                (capped300Controller, emptyStore, halfDraws)) as [[ctx' env']|] eqn:E.
    - eauto.
    - exfalso. vm_compute in E. discriminate. }
  destruct Hrun as (ctx' & env' & Hrun). exists ctx', env'. split; [exact Hrun|].
  apply (processEvents_fires_each_event_once (H := standInMath) 1 None burstContext ctx'
           (capped300Controller, emptyStore, halfDraws) env' Hrun).
Defined.

Lemma newProjectileManager_fills_the_pool_witness :
  let pm := newProjectileManager DEFAULT_TYPES DEFAULT_PROJECTILE_CONFIG in
  active pm = [] /\ length (pool pm) = 256%nat /\ pm_config pm = DEFAULT_PROJECTILE_CONFIG /\
  (enableObjectPooling DEFAULT_PROJECTILE_CONFIG = true -> poolBounded 256 pm).
Proof.
  apply (newProjectileManager_fills_the_pool DEFAULT_TYPES DEFAULT_PROJECTILE_CONFIG).
  vm_compute. discriminate.
Defined.

Lemma projectile_pool_stays_bounded_witness :
  let pm := newProjectileManager DEFAULT_TYPES DEFAULT_PROJECTILE_CONFIG in
  poolBounded 256
    (snd (spawn (H := standInMath) pm emptyStore "playerBullet" (0, 0)%Q (1, 0)%Q None
            true false (mkSpawnOptions None None None None None None None None None))) /\
  (forall i, poolBounded 256 (releaseAtIndex pm i) /\ held (releaseAtIndex pm i) = held pm) /\
  (forall fuel tm c dt w',
     update (H := standInMath) fuel (mkSim pm tm c emptyStore) dt = Some w' ->
     poolBounded 256 (sim_pm w') /\ (length (active (sim_pm w')) <= 256)%nat).
Proof.
  apply (projectile_pool_stays_bounded (H := standInMath) 256
           (newProjectileManager DEFAULT_TYPES DEFAULT_PROJECTILE_CONFIG)).
  split; [reflexivity|]. split; [vm_compute; discriminate|].
  apply Nat.leb_le. vm_compute. reflexivity.
Defined.

(** ** The scenarios of the specification, run on the model *)

(** Scenario A: 15 damage on an enemy of 10 health: applied, health 0, the
    enemy removed from the lists and deactivated, one kill counted. *)
Example scenario_A_overkill :
  let '(applied, (c, s)) := applyDamage newCombatSystem enemyStore 0%nat 15 None in
  applied = true /\ killCount c = 1 /\ enemies (em s) = [] /\ entities (em s) = [] /\
  (e_active <$> objs s !! 0%nat) = Some false /\
  ((fun e => h_current <$> getHealth e) <$> objs s !! 0%nat) = Some (Some 0%Q).
Proof. vm_compute. repeat split; reflexivity. Qed.

(** Scenario B: one damage on a wall with [hp = 1, durability = 3]: destroyed,
    the tile becomes Floor. *)
Example scenario_B_wall_destroyed :
  let tm := set_hp (wallGrid 3) (writeArr (hp (wallGrid 3)) 4 1) in
  fst (damageWallTile tm 1 1 1) = true /\
  (ts_base <$> getTile (snd (damageWallTile tm 1 1 1)) 1 1) = Some BaseType.Floor.
Proof. vm_compute. split; reflexivity. Qed.

(** Scenario C: [spawnEnemyType("Tank", 1)] with [maxEnemies - currentEnemies = 0]
    under a positive cap: 0 spawned, nothing created. *)
Example scenario_C_full :
  maxEnemies (config fullController) - currentEnemies enemyStore = 0 /\
  spawnEnemyType (H := standInMath) 1 fullController None enemyStore halfDraws "Tank" 1
    = Some (0, (fullController, enemyStore, halfDraws)).
Proof. split; reflexivity. Qed.

(** The empty string as a registered type key: [if (!result) break] takes
    the key for a failure, so one enemy is created and 0 is returned. *)
Example empty_key_returns_zero :
  ((fun res => (fst res, enemies (em (snd (fst (snd res)))))) <$>
     spawnEnemyType (H := standInMath) 1 namelessController None emptyStore halfDraws "" 3)
  = Some (0, [0%nat]).
Proof. vm_compute. reflexivity. Qed.

(** Scenario D: the piercing projectile of [pierceSim] meets two enemies of
    20 health in one step: both are left with 9, and the projectile ends
    inactive in the pool, off the active list. *)
Example scenario_D_pierce :
  let w := snd (updateAt (H := standInMath) pierceSim 0 1) in
  ((fun e => h_current <$> getHealth e) <$> objs (sim_store w) !! 0%nat) = Some (Some 9%Q) /\
  ((fun e => h_current <$> getHealth e) <$> objs (sim_store w) !! 1%nat) = Some (Some 9%Q) /\
  active (sim_pm w) = [] /\ pool (sim_pm w) = [0%nat] /\
  (p_active <$> projs (sim_pm w) !! 0%nat) = Some false /\
  update (H := standInMath) 2 pierceSim 1 = Some w.
Proof. vm_compute. repeat split; reflexivity. Qed.
